(** * The EdgeDB wire-protocol codecs (edgedb/protocol/codecs/codecs.go)

    A shallow embedding of the codec engine: the descriptor stream parser
    [Pop], the scalar codecs and the composite codecs (Set, Object, Tuple,
    NamedTuple, Array), followed by the properties of the wire format that
    the design document states about them.

    Conventions of the embedding.
    - A Go [[]byte] is a [list byte]; a buffer passed as [*[]byte] is threaded
      explicitly: a decoder takes the buffer and returns the value together
      with the remaining buffer, an encoder takes the buffer and returns the
      extended buffer.  Capacity is not modelled: slicing past the length of
      a buffer panics.
    - A Go panic is the [Panic] result; nothing is returned next to it.
    - Fixed-width integers are [Z] with the wrap-around written out.
    - [interface{}] is the inductive type [value]. *)

From Stdlib Require Import ZArith Lia List Strings.Byte Strings.String.
From stdpp Require Import base gmap strings list.

#[local] Open Scope Z_scope.
#[local] Set Warnings "-register-all".

(** ** Panics and results *)

(** The ways in which the Go code stops: the panics raised by the Go runtime
    (slice bounds, index, make, type assertion) and the explicit [panic]
    calls of codecs.go, each with the data its message carries. *)
Inductive panic : Type :=
| SliceBoundsOutOfRange
| IndexOutOfRange (index : Z) (len : nat)
| MakeSliceLenOutOfRange
| InterfaceConversion
| UnknownDescriptorType (descriptorType : byte) (bts : list byte)
| UnknownBaseScalar (id : list byte)
| NotImplemented (msg : string)
| InvalidBoolByte (val : byte)
| JSONError.

Inductive result (A : Type) : Type :=
| Ok (a : A)
| Panic (p : panic).
Arguments Ok {A} a.
Arguments Panic {A} p.

#[global] Instance result_ret : MRet result := fun _ a => Ok a.
#[global] Instance result_bind : MBind result := fun _ _ f r =>
  match r with
  | Ok a => f a
  | Panic p => Panic p
  end.

Definition is_Panic {A} (r : result A) : Prop := exists p, r = Panic p.

(** ** Machine integers *)

Definition byte_to_Z (b : byte) : Z := Z.of_N (Byte.to_N b).

Definition byte_of_Z (z : Z) : byte :=
  default x00 (Byte.of_N (Z.to_N (z mod 256))).

(** Conversions between the signed and unsigned integers of one width,
    as Go's [uint32(x)], [int32(x)] and the like compute them. *)
Definition wrap_unsigned (bits : Z) (z : Z) : Z := z mod 2 ^ bits.

Definition wrap_signed (bits : Z) (z : Z) : Z :=
  let u := z mod 2 ^ bits in
  if u <? 2 ^ (bits - 1) then u else u - 2 ^ bits.

Definition to_uint16 := wrap_unsigned 16.
Definition to_uint32 := wrap_unsigned 32.
Definition to_uint64 := wrap_unsigned 64.
Definition to_int16 := wrap_signed 16.
Definition to_int32 := wrap_signed 32.
Definition to_int64 := wrap_signed 64.

Definition in_signed (bits : Z) (z : Z) : Prop :=
  - 2 ^ (bits - 1) <= z < 2 ^ (bits - 1).

Definition in_unsigned (bits : Z) (z : Z) : Prop := 0 <= z < 2 ^ bits.

Definition max_int64 : Z := 9223372036854775807.
Definition min_int64 : Z := -9223372036854775808.

(** ** Byte cursor primitives (package protocol) *)

(** Big-endian representation of the low [n] bytes of [v]. *)
Fixpoint be_bytes (n : nat) (v : Z) : list byte :=
  match n with
  | O => []
  | S n' => byte_of_Z (v / 256 ^ Z.of_nat n') :: be_bytes n' v
  end.

(** The unsigned integer a big-endian byte sequence stands for. *)
Definition be_value (l : list byte) : Z :=
  fold_left (fun acc b => acc * 256 + byte_to_Z b) l 0.

(** Modelled from the spec: the byte cursor primitives of package protocol
    are not part of the sources at hand.  The design document describes them
    as reading and writing fixed-width big-endian integers, length-prefixed
    byte strings and UUIDs on a mutable buffer, the position advancing past
    what was read; reading from a truncated buffer is a fatal decode error. *)
Definition popN (n : nat) (bts : list byte) : result (list byte * list byte) :=
  if decide (n <= length bts)%nat
  then Ok (take n bts, drop n bts)
  else Panic SliceBoundsOutOfRange.

(** Modelled from the spec: reads a big-endian unsigned integer of [n] bytes. *)
Definition popUint (n : nat) (bts : list byte) : result (Z * list byte) :=
  '(raw, bts) ← popN n bts; Ok (be_value raw, bts).

(** Modelled from the spec: [protocol.PopUint8]. *)
Definition PopUint8 (bts : list byte) : result (byte * list byte) :=
  match bts with
  | b :: bts => Ok (b, bts)
  | [] => Panic (IndexOutOfRange 0 0)
  end.

(** Modelled from the spec: [protocol.PopUint16]. *)
Definition PopUint16 := popUint 2.
(** Modelled from the spec: [protocol.PopUint32]. *)
Definition PopUint32 := popUint 4.
(** Modelled from the spec: [protocol.PopUint64]. *)
Definition PopUint64 := popUint 8.

(** Modelled from the spec: [protocol.PeekUint32] reads a 32-bit integer and
    leaves the position where it was. *)
Definition PeekUint32 (bts : list byte) : result Z :=
  '(v, _) ← PopUint32 bts; Ok v.

(** Modelled from the spec: [protocol.PopBytes] reads a 32-bit length and
    that many bytes. *)
Definition PopBytes (bts : list byte) : result (list byte * list byte) :=
  '(n, bts) ← PopUint32 bts; popN (Z.to_nat n) bts.

(** Modelled from the spec: [protocol.PopString], the bytes of [PopBytes]
    as a string. *)
Definition PopString (bts : list byte) : result (string * list byte) :=
  '(raw, bts) ← PopBytes bts; Ok (string_of_list_byte raw, bts).

(** Modelled from the spec: [protocol.PopUUID] reads the 16 bytes of a
    type id. *)
Definition PopUUID (bts : list byte) : result (list byte * list byte) :=
  popN 16 bts.

(** Modelled from the spec: [protocol.PushUint8]. *)
Definition PushUint8 (bts : list byte) (v : Z) : list byte :=
  bts ++ be_bytes 1 v.
(** Modelled from the spec: [protocol.PushUint16]. *)
Definition PushUint16 (bts : list byte) (v : Z) : list byte :=
  bts ++ be_bytes 2 v.
(** Modelled from the spec: [protocol.PushUint32]. *)
Definition PushUint32 (bts : list byte) (v : Z) : list byte :=
  bts ++ be_bytes 4 v.
(** Modelled from the spec: [protocol.PushUint64]. *)
Definition PushUint64 (bts : list byte) (v : Z) : list byte :=
  bts ++ be_bytes 8 v.

(** Modelled from the spec: [protocol.PushBytes] writes the length as a
    32-bit integer ([uint32(len(val))]) and then the bytes. *)
Definition PushBytes (bts : list byte) (val : list byte) : list byte :=
  PushUint32 bts (to_uint32 (Z.of_nat (length val))) ++ val.

(** Modelled from the spec: [protocol.PushString]. *)
Definition PushString (bts : list byte) (val : string) : list byte :=
  PushBytes bts (list_byte_of_string val).

(** ** Values *)

(** Package time of the Go standard library, as far as the codecs use it.
    A [Time] is an instant: whole seconds since the Unix epoch, kept as an
    int64, and the nanoseconds within that second, from 0 to 999999999.  The
    location is always UTC and no monotonic clock reading is attached. *)
Record Time : Type := mkTime { unixSec : Z; nsec : Z }.

(** [time.Unix(sec, nsec)]: the nanoseconds may lie outside [0, 999999999]
    and are carried into the seconds. *)
Definition time_Unix (sec nsec : Z) : Time :=
  if (nsec <? 0) || (1000000000 <=? nsec) then
    let n := nsec ÷ 1000000000 in
    let sec := to_int64 (sec + n) in
    let nsec := to_int64 (nsec - n * 1000000000) in
    if nsec <? 0
    then mkTime (to_int64 (sec - 1)) (nsec + 1000000000)
    else mkTime sec nsec
  else mkTime sec nsec.

(** [t.Unix()]. *)
Definition Time_Unix (t : Time) : Z := unixSec t.

(** [t.UTC()]: the same instant. *)
Definition Time_UTC (t : Time) : Time := t.

(** [t.Sub(u)]: the duration t-u in nanoseconds, saturating at the bounds
    of an int64. *)
Definition Time_Sub (t u : Time) : Z :=
  let d := (unixSec t - unixSec u) * 1000000000 + (nsec t - nsec u) in
  if d <? min_int64 then min_int64
  else if max_int64 <? d then max_int64
  else d.

(** A floating point number is kept as its IEEE-754 bit pattern:
    [math.Float32frombits] is the constructor and [math.Float32bits] the
    projection, and likewise at 64 bits. *)
Record float32 : Type := Float32frombits { Float32bits : Z }.
Record float64 : Type := Float64frombits { Float64bits : Z }.

(** What an [interface{}] holds in this package: the scalars, the
    collection types of package types ([types.Set], [types.Object],
    [types.Tuple], [types.NamedTuple], [types.Array]) and the unnamed
    [[]interface{}] and [map[string]interface{}] that the encoders accept. *)
Inductive value : Type :=
| VNil
| VUUID (id : list byte)
| VString (s : string)
| VBytes (b : list byte)
| VInt16 (n : Z)
| VInt32 (n : Z)
| VInt64 (n : Z)
| VFloat32 (f : float32)
| VFloat64 (f : float64)
| VBool (b : bool)
| VTime (t : Time)
| VDuration (d : Z)
| VSet (elems : list value)
| VObject (fields : gmap string value)
| VTuple (elems : list value)
| VNamedTuple (fields : gmap string value)
| VArray (elems : list value)
| VSlice (elems : list value)
| VMap (m : gmap string value).

(** The [DecodeEncoder] interface.  [Decode] pops a value off the buffer;
    [Encode] appends the encoding of a value to the buffer. *)
Record DecodeEncoder : Type := mkCodec {
  Decode : list byte -> result (value * list byte);
  Encode : list byte -> value -> result (list byte)
}.

(** [l[i]] on a slice. *)
Definition go_index {A} (l : list A) (i : Z) : result A :=
  match l !! Z.to_nat i with
  | Some x => Ok x
  | None => Panic (IndexOutOfRange i (length l))
  end.

(** [make([]interface{}, n)]. *)
Definition go_make (n : Z) : result (list value) :=
  if n <? 0 then Panic MakeSliceLenOutOfRange
  else Ok (replicate (Z.to_nat n) VNil).

(** [for i := start; i < start+n; i++ { body }] over a state [s]. *)
Fixpoint for_range {S : Type} (start : nat) (n : nat)
    (body : nat -> S -> result S) (s : S) : result S :=
  match n with
  | O => Ok s
  | Datatypes.S n' => s' ← body start s; for_range (Datatypes.S start) n' body s'
  end.

(** ** Scalar codecs *)

Definition UUID_Decode (bts : list byte) : result (value * list byte) :=
  '(_, bts) ← PopUint32 bts;
  '(id, bts) ← PopUUID bts;
  Ok (VUUID id, bts).

Definition UUID_Encode (bts : list byte) (val : value) : result (list byte) :=
  let bts := PushUint32 bts 16 in
  match val with
  | VUUID tmp => Ok (bts ++ tmp)
  | _ => Panic InterfaceConversion
  end.

Definition String_Decode (bts : list byte) : result (value * list byte) :=
  '(s, bts) ← PopString bts; Ok (VString s, bts).

Definition String_Encode (bts : list byte) (val : value) : result (list byte) :=
  match val with
  | VString s => Ok (PushString bts s)
  | _ => Panic InterfaceConversion
  end.

Definition Bytes_Decode (bts : list byte) : result (value * list byte) :=
  '(b, bts) ← PopBytes bts; Ok (VBytes b, bts).

Definition Bytes_Encode (bts : list byte) (val : value) : result (list byte) :=
  match val with
  | VBytes b => Ok (PushBytes bts b)
  | _ => Panic InterfaceConversion
  end.

Definition Int16_Decode (bts : list byte) : result (value * list byte) :=
  '(_, bts) ← PopUint32 bts;
  '(n, bts) ← PopUint16 bts;
  Ok (VInt16 (to_int16 n), bts).

Definition Int16_Encode (bts : list byte) (val : value) : result (list byte) :=
  let bts := PushUint32 bts 2 in
  match val with
  | VInt16 n => Ok (PushUint16 bts (to_uint16 n))
  | _ => Panic InterfaceConversion
  end.

Definition Int32_Decode (bts : list byte) : result (value * list byte) :=
  '(_, bts) ← PopUint32 bts;
  '(n, bts) ← PopUint32 bts;
  Ok (VInt32 (to_int32 n), bts).

Definition Int32_Encode (bts : list byte) (val : value) : result (list byte) :=
  let bts := PushUint32 bts 4 in
  match val with
  | VInt32 n => Ok (PushUint32 bts (to_uint32 n))
  | _ => Panic InterfaceConversion
  end.

Definition Int64_Decode (bts : list byte) : result (value * list byte) :=
  '(_, bts) ← PopUint32 bts;
  '(n, bts) ← PopUint64 bts;
  Ok (VInt64 (to_int64 n), bts).

Definition Int64_Encode (bts : list byte) (val : value) : result (list byte) :=
  let bts := PushUint32 bts 8 in
  match val with
  | VInt64 n => Ok (PushUint64 bts (to_uint64 n))
  | _ => Panic InterfaceConversion
  end.

Definition Float32_Decode (bts : list byte) : result (value * list byte) :=
  '(_, bts) ← PopUint32 bts;
  '(bits, bts) ← PopUint32 bts;
  Ok (VFloat32 (Float32frombits bits), bts).

Definition Float32_Encode (bts : list byte) (val : value) : result (list byte) :=
  let bts := PushUint32 bts 4 in
  match val with
  | VFloat32 f => Ok (PushUint32 bts (Float32bits f))
  | _ => Panic InterfaceConversion
  end.

Definition Float64_Decode (bts : list byte) : result (value * list byte) :=
  '(_, bts) ← PopUint32 bts;
  '(bits, bts) ← PopUint64 bts;
  Ok (VFloat64 (Float64frombits bits), bts).

Definition Float64_Encode (bts : list byte) (val : value) : result (list byte) :=
  let bts := PushUint32 bts 8 in
  match val with
  | VFloat64 f => Ok (PushUint64 bts (Float64bits f))
  | _ => Panic InterfaceConversion
  end.

Definition Bool_Decode (bts : list byte) : result (value * list byte) :=
  '(_, bts) ← PopUint32 bts;
  '(val, bts) ← PopUint8 bts;
  if 1 <? byte_to_Z val then Panic (InvalidBoolByte val)
  else Ok (VBool (negb (byte_to_Z val =? 0)), bts).

Definition Bool_Encode (bts : list byte) (val : value) : result (list byte) :=
  let bts := PushUint32 bts 1 in
  match val with
  | VBool b => Ok (PushUint8 bts (if b then 1 else 0))
  | _ => Panic InterfaceConversion
  end.

Definition DateTime_Decode (bts : list byte) : result (value * list byte) :=
  '(_, bts) ← PopUint32 bts;
  '(n, bts) ← PopUint64 bts;
  let val := to_int64 n in
  let seconds := val ÷ 1000000 in
  let microseconds := Z.rem val 1000000 in
  Ok (VTime (Time_UTC (time_Unix (to_int64 (946684800 + seconds))
                                 (to_int64 (1000 * microseconds)))), bts).

Definition DateTime_Encode (bts : list byte) (val : value) : result (list byte) :=
  match val with
  | VTime date =>
      let seconds := to_int64 (Time_Unix date - 946684800) in
      let nanoseconds := Time_Sub date (time_Unix (Time_Unix date) 0) in
      let microseconds :=
        to_int64 (to_int64 (seconds * 1000000) + nanoseconds ÷ 1000) in
      let bts := PushUint32 bts 8 in
      Ok (PushUint64 bts (to_uint64 microseconds))
  | _ => Panic InterfaceConversion
  end.

Definition Duration_Decode (bts : list byte) : result (value * list byte) :=
  '(_, bts) ← PopUint32 bts;
  '(n, bts) ← PopUint64 bts;
  let microseconds := to_int64 n in
  '(_, bts) ← PopUint32 bts;
  '(_, bts) ← PopUint32 bts;
  Ok (VDuration (to_int64 (microseconds * 1000)), bts).

Definition Duration_Encode (bts : list byte) (val : value) : result (list byte) :=
  match val with
  | VDuration duration =>
      let bts := PushUint32 bts 16 in
      let bts := PushUint64 bts (to_uint64 (duration ÷ 1000)) in
      let bts := PushUint32 bts 0 in
      Ok (PushUint32 bts 0)
  | _ => Panic InterfaceConversion
  end.

Definition UUID : DecodeEncoder := mkCodec UUID_Decode UUID_Encode.
Definition String : DecodeEncoder := mkCodec String_Decode String_Encode.
Definition Bytes : DecodeEncoder := mkCodec Bytes_Decode Bytes_Encode.
Definition Int16 : DecodeEncoder := mkCodec Int16_Decode Int16_Encode.
Definition Int32 : DecodeEncoder := mkCodec Int32_Decode Int32_Encode.
Definition Int64 : DecodeEncoder := mkCodec Int64_Decode Int64_Encode.
Definition Float32 : DecodeEncoder := mkCodec Float32_Decode Float32_Encode.
Definition Float64 : DecodeEncoder := mkCodec Float64_Decode Float64_Encode.
Definition Bool : DecodeEncoder := mkCodec Bool_Decode Bool_Encode.
Definition DateTime : DecodeEncoder := mkCodec DateTime_Decode DateTime_Encode.
Definition Duration : DecodeEncoder := mkCodec Duration_Decode Duration_Encode.

(** ** JSON codec *)

(** Package encoding/json of the Go standard library is taken as given:
    [json_Marshal] renders a value as JSON text or fails, [json_Unmarshal]
    parses JSON text into a value or fails. *)
Class JSONLib : Type := {
  json_Marshal : value -> result (list byte);
  json_Unmarshal : list byte -> result value
}.

Section JSONCodec.
Context `{JSONLib}.

Definition JSON_Decode (bts : list byte) : result (value * list byte) :=
  '(n, bts) ← PopUint32 bts;
  '(_, bts) ← PopUint8 bts;
  '(text, rest) ← popN (Z.to_nat (to_uint32 (n - 1))) bts;
  val ← json_Unmarshal text;
  Ok (val, rest).

Definition JSON_Encode (bts : list byte) (val : value) : result (list byte) :=
  buf ← json_Marshal val;
  let bts := PushUint32 bts (to_uint32 (1 + Z.of_nat (length buf))) in
  let bts := PushUint8 bts 1 in
  Ok (bts ++ buf).

Definition JSON : DecodeEncoder := mkCodec JSON_Decode JSON_Encode.

End JSONCodec.

(** ** Set codec *)

Definition Set_Decode (child : DecodeEncoder) (bts : list byte)
    : result (value * list byte) :=
  '(buf, bts) ← PopBytes bts;
  '(dimCount, buf) ← PopUint32 buf;
  if dimCount =? 0 then Ok (VSet [], bts)
  else
    '(_, buf) ← PopUint32 buf;
    '(_, buf) ← PopUint32 buf;
    '(u, buf) ← PopUint32 buf;
    let upper := to_int32 u in
    '(l, buf) ← PopUint32 buf;
    let lower := to_int32 l in
    let elmCount := to_int32 (upper - lower + 1) in
    out ← go_make elmCount;
    '(out, buf) ← for_range 0 (Z.to_nat elmCount)
      (fun i '(out, buf) =>
         '(x, buf) ← Decode child buf;
         Ok (<[i := x]> out, buf))
      (out, buf);
    Ok (VSet out, bts).

Definition Set_Encode (child : DecodeEncoder) (bts : list byte) (val : value)
    : result (list byte) :=
  Panic (NotImplemented "not implemented").

Definition SetCodec (child : DecodeEncoder) : DecodeEncoder :=
  mkCodec (Set_Decode child) (Set_Encode child).

(** ** Object codec *)

Record objectField : Type := mkObjectField {
  isImplicit : bool;
  isLinkProperty : bool;
  isLink : bool;
  name : string;
  codec : DecodeEncoder
}.

Definition Object_Decode (fields : list objectField) (bts : list byte)
    : result (value * list byte) :=
  '(buf, bts) ← PopBytes bts;
  '(n, buf) ← PopUint32 buf;
  let elmCount := to_int32 n in
  '(out, buf) ← for_range 0 (Z.to_nat elmCount)
    (fun i '(out, buf) =>
       '(_, buf) ← PopUint32 buf;
       field ← go_index fields (Z.of_nat i);
       peek ← PeekUint32 buf;
       if to_int32 peek =? -1 then
         '(_, buf) ← PopUint32 buf;
         Ok (<[name field := VSet []]> out, buf)
       else
         '(x, buf) ← Decode (codec field) buf;
         Ok (<[name field := x]> out, buf))
    (∅, buf);
  Ok (VObject out, bts).

Definition Object_Encode (fields : list objectField) (bts : list byte)
    (val : value) : result (list byte) :=
  Panic (NotImplemented "objects can't be query parameters").

Definition ObjectCodec (fields : list objectField) : DecodeEncoder :=
  mkCodec (Object_Decode fields) (Object_Encode fields).

(** ** Tuple codec *)

Definition Tuple_Decode (fields : list DecodeEncoder) (bts : list byte)
    : result (value * list byte) :=
  '(buf, bts) ← PopBytes bts;
  '(n, buf) ← PopUint32 buf;
  let elmCount := to_int32 n in
  out ← go_make elmCount;
  '(out, buf) ← for_range 0 (Z.to_nat elmCount)
    (fun i '(out, buf) =>
       '(_, buf) ← PopUint32 buf;
       field ← go_index fields (Z.of_nat i);
       '(x, buf) ← Decode field buf;
       Ok (<[i := x]> out, buf))
    (out, buf);
  Ok (VTuple out, bts).

Definition Tuple_Encode (fields : list DecodeEncoder) (bts : list byte)
    (val : value) : result (list byte) :=
  let tmp : list byte := [] in
  let elmCount := length fields in
  if decide (elmCount = 0%nat) then
    let bts := PushUint32 bts 4 in
    Ok (PushUint32 bts (to_uint32 (Z.of_nat elmCount)))
  else
    let tmp := PushUint32 tmp (to_uint32 (Z.of_nat elmCount)) in
    match val with
    | VSlice in_ =>
        tmp ← for_range 0 elmCount
          (fun i tmp =>
             let tmp := PushUint32 tmp 0 in
             field ← go_index fields (Z.of_nat i);
             x ← go_index in_ (Z.of_nat i);
             Encode field tmp x)
          tmp;
        Ok (PushUint32 bts (to_uint32 (Z.of_nat (length tmp))) ++ tmp)
    | _ => Panic InterfaceConversion
    end.

Definition TupleCodec (fields : list DecodeEncoder) : DecodeEncoder :=
  mkCodec (Tuple_Decode fields) (Tuple_Encode fields).

(** ** NamedTuple codec *)

Record namedTupleField : Type := mkNamedTupleField {
  nt_name : string;
  nt_codec : DecodeEncoder
}.

Definition NamedTuple_Decode (fields : list namedTupleField) (bts : list byte)
    : result (value * list byte) :=
  '(buf, bts) ← PopBytes bts;
  '(n, buf) ← PopUint32 buf;
  let elmCount := to_int32 n in
  '(out, buf) ← for_range 0 (Z.to_nat elmCount)
    (fun i '(out, buf) =>
       '(_, buf) ← PopUint32 buf;
       field ← go_index fields (Z.of_nat i);
       '(x, buf) ← Decode (nt_codec field) buf;
       Ok (<[nt_name field := x]> out, buf))
    (∅, buf);
  Ok (VNamedTuple out, bts).

(** [in[field.name]] on a Go map: a missing key reads as the zero value of
    [interface{}], which is nil. *)
Definition go_map_index (m : gmap string value) (k : string) : value :=
  default VNil (m !! k).

Definition NamedTuple_Encode (fields : list namedTupleField) (bts : list byte)
    (val : value) : result (list byte) :=
  let tmp : list byte := [] in
  let elmCount := length fields in
  let tmp := PushUint32 tmp (to_uint32 (Z.of_nat elmCount)) in
  match val with
  | VMap in_ =>
      tmp ← for_range 0 elmCount
        (fun i tmp =>
           let tmp := PushUint32 tmp 0 in
           field ← go_index fields (Z.of_nat i);
           Encode (nt_codec field) tmp (go_map_index in_ (nt_name field)))
        tmp;
      Ok (PushUint32 bts (to_uint32 (Z.of_nat (length tmp))) ++ tmp)
  | _ => Panic InterfaceConversion
  end.

Definition NamedTupleCodec (fields : list namedTupleField) : DecodeEncoder :=
  mkCodec (NamedTuple_Decode fields) (NamedTuple_Encode fields).

(** ** Array codec *)

Definition Array_Decode (child : DecodeEncoder) (bts : list byte)
    : result (value * list byte) :=
  '(buf, bts) ← PopBytes bts;
  '(dimCount, buf) ← PopUint32 buf;
  if dimCount =? 0 then Ok (VArray [], bts)
  else
    '(_, buf) ← PopUint32 buf;
    '(_, buf) ← PopUint32 buf;
    '(u, buf) ← PopUint32 buf;
    let upper := to_int32 u in
    '(l, buf) ← PopUint32 buf;
    let lower := to_int32 l in
    let elmCount := to_int32 (upper - lower + 1) in
    out ← go_make elmCount;
    '(out, buf) ← for_range 0 (Z.to_nat elmCount)
      (fun i '(out, buf) =>
         '(x, buf) ← Decode child buf;
         Ok (<[i := x]> out, buf))
      (out, buf);
    Ok (VArray out, bts).

Definition Array_Encode (child : DecodeEncoder) (bts : list byte) (val : value)
    : result (list byte) :=
  let tmp : list byte := [] in
  let tmp := PushUint32 tmp 1 in
  let tmp := PushUint32 tmp 0 in
  let tmp := PushUint32 tmp 0 in
  let tmp := PushUint32 tmp 3 in
  let tmp := PushUint32 tmp 1 in
  match val with
  | VSlice in_ =>
      let elmCount := length in_ in
      tmp ← for_range 0 elmCount
        (fun i tmp =>
           x ← go_index in_ (Z.of_nat i);
           Encode child tmp x)
        tmp;
      Ok (PushUint32 bts (to_uint32 (Z.of_nat (length tmp))) ++ tmp)
  | _ => Panic InterfaceConversion
  end.

Definition ArrayCodec (child : DecodeEncoder) : DecodeEncoder :=
  mkCodec (Array_Decode child) (Array_Encode child).

(** ** The descriptor stream parser *)

#[global] Instance byte_eq_dec : EqDecision byte.
Proof.
  intros a b. destruct (Byte.eqb a b) eqn:E.
  - left. now apply Byte.byte_dec_bl.
  - right. intros ->. now rewrite (Byte.byte_dec_lb eq_refl) in E.
Defined.

#[global] Instance byte_countable : Countable byte.
Proof.
  refine (inj_countable' Byte.to_N (fun n => default x00 (Byte.of_N n)) _).
  intros b. now rewrite Byte.of_to_N.
Defined.

(** [CodecLookup], a map from type ids ([types.UUID], 16 bytes) to codecs. *)
Abbreviation CodecLookup := (gmap (list byte) DecodeEncoder).

(** The descriptor tags, the [iota] constants of codecs.go. *)
Definition setType : Z := 0.
Definition objectType : Z := 1.
Definition baseScalarType : Z := 2.
Definition scalarType : Z := 3.
Definition tupleType : Z := 4.
Definition namedTupleType : Z := 5.
Definition arrayType : Z := 6.
Definition enumType : Z := 7.

(** The id of a base scalar: fourteen zero bytes, a one and the kind. *)
Definition base_scalar_id (kind : byte) : list byte :=
  [x00; x00; x00; x00; x00; x00; x00; x00;
   x00; x00; x00; x00; x00; x00; x01; kind].

Definition popSetCodec (bts : list byte) (id : list byte)
    (codecs : list DecodeEncoder) : result (DecodeEncoder * list byte) :=
  '(n, bts) ← PopUint16 bts;
  child ← go_index codecs n;
  Ok (SetCodec child, bts).

Definition popObjectCodec (bts : list byte) (id : list byte)
    (codecs : list DecodeEncoder) : result (DecodeEncoder * list byte) :=
  let fields : list objectField := [] in
  '(n, bts) ← PopUint16 bts;
  let elmCount := Z.to_nat n in
  '(fields, bts) ← for_range 0 elmCount
    (fun i '(fields, bts) =>
       '(flags, bts) ← PopUint8 bts;
       '(name, bts) ← PopString bts;
       '(index, bts) ← PopUint16 bts;
       c ← go_index codecs index;
       let field := {|
         isImplicit := negb (Z.land (byte_to_Z flags) 1 =? 0);
         isLinkProperty := negb (Z.land (byte_to_Z flags) 2 =? 0);
         isLink := negb (Z.land (byte_to_Z flags) 4 =? 0);
         name := name;
         codec := c
       |} in
       Ok (fields ++ [field], bts))
    (fields, bts);
  Ok (ObjectCodec fields, bts).

Definition popTupleCodec (bts : list byte) (id : list byte)
    (codecs : list DecodeEncoder) : result (DecodeEncoder * list byte) :=
  let fields : list DecodeEncoder := [] in
  '(n, bts) ← PopUint16 bts;
  let elmCount := Z.to_nat n in
  '(fields, bts) ← for_range 0 elmCount
    (fun i '(fields, bts) =>
       '(index, bts) ← PopUint16 bts;
       c ← go_index codecs index;
       Ok (fields ++ [c], bts))
    (fields, bts);
  Ok (TupleCodec fields, bts).

Definition popNamedTupleCodec (bts : list byte) (id : list byte)
    (codecs : list DecodeEncoder) : result (DecodeEncoder * list byte) :=
  let fields : list namedTupleField := [] in
  '(n, bts) ← PopUint16 bts;
  let elmCount := Z.to_nat n in
  '(fields, bts) ← for_range 0 elmCount
    (fun i '(fields, bts) =>
       '(name, bts) ← PopString bts;
       '(index, bts) ← PopUint16 bts;
       c ← go_index codecs index;
       let field := {| nt_name := name; nt_codec := c |} in
       Ok (fields ++ [field], bts))
    (fields, bts);
  Ok (NamedTupleCodec fields, bts).

Definition popArrayCodec (bts : list byte) (id : list byte)
    (codecs : list DecodeEncoder) : result (DecodeEncoder * list byte) :=
  '(index, bts) ← PopUint16 bts;
  '(n, bts) ← PopUint16 bts;
  bts ← for_range 0 (Z.to_nat n)
    (fun i bts => '(_, bts) ← PopUint32 bts; Ok bts)
    bts;
  child ← go_index codecs index;
  Ok (ArrayCodec child, bts).

Section Parser.
Context `{JSONLib}.

Definition getBaseScalarCodec (id : list byte) : result DecodeEncoder :=
  if decide (id = base_scalar_id x00) then Ok UUID
  else if decide (id = base_scalar_id x01) then Ok String
  else if decide (id = base_scalar_id x02) then Ok Bytes
  else if decide (id = base_scalar_id x03) then Ok Int16
  else if decide (id = base_scalar_id x04) then Ok Int32
  else if decide (id = base_scalar_id x05) then Ok Int64
  else if decide (id = base_scalar_id x06) then Ok Float32
  else if decide (id = base_scalar_id x07) then Ok Float64
  else if decide (id = base_scalar_id x08)
       then Panic (NotImplemented "decimal type not implemented")
  else if decide (id = base_scalar_id x09) then Ok Bool
  else if decide (id = base_scalar_id x0a) then Ok DateTime
  else if decide (id = base_scalar_id x0b)
       then Panic (NotImplemented "cal::local_datetime type not implemented")
  else if decide (id = base_scalar_id x0c)
       then Panic (NotImplemented "cal::local_date typep not implemented")
  else if decide (id = base_scalar_id x0d)
       then Panic (NotImplemented "cal::local_time typep not implemented")
  else if decide (id = base_scalar_id x0e) then Ok Duration
  else if decide (id = base_scalar_id x0f) then Ok JSON
  else if decide (id = base_scalar_id x10)
       then Panic (NotImplemented "bigint type not implemented")
  else Panic (UnknownBaseScalar id).

(** One turn of the loop of [Pop]: a tag, a type id and the payload of the
    descriptor; the new codec enters the lookup under its id and is
    appended to the codec list. *)
Definition Pop_step (st : CodecLookup * list DecodeEncoder) (bts : list byte)
    : result ((CodecLookup * list DecodeEncoder) * list byte) :=
  let '(lookup, codecs) := st in
  '(descriptorType, bts) ← PopUint8 bts;
  '(id, bts) ← PopUUID bts;
  '(c, bts) ←
    (let tag := byte_to_Z descriptorType in
     if tag =? setType then popSetCodec bts id codecs
     else if tag =? objectType then popObjectCodec bts id codecs
     else if tag =? baseScalarType then
       c ← getBaseScalarCodec id; Ok (c, bts)
     else if tag =? tupleType then popTupleCodec bts id codecs
     else if tag =? namedTupleType then popNamedTupleCodec bts id codecs
     else if tag =? arrayType then popArrayCodec bts id codecs
     else Panic (UnknownDescriptorType descriptorType bts));
  let lookup := <[id := c]> lookup in
  Ok ((lookup, codecs ++ [c]), bts).

(** The loop [for len( *bts) > 0] of [Pop].  Every turn removes at least the
    tag byte, so [fuel] turns suffice for a buffer of [fuel] bytes; the
    branch for exhausted fuel is never taken from [Pop]. *)
Fixpoint Pop_loop (fuel : nat) (st : CodecLookup * list DecodeEncoder)
    (bts : list byte) : result CodecLookup :=
  match bts, fuel with
  | [], _ => Ok (fst st)
  | _ :: _, O => Ok (fst st)
  | _ :: _, S fuel =>
      '(st, bts) ← Pop_step st bts; Pop_loop fuel st bts
  end.

Definition Pop (bts : list byte) : result CodecLookup :=
  Pop_loop (length bts) (∅, []) bts.

End Parser.

(** ** Notions used to state the properties *)

(** A value survives the trip over the wire: the encoder appends some bytes
    [out] to whatever buffer it is given, and the decoder reads the value
    back from [out], leaving what follows untouched. *)
Definition roundtrips (c : DecodeEncoder) (v : value) : Prop :=
  exists out : list byte,
    (forall bts, Encode c bts v = Ok (bts ++ out)) /\
    (forall rest, Decode c (out ++ rest) = Ok (v, rest)).

(** The values of each scalar kind that the wire format represents exactly:
    integers and bit patterns of the declared width, ids of 16 bytes,
    strings and byte strings whose length fits the 32-bit length prefix,
    durations of whole microseconds, instants of whole microseconds whose
    offset from 2000-01-01 fits 64 bits, and JSON values that
    encoding/json reads back from the text it wrote for them. *)
Inductive wire_exact `{JSONLib} : DecodeEncoder -> value -> Prop :=
| exact_UUID (id : list byte) :
    length id = 16%nat -> wire_exact UUID (VUUID id)
| exact_String (s : string) :
    Z.of_nat (length (list_byte_of_string s)) < 2 ^ 32 ->
    wire_exact String (VString s)
| exact_Bytes (b : list byte) :
    Z.of_nat (length b) < 2 ^ 32 -> wire_exact Bytes (VBytes b)
| exact_Int16 (n : Z) : in_signed 16 n -> wire_exact Int16 (VInt16 n)
| exact_Int32 (n : Z) : in_signed 32 n -> wire_exact Int32 (VInt32 n)
| exact_Int64 (n : Z) : in_signed 64 n -> wire_exact Int64 (VInt64 n)
| exact_Float32 (f : float32) :
    in_unsigned 32 (Float32bits f) -> wire_exact Float32 (VFloat32 f)
| exact_Float64 (f : float64) :
    in_unsigned 64 (Float64bits f) -> wire_exact Float64 (VFloat64 f)
| exact_Bool (b : bool) : wire_exact Bool (VBool b)
| exact_DateTime (sec micro : Z) :
    0 <= micro < 1000000 ->
    in_signed 64 ((sec - 946684800) * 1000000 + micro) ->
    wire_exact DateTime (VTime (mkTime sec (1000 * micro)))
| exact_Duration (micro : Z) :
    in_signed 64 (1000 * micro) ->
    wire_exact Duration (VDuration (1000 * micro))
| exact_JSON (v : value) (text : list byte) :
    json_Marshal v = Ok text ->
    json_Unmarshal text = Ok v ->
    1 + Z.of_nat (length text) < 2 ^ 32 ->
    wire_exact JSON v.

(** A stand-in for encoding/json that knows the JSON text [null] only; it
    fixes the library where a concrete run of the codecs is shown. *)
Definition null_text : list byte := list_byte_of_string "null".

#[local] Instance json_null_only : JSONLib := {|
  json_Marshal v :=
    match v with
    | VNil => Ok null_text
    | _ => Panic JSONError
    end;
  json_Unmarshal text :=
    if decide (text = null_text) then Ok VNil else Panic JSONError
|}.

(** [decodes_seq child buf xs buf']: from [buf] on, the child codec decodes
    the values [xs] one after the other, each where the one before it
    stopped, and [buf'] is what remains. *)
Inductive decodes_seq (child : DecodeEncoder)
    : list byte -> list value -> list byte -> Prop :=
| decodes_nil (buf : list byte) : decodes_seq child buf [] buf
| decodes_cons (buf buf1 buf2 : list byte) (x : value) (xs : list value) :
    Decode child buf = Ok (x, buf1) ->
    decodes_seq child buf1 xs buf2 ->
    decodes_seq child buf (x :: xs) buf2.

(** The layout of a Set or Array value inside its envelope, in the words of
    the wire format: a 32-bit dimension count; when it is zero the
    collection is empty, whatever follows; otherwise two reserved words, the
    signed 32-bit upper and lower bounds, and upper - lower + 1 elements
    (a signed 32-bit count) in the encoding of the child codec. *)
Inductive collection_wire (child : DecodeEncoder)
    : list byte -> list value -> Prop :=
| wire_no_dimension (wdim tail : list byte) :
    length wdim = 4%nat ->
    be_value wdim = 0 ->
    collection_wire child (wdim ++ tail) []
| wire_one_dimension (wdim r1 r2 wupper wlower elems tail : list byte)
    (xs : list value) :
    length wdim = 4%nat ->
    be_value wdim <> 0 ->
    length r1 = 4%nat ->
    length r2 = 4%nat ->
    length wupper = 4%nat ->
    length wlower = 4%nat ->
    Z.of_nat (length xs)
      = to_int32 (to_int32 (be_value wupper) - to_int32 (be_value wlower) + 1) ->
    decodes_seq child elems xs tail ->
    collection_wire child (wdim ++ r1 ++ r2 ++ wupper ++ wlower ++ elems) xs.

(** Reading a Set result as an Array result and back: the same elements and
    the same remaining buffer under the other collection type. *)
Definition as_Array (r : result (value * list byte)) : result (value * list byte) :=
  match r with
  | Ok (VSet xs, rest) => Ok (VArray xs, rest)
  | other => other
  end.

Definition as_Set (r : result (value * list byte)) : result (value * list byte) :=
  match r with
  | Ok (VArray xs, rest) => Ok (VSet xs, rest)
  | other => other
  end.

(** [assign_all kvs m]: the Go map [m] after the assignments [m[k] = v]
    for the pairs of [kvs], first to last; a later assignment to a key
    replaces an earlier one. *)
Definition assign_all (kvs : list (string * value)) (m : gmap string value)
    : gmap string value :=
  foldl (fun m kv => <[kv.1 := kv.2]> m) m kvs.

(** The layout of the fields of an Object value after the field count, in
    the words of the wire format: for each declared field in order one
    reserved word, and then either the signed 32-bit length -1, four bytes
    that stand for an absent field, recorded as the empty set, or the field
    in the encoding of its codec.  [object_wire fields buf kvs buf']
    lists the field names with the values recorded for them. *)
Inductive object_wire
    : list objectField -> list byte -> list (string * value) -> list byte -> Prop :=
| object_wire_nil (buf : list byte) : object_wire [] buf [] buf
| object_wire_missing (field : objectField) (fields : list objectField)
    (reserved wlen buf buf' : list byte) (kvs : list (string * value)) :
    length reserved = 4%nat ->
    length wlen = 4%nat ->
    to_int32 (be_value wlen) = -1 ->
    object_wire fields buf kvs buf' ->
    object_wire (field :: fields) (reserved ++ wlen ++ buf)
      ((name field, VSet []) :: kvs) buf'
| object_wire_present (field : objectField) (fields : list objectField)
    (reserved wlen body buf1 buf' : list byte) (x : value)
    (kvs : list (string * value)) :
    length reserved = 4%nat ->
    length wlen = 4%nat ->
    to_int32 (be_value wlen) <> -1 ->
    Decode (codec field) (wlen ++ body) = Ok (x, buf1) ->
    object_wire fields buf1 kvs buf' ->
    object_wire (field :: fields) (reserved ++ wlen ++ body)
      ((name field, x) :: kvs) buf'.

(** [appends c x e]: the codec [c] encodes [x] by appending the bytes [e]
    to the buffer it is given. *)
Definition appends (c : DecodeEncoder) (x : value) (e : list byte) : Prop :=
  forall tmp, Encode c tmp x = Ok (tmp ++ e).

(** [rejects_nil c]: the encoder of [c] panics when it is handed nil. *)
Definition rejects_nil (c : DecodeEncoder) : Prop :=
  forall tmp, is_Panic (Encode c tmp VNil).

(** [parsed n st bts st' bts']: [n] turns of the loop of [Pop], each
    ending normally, lead from the lookup and codec list [st] and the
    buffer [bts] to [st'] and [bts']. *)
Inductive parsed `{JSONLib}
    : nat -> CodecLookup * list DecodeEncoder -> list byte ->
      CodecLookup * list DecodeEncoder -> list byte -> Prop :=
| parsed_O st bts : parsed 0 st bts st bts
| parsed_S n st bts st1 bts1 st2 bts2 :
    Pop_step st bts = Ok (st1, bts1) ->
    parsed n st1 bts1 st2 bts2 ->
    parsed (S n) st bts st2 bts2.

(** The tags that [Pop] dispatches on. *)
Definition recognized_tags : list Z :=
  [setType; objectType; baseScalarType; tupleType; namedTupleType; arrayType].

(** What precedes the codec index in one entry of the field list of a
    descriptor: nothing in a Tuple, the length-prefixed name in a
    NamedTuple, the flag byte and the length-prefixed name in an Object. *)
Inductive entry_head : Z -> list byte -> Prop :=
| head_Tuple : entry_head tupleType []
| head_NamedTuple (wlen name : list byte) :
    length wlen = 4%nat ->
    be_value wlen = Z.of_nat (length name) ->
    entry_head namedTupleType (wlen ++ name)
| head_Object (flags : byte) (wlen name : list byte) :
    length wlen = 4%nat ->
    be_value wlen = Z.of_nat (length name) ->
    entry_head objectType (flags :: wlen ++ name).

(** [backward_entries tag n k bts]: [bts] holds [k] entries of a field list,
    each with a codec index below [n]. *)
Inductive backward_entries (tag : Z) (n : nat) : nat -> list byte -> Prop :=
| entries_nil : backward_entries tag n 0 []
| entries_cons (k : nat) (head widx more : list byte) :
    entry_head tag head ->
    length widx = 2%nat ->
    be_value widx < Z.of_nat n ->
    backward_entries tag n k more ->
    backward_entries tag n (S k) (head ++ widx ++ more).

(** [forward_reference n tag bts index]: [bts] starts with the payload of a
    composite descriptor with tag [tag] which, at position [n] of the
    stream, refers to the codec index [index], not below [n]: the child
    index of a Set or of an Array, or the index of some entry of the field
    list of a Tuple, NamedTuple or Object, the entries before it referring
    backward. *)
Inductive forward_reference (n : nat) : Z -> list byte -> Z -> Prop :=
| forward_Set (widx rest : list byte) :
    length widx = 2%nat ->
    Z.of_nat n <= be_value widx ->
    forward_reference n setType (widx ++ rest) (be_value widx)
| forward_Array (widx wdims dims rest : list byte) :
    length widx = 2%nat ->
    length wdims = 2%nat ->
    Z.of_nat (length dims) = 4 * be_value wdims ->
    Z.of_nat n <= be_value widx ->
    forward_reference n arrayType (widx ++ wdims ++ dims ++ rest)
      (be_value widx)
| forward_entry (tag : Z) (k : nat)
    (wcount earlier head widx rest : list byte) :
    length wcount = 2%nat ->
    backward_entries tag n k earlier ->
    Z.of_nat k < be_value wcount ->
    entry_head tag head ->
    length widx = 2%nat ->
    Z.of_nat n <= be_value widx ->
    forward_reference n tag (wcount ++ earlier ++ head ++ widx ++ rest)
      (be_value widx).

(** ** Optional values (internal/edgedbtypes) *)

(** A Go [[]byte] that may be nil: [None] is the nil slice, [Some b] a slice
    with the bytes [b] (possibly none). *)
Abbreviation go_bytes := (option (list byte)).

(** [OptionalBool], bool.go.  The methods take the receiver and give back
    its new state. *)
Module OptionalBool.

Record t : Type := mk { val : bool; present : bool }.

(** The zero value of the struct. *)
Definition zero : t := mk false false.

Definition Get (o : t) : bool * bool := (val o, present o).

Definition Set_ (o : t) (v : bool) : t :=
  let o := mk v (present o) in
  mk (val o) true.

Definition Unset (o : t) : t :=
  let o := mk false (present o) in
  mk (val o) false.

(** A call of one of the two mutating methods. *)
Inductive call : Type :=
| CallSet (v : bool)
| CallUnset.

Definition apply (o : t) (c : call) : t :=
  match c with
  | CallSet v => Set_ o v
  | CallUnset => Unset o
  end.

End OptionalBool.

(** [OptionalBytes], bytes.go. *)
Module OptionalBytes.

Record t : Type := mk { val : go_bytes; isSet : bool }.

Definition zero : t := mk None false.

Definition Get (o : t) : go_bytes * bool := (val o, isSet o).

Definition Unset (o : t) : t :=
  let o := mk None (isSet o) in
  mk (val o) false.

Definition Set_ (o : t) (v : go_bytes) : t :=
  match v with
  | None => Unset o
  | Some _ =>
      let o := mk v (isSet o) in
      mk (val o) true
  end.

Inductive call : Type :=
| CallSet (v : go_bytes)
| CallUnset.

Definition apply (o : t) (c : call) : t :=
  match c with
  | CallSet v => Set_ o v
  | CallUnset => Unset o
  end.

End OptionalBytes.

(** ** Notions used to state the further properties *)

(** The scalar codecs whose payload has a fixed width, with that width in
    bytes. *)
Definition fixed_width_codecs : list (DecodeEncoder * nat) :=
  [(UUID, 16%nat); (Int16, 2%nat); (Int32, 4%nat); (Int64, 8%nat);
   (Float32, 4%nat); (Float64, 8%nat)].

(** [wire_of c x e]: the bytes [e] are the encoding of [x] by the codec
    [c], appended by its encoder and read back by its decoder. *)
Definition wire_of (c : DecodeEncoder) (x : value) (e : list byte) : Prop :=
  appends c x e /\ forall rest, Decode c (e ++ rest) = Ok (x, rest).

(** The payload of a Tuple or NamedTuple value with the element encodings
    [encs]: the element count, and a reserved word before each element. *)
Definition tuple_payload (encs : list (list byte)) : list byte :=
  be_bytes 4 (Z.of_nat (length encs))
  ++ concat ((fun e => be_bytes 4 0 ++ e) <$> encs).

(** A payload [p] in its envelope. *)
Definition envelope (p : list byte) : list byte :=
  be_bytes 4 (Z.of_nat (length p)) ++ p.

(** The decoders of the five composite codecs. *)
Inductive composite_decoder
    : (list byte -> result (value * list byte)) -> Prop :=
| composite_Set child : composite_decoder (Set_Decode child)
| composite_Object fields : composite_decoder (Object_Decode fields)
| composite_Tuple fields : composite_decoder (Tuple_Decode fields)
| composite_NamedTuple fields : composite_decoder (NamedTuple_Decode fields)
| composite_Array child : composite_decoder (Array_Decode child).

(** The codecs that the constructors of the parser make. *)
Inductive built_codec `{JSONLib} : DecodeEncoder -> Prop :=
| built_UUID : built_codec UUID
| built_String : built_codec String
| built_Bytes : built_codec Bytes
| built_Int16 : built_codec Int16
| built_Int32 : built_codec Int32
| built_Int64 : built_codec Int64
| built_Float32 : built_codec Float32
| built_Float64 : built_codec Float64
| built_Bool : built_codec Bool
| built_DateTime : built_codec DateTime
| built_Duration : built_codec Duration
| built_JSON : built_codec JSON
| built_Set child : built_codec (SetCodec child)
| built_Object fields : built_codec (ObjectCodec fields)
| built_Tuple fields : built_codec (TupleCodec fields)
| built_NamedTuple fields : built_codec (NamedTupleCodec fields)
| built_Array child : built_codec (ArrayCodec child).

(** A decoder that returns has read a front part of the buffer and gives
    back the part behind it. *)
Definition consumes_prefix (c : DecodeEncoder) : Prop :=
  forall bts v rest,
    Decode c bts = Ok (v, rest) -> exists used, bts = used ++ rest.

(** An encoder that returns has left the buffer it was given in place and
    written behind it. *)
Definition appends_only (c : DecodeEncoder) : Prop :=
  forall bts v out,
    Encode c bts v = Ok out -> exists e, out = bts ++ e.

(** The ids of the base scalars that have a codec, and of those that the
    parser names as not implemented. *)
Definition implemented_kinds : list byte :=
  [x00; x01; x02; x03; x04; x05; x06; x07; x09; x0a; x0e; x0f].
Definition unimplemented_kinds : list byte := [x08; x0b; x0c; x0d; x10].

(** The payload of a Tuple descriptor that refers to the codec indices
    [idxs]: the 16-bit field count and the 16-bit indices. *)
Definition tuple_descriptor (idxs : list Z) : list byte :=
  be_bytes 2 (Z.of_nat (length idxs)) ++ concat (be_bytes 2 <$> idxs).

(** One entry of the field list of a NamedTuple descriptor: the
    length-prefixed name and the 16-bit codec index. *)
Definition named_entry (e : string * Z) : list byte :=
  be_bytes 4 (Z.of_nat (length (list_byte_of_string e.1)))
  ++ list_byte_of_string e.1 ++ be_bytes 2 e.2.

Definition namedTuple_descriptor (entries : list (string * Z)) : list byte :=
  be_bytes 2 (Z.of_nat (length entries)) ++ concat (named_entry <$> entries).

(** One entry of the field list of an Object descriptor: the flag byte,
    the length-prefixed name and the 16-bit codec index. *)
Definition object_entry (e : byte * string * Z) : list byte :=
  e.1.1 :: named_entry (e.1.2, e.2).

Definition object_descriptor (entries : list (byte * string * Z)) : list byte :=
  be_bytes 2 (Z.of_nat (length entries)) ++ concat (object_entry <$> entries).

(** [refers codecs i c]: the 16-bit index [i] refers to the codec [c] of
    the list. *)
Definition refers (codecs : list DecodeEncoder) (i : Z) (c : DecodeEncoder)
    : Prop :=
  0 <= i < 2 ^ 16 /\ codecs !! Z.to_nat i = Some c.

(** * Properties *)

(** ** Proof steps *)

(** Steps over a call that returned normally. *)
Ltac bind_ok := cbn [mbind result_bind].

Ltac push_assoc :=
  unfold PushString, PushBytes, PushUint64, PushUint32, PushUint16, PushUint8;
  rewrite <- ?app_assoc.

(** Splits a hypothesis stating that a sequence of calls returned normally
    at its first call. *)
Ltac inv_bind H :=
  match type of H with
  | mbind _ ?r = Ok _ =>
      let E := fresh "E" in
      let a := fresh "a" in
      destruct r as [a|?] eqn:E; cbn [mbind result_bind] in H;
      [try destruct a as [? ?] | discriminate H]
  end.

Ltac tag_tests :=
  unfold setType, objectType, baseScalarType, tupleType, namedTupleType,
    arrayType;
  cbn [Z.eqb Pos.eqb].


(** ** Bytes and big-endian integers *)

Lemma byte_to_Z_range (b : byte) : 0 <= byte_to_Z b < 256.
Proof.
  unfold byte_to_Z. pose proof (Byte.to_N_bounded b). lia.
Qed.

Lemma byte_to_of_Z (z : Z) : byte_to_Z (byte_of_Z z) = z mod 256.
Proof.
  unfold byte_to_Z, byte_of_Z.
  assert (Hr : 0 <= z mod 256 < 256) by (apply Z.mod_pos_bound; lia).
  destruct (Byte.of_N (Z.to_N (z mod 256))) as [b|] eqn:E; simpl.
  - apply Byte.to_of_N in E. rewrite E. lia.
  - apply Byte.of_N_None_iff in E. lia.
Qed.

Lemma byte_of_to_Z (b : byte) : byte_of_Z (byte_to_Z b) = b.
Proof.
  unfold byte_of_Z. rewrite Z.mod_small by apply byte_to_Z_range.
  unfold byte_to_Z. rewrite N2Z.id, Byte.of_to_N. reflexivity.
Qed.

Lemma length_be_bytes (n : nat) (v : Z) : length (be_bytes n v) = n.
Proof. induction n; simpl; congruence. Qed.

Lemma be_value_acc (l : list byte) (acc : Z) :
  fold_left (fun a b => a * 256 + byte_to_Z b) l acc
  = acc * 256 ^ Z.of_nat (length l) + be_value l.
Proof.
  unfold be_value. revert acc.
  induction l as [|b l IH]; intros acc.
  - simpl. lia.
  - cbn [fold_left length]. rewrite IH, (IH (0 * 256 + byte_to_Z b)).
    rewrite Nat2Z.inj_succ, Z.pow_succ_r by lia. ring.
Qed.

Lemma be_value_cons (b : byte) (l : list byte) :
  be_value (b :: l) = byte_to_Z b * 256 ^ Z.of_nat (length l) + be_value l.
Proof.
  unfold be_value at 1. cbn [fold_left]. rewrite be_value_acc. ring.
Qed.

Lemma be_value_range (l : list byte) :
  0 <= be_value l < 256 ^ Z.of_nat (length l).
Proof.
  induction l as [|b l IH].
  - cbn. lia.
  - rewrite be_value_cons. cbn [length].
    rewrite Nat2Z.inj_succ, Z.pow_succ_r by lia.
    pose proof (byte_to_Z_range b). nia.
Qed.

(** Reading back the bytes of an integer gives its low [n] bytes. *)
Lemma be_value_bytes (n : nat) (v : Z) :
  be_value (be_bytes n v) = v mod 256 ^ Z.of_nat n.
Proof.
  induction n as [|n IH].
  - cbn. now rewrite Z.mod_1_r.
  - cbn [be_bytes]. rewrite be_value_cons, length_be_bytes, IH, byte_to_of_Z.
    rewrite Nat2Z.inj_succ, Z.pow_succ_r by lia.
    rewrite (Z.mul_comm 256), Z.rem_mul_r by lia. ring.
Qed.

Lemma popN_app (l rest : list byte) :
  popN (length l) (l ++ rest) = Ok (l, rest).
Proof.
  unfold popN. rewrite length_app.
  destruct (decide _) as [_|Hn]; [|lia].
  now rewrite take_app_length, drop_app_length.
Qed.

Lemma popUint_be (n : nat) (v : Z) (rest : list byte) :
  0 <= v < 256 ^ Z.of_nat n ->
  popUint n (be_bytes n v ++ rest) = Ok (v, rest).
Proof.
  intros Hv. unfold popUint.
  rewrite <- (length_be_bytes n v) at 1. rewrite popN_app. cbn.
  now rewrite be_value_bytes, Z.mod_small.
Qed.

Lemma PopUint16_Push (v : Z) (rest : list byte) :
  in_unsigned 16 v -> PopUint16 (be_bytes 2 v ++ rest) = Ok (v, rest).
Proof. intros Hv. apply popUint_be. exact Hv. Qed.

Lemma PopUint32_Push (v : Z) (rest : list byte) :
  in_unsigned 32 v -> PopUint32 (be_bytes 4 v ++ rest) = Ok (v, rest).
Proof. intros Hv. apply popUint_be. exact Hv. Qed.

Lemma PopUint64_Push (v : Z) (rest : list byte) :
  in_unsigned 64 v -> PopUint64 (be_bytes 8 v ++ rest) = Ok (v, rest).
Proof. intros Hv. apply popUint_be. exact Hv. Qed.

Lemma PopBytes_Push (data rest : list byte) :
  Z.of_nat (length data) < 2 ^ 32 ->
  PopBytes (be_bytes 4 (to_uint32 (Z.of_nat (length data))) ++ data ++ rest)
  = Ok (data, rest).
Proof.
  intros Hlen. unfold PopBytes, to_uint32, wrap_unsigned.
  rewrite Z.mod_small by lia.
  rewrite PopUint32_Push by (unfold in_unsigned; lia). cbn.
  rewrite Nat2Z.id. apply popN_app.
Qed.

(** Signed and unsigned views of one machine word. *)
Lemma wrap_signed_unsigned (bits : Z) (z : Z) :
  0 < bits -> in_signed bits z ->
  wrap_signed bits (wrap_unsigned bits z) = z.
Proof.
  intros Hb [Hlo Hhi]. unfold wrap_signed, wrap_unsigned.
  rewrite Z.mod_mod by (apply Z.pow_nonzero; lia).
  assert (E : 2 ^ bits = 2 * 2 ^ (bits - 1)).
  { rewrite <- Z.pow_succ_r by lia. f_equal. lia. }
  destruct (Z.ltb_spec (z mod 2 ^ bits) (2 ^ (bits - 1))) as [Hlt|Hge].
  - destruct (Z.neg_nonneg_cases z) as [Hneg|Hpos].
    + rewrite <- (Z.mod_add z 1), Z.mod_small in Hlt by lia. lia.
    + apply Z.mod_small. lia.
  - destruct (Z.neg_nonneg_cases z) as [Hneg|Hpos].
    + rewrite <- (Z.mod_add z 1), Z.mod_small by lia. lia.
    + rewrite Z.mod_small in Hge by lia. lia.
Qed.

Lemma wrap_unsigned_range (bits : Z) (z : Z) :
  0 <= bits -> in_unsigned bits (wrap_unsigned bits z).
Proof.
  intros Hb. apply Z.mod_pos_bound. apply Z.pow_pos_nonneg; lia.
Qed.

Lemma wrap_signed_small (bits : Z) (z : Z) :
  0 < bits -> in_signed bits z -> wrap_signed bits z = z.
Proof.
  intros Hb Hz. rewrite <- (wrap_signed_unsigned bits z Hb Hz) at 2.
  unfold wrap_signed, wrap_unsigned.
  now rewrite Z.mod_mod by (apply Z.pow_nonzero; lia).
Qed.

(** ** Reading from a buffer of known layout *)

Lemma PopUint32_app (w rest : list byte) :
  length w = 4%nat -> PopUint32 (w ++ rest) = Ok (be_value w, rest).
Proof.
  intros Hw. unfold PopUint32, popUint. rewrite <- Hw, popN_app. reflexivity.
Qed.

Lemma PopUint16_app (w rest : list byte) :
  length w = 2%nat -> PopUint16 (w ++ rest) = Ok (be_value w, rest).
Proof.
  intros Hw. unfold PopUint16, popUint. rewrite <- Hw, popN_app. reflexivity.
Qed.

Lemma PopUint32_const (v : Z) (rest : list byte) :
  0 <= v < 2 ^ 32 -> PopUint32 (be_bytes 4 v ++ rest) = Ok (v, rest).
Proof. intros Hv. now apply PopUint32_Push. Qed.

Lemma PopBytes_app (wlen payload rest : list byte) :
  length wlen = 4%nat ->
  be_value wlen = Z.of_nat (length payload) ->
  PopBytes (wlen ++ payload ++ rest) = Ok (payload, rest).
Proof.
  intros Hw Hlen. unfold PopBytes.
  rewrite PopUint32_app by assumption. bind_ok.
  rewrite Hlen, Nat2Z.id. apply popN_app.
Qed.

Lemma PeekUint32_app (w rest : list byte) :
  length w = 4%nat -> PeekUint32 (w ++ rest) = Ok (be_value w).
Proof.
  intros Hw. unfold PeekUint32. now rewrite PopUint32_app.
Qed.

Lemma PopString_app (wlen name rest : list byte) :
  length wlen = 4%nat ->
  be_value wlen = Z.of_nat (length name) ->
  PopString (wlen ++ name ++ rest) = Ok (string_of_list_byte name, rest).
Proof.
  intros Hw Hlen. unfold PopString. now rewrite PopBytes_app.
Qed.

Lemma be_value_nonneg (w : list byte) : 0 <= be_value w.
Proof. apply be_value_range. Qed.

Lemma go_index_middle {A} (pre suf : list A) (x : A) :
  go_index (pre ++ x :: suf) (Z.of_nat (length pre)) = Ok x.
Proof.
  unfold go_index. rewrite Nat2Z.id, list_lookup_middle by reflexivity.
  reflexivity.
Qed.

Lemma go_index_below {A} (l : list A) (i : Z) :
  0 <= i < Z.of_nat (length l) -> exists x, go_index l i = Ok x.
Proof.
  intros Hi. unfold go_index.
  destruct (lookup_lt_is_Some_2 l (Z.to_nat i)) as [x Hx]; [lia|].
  exists x. now rewrite Hx.
Qed.

Lemma go_index_beyond {A} (l : list A) (i : Z) :
  Z.of_nat (length l) <= i ->
  go_index l i = Panic (IndexOutOfRange i (length l)).
Proof.
  intros Hi. unfold go_index. rewrite lookup_ge_None_2 by lia. reflexivity.
Qed.

Lemma for_range_invariant {S : Type} (P : S -> Prop)
    (body : nat -> S -> result S) :
  (forall i s s', P s -> body i s = Ok s' -> P s') ->
  forall n start s s',
    P s -> for_range start n body s = Ok s' -> P s'.
Proof.
  intros Hbody. induction n as [|n IH]; intros start s s' Hs Hrun.
  - cbn in Hrun. now inversion Hrun; subst.
  - cbn [for_range] in Hrun.
    destruct (body start s) as [s1|p] eqn:Hb; cbn in Hrun; [|discriminate].
    eapply IH; [|exact Hrun]. eapply Hbody; eassumption.
Qed.

Lemma for_range_app {S : Type} (body : nat -> S -> result S) (a b : nat) :
  forall start s,
    for_range start (a + b) body s
    = s' ← for_range start a body s; for_range (start + a) b body s'.
Proof.
  induction a as [|a IH]; intros start s.
  - cbn. now rewrite Nat.add_0_r.
  - cbn [Nat.add for_range]. destruct (body start s) as [s1|p]; bind_ok.
    + rewrite IH. now rewrite Nat.add_succ_r.
    + reflexivity.
Qed.

(** Splits the field loop of a descriptor after its first [k] turns. *)
Ltac split_count wcount k :=
  replace (Z.to_nat (be_value wcount))
    with (k + S (Z.to_nat (be_value wcount) - k - 1))%nat by lia;
  rewrite for_range_app.

(** ** Scalar codecs: the trip over the wire *)

Lemma to_int64_add_l (a b : Z) : to_int64 (to_int64 a + b) = to_int64 (a + b).
Proof.
  unfold to_int64, wrap_signed.
  assert (E : (to_int64 a + b) mod 2 ^ 64 = (a + b) mod 2 ^ 64).
  { unfold to_int64, wrap_signed.
    destruct (a mod 2 ^ 64 <? 2 ^ (64 - 1)).
    - now rewrite Zplus_mod_idemp_l.
    - replace (a mod 2 ^ 64 - 2 ^ 64 + b)
        with (a mod 2 ^ 64 + b + (-1) * 2 ^ 64) by ring.
      now rewrite Z.mod_add, Zplus_mod_idemp_l by lia. }
  unfold to_int64, wrap_signed in E. now rewrite E.
Qed.

Lemma signed_unsigned_64 (z : Z) :
  in_signed 64 z -> to_int64 (to_uint64 z) = z.
Proof. apply wrap_signed_unsigned. lia. Qed.

Lemma to_int64_small (z : Z) : in_signed 64 z -> to_int64 z = z.
Proof. apply wrap_signed_small. lia. Qed.

Lemma UUID_roundtrip (id : list byte) :
  length id = 16%nat -> roundtrips UUID (VUUID id).
Proof.
  intros Hid. exists (be_bytes 4 16 ++ id). split.
  - intros bts. cbn. push_assoc. reflexivity.
  - intros rest. rewrite <- app_assoc. cbn [Decode UUID]; unfold UUID_Decode.
    rewrite PopUint32_const by lia. bind_ok.
    unfold PopUUID. rewrite <- Hid, popN_app. reflexivity.
Qed.

Lemma Bytes_roundtrip (b : list byte) :
  Z.of_nat (length b) < 2 ^ 32 -> roundtrips Bytes (VBytes b).
Proof.
  intros Hb. exists (be_bytes 4 (to_uint32 (Z.of_nat (length b))) ++ b). split.
  - intros bts. cbn. push_assoc. reflexivity.
  - intros rest. rewrite <- app_assoc. cbn [Decode Bytes]; unfold Bytes_Decode.
    now rewrite PopBytes_Push.
Qed.

Lemma String_roundtrip (s : string) :
  Z.of_nat (length (list_byte_of_string s)) < 2 ^ 32 ->
  roundtrips String (VString s).
Proof.
  intros Hs.
  exists (be_bytes 4 (to_uint32 (Z.of_nat (length (list_byte_of_string s))))
          ++ list_byte_of_string s). split.
  - intros bts. cbn. push_assoc. reflexivity.
  - intros rest. rewrite <- app_assoc. cbn [Decode String]; unfold String_Decode, PopString.
    rewrite PopBytes_Push by assumption. bind_ok.
    now rewrite string_of_list_byte_of_string.
Qed.

Lemma Int16_roundtrip (n : Z) : in_signed 16 n -> roundtrips Int16 (VInt16 n).
Proof.
  intros Hn. exists (be_bytes 4 2 ++ be_bytes 2 (to_uint16 n)). split.
  - intros bts. cbn. push_assoc. reflexivity.
  - intros rest. rewrite <- app_assoc. cbn [Decode Int16]; unfold Int16_Decode.
    rewrite PopUint32_const by lia. bind_ok.
    rewrite PopUint16_Push by (apply wrap_unsigned_range; lia). bind_ok.
    unfold to_int16, to_uint16. now rewrite wrap_signed_unsigned by (lia || assumption).
Qed.

Lemma Int32_roundtrip (n : Z) : in_signed 32 n -> roundtrips Int32 (VInt32 n).
Proof.
  intros Hn. exists (be_bytes 4 4 ++ be_bytes 4 (to_uint32 n)). split.
  - intros bts. cbn. push_assoc. reflexivity.
  - intros rest. rewrite <- app_assoc. cbn [Decode Int32]; unfold Int32_Decode.
    rewrite PopUint32_const by lia. bind_ok.
    rewrite PopUint32_Push by (apply wrap_unsigned_range; lia). bind_ok.
    unfold to_int32, to_uint32. now rewrite wrap_signed_unsigned by (lia || assumption).
Qed.

Lemma Int64_roundtrip (n : Z) : in_signed 64 n -> roundtrips Int64 (VInt64 n).
Proof.
  intros Hn. exists (be_bytes 4 8 ++ be_bytes 8 (to_uint64 n)). split.
  - intros bts. cbn. push_assoc. reflexivity.
  - intros rest. rewrite <- app_assoc. cbn [Decode Int64]; unfold Int64_Decode.
    rewrite PopUint32_const by lia. bind_ok.
    rewrite PopUint64_Push by (apply wrap_unsigned_range; lia). bind_ok.
    now rewrite signed_unsigned_64.
Qed.

Lemma Float32_roundtrip (f : float32) :
  in_unsigned 32 (Float32bits f) -> roundtrips Float32 (VFloat32 f).
Proof.
  intros Hf. exists (be_bytes 4 4 ++ be_bytes 4 (Float32bits f)). split.
  - intros bts. cbn. push_assoc. reflexivity.
  - intros rest. rewrite <- app_assoc. cbn [Decode Float32]; unfold Float32_Decode.
    rewrite PopUint32_const by lia. bind_ok.
    rewrite PopUint32_Push by assumption. bind_ok. now destruct f.
Qed.

Lemma Float64_roundtrip (f : float64) :
  in_unsigned 64 (Float64bits f) -> roundtrips Float64 (VFloat64 f).
Proof.
  intros Hf. exists (be_bytes 4 8 ++ be_bytes 8 (Float64bits f)). split.
  - intros bts. cbn. push_assoc. reflexivity.
  - intros rest. rewrite <- app_assoc. cbn [Decode Float64]; unfold Float64_Decode.
    rewrite PopUint32_const by lia. bind_ok.
    rewrite PopUint64_Push by assumption. bind_ok. now destruct f.
Qed.

Lemma Bool_roundtrip (b : bool) : roundtrips Bool (VBool b).
Proof.
  exists (be_bytes 4 1 ++ be_bytes 1 (if b then 1 else 0)). split.
  - intros bts. cbn. push_assoc. reflexivity.
  - intros rest. destruct b; reflexivity.
Qed.

(** A duration comes back cut down to whole microseconds. *)
Lemma Duration_truncates (duration : Z) :
  in_signed 64 duration ->
  exists out : list byte,
    (forall bts, Encode Duration bts (VDuration duration) = Ok (bts ++ out)) /\
    (forall rest,
       Decode Duration (out ++ rest)
       = Ok (VDuration (1000 * (duration ÷ 1000)), rest)).
Proof.
  intros Hd.
  pose proof (Z.quot_rem' duration 1000) as Hqr.
  pose proof (Z.rem_bound_abs duration 1000 ltac:(lia)) as Habs.
  assert (Hm : in_signed 64 (duration ÷ 1000) /\
               in_signed 64 (duration ÷ 1000 * 1000)).
  { unfold in_signed in *.
    destruct (Z.neg_nonneg_cases duration) as [Hneg|Hpos].
    - pose proof (Z.rem_nonpos duration 1000 ltac:(lia) ltac:(lia)). lia.
    - pose proof (Z.rem_nonneg duration 1000 ltac:(lia) Hpos). lia. }
  destruct Hm as [Hm1 Hm2].
  exists (be_bytes 4 16 ++ be_bytes 8 (to_uint64 (duration ÷ 1000))
          ++ be_bytes 4 0 ++ be_bytes 4 0). split.
  - intros bts. cbn [Encode Duration]. unfold Duration_Encode.
    push_assoc. reflexivity.
  - intros rest. rewrite <- !app_assoc.
    cbn [Decode Duration]; unfold Duration_Decode.
    rewrite PopUint32_const by lia. bind_ok.
    rewrite PopUint64_Push by (apply wrap_unsigned_range; lia). bind_ok.
    rewrite !PopUint32_const by lia. bind_ok.
    rewrite signed_unsigned_64 by assumption.
    rewrite to_int64_small by assumption.
    now rewrite (Z.mul_comm 1000).
Qed.

Lemma Duration_roundtrip (micro : Z) :
  in_signed 64 (1000 * micro) -> roundtrips Duration (VDuration (1000 * micro)).
Proof.
  intros Hd. destruct (Duration_truncates (1000 * micro) Hd) as (out & He & Hdec).
  exists out. split; [exact He|]. intros rest. rewrite Hdec.
  replace ((1000 * micro) ÷ 1000) with micro; [reflexivity|].
  rewrite Z.mul_comm. symmetry. apply Z.quot_mul. lia.
Qed.

Lemma time_Unix_normal (sec nsec : Z) :
  0 <= nsec < 1000000000 -> time_Unix sec nsec = mkTime sec nsec.
Proof.
  intros Hn. unfold time_Unix.
  destruct (Z.ltb_spec nsec 0); [lia|].
  destruct (Z.leb_spec 1000000000 nsec); [lia|]. reflexivity.
Qed.

(** A negative nanosecond count above minus one second borrows one second. *)
Lemma time_Unix_borrow (sec nsec : Z) :
  in_signed 64 sec -> in_signed 64 (sec - 1) ->
  - 1000000000 < nsec < 0 ->
  time_Unix sec nsec = mkTime (sec - 1) (nsec + 1000000000).
Proof.
  intros Hs Hs1 Hn. unfold time_Unix.
  destruct (Z.ltb_spec nsec 0); [|lia]. cbn [orb].
  assert (Hq : nsec ÷ 1000000000 = 0).
  { rewrite <- (Z.opp_involutive nsec), Z.quot_opp_l by lia.
    rewrite Z.quot_small by lia. reflexivity. }
  rewrite Hq, Z.add_0_r, Z.mul_0_l, Z.sub_0_r.
  rewrite (to_int64_small nsec) by (unfold in_signed; lia).
  destruct (Z.ltb_spec nsec 0); [|lia].
  now rewrite (to_int64_small sec), (to_int64_small (sec - 1)).
Qed.

Lemma DateTime_roundtrip (sec micro : Z) :
  0 <= micro < 1000000 ->
  in_signed 64 ((sec - 946684800) * 1000000 + micro) ->
  roundtrips DateTime (VTime (mkTime sec (1000 * micro))).
Proof.
  intros Hmicro Hx.
  set (x := (sec - 946684800) * 1000000 + micro) in *.
  assert (Hsec : - 2 ^ 62 < sec < 2 ^ 62) by (unfold in_signed, x in Hx; lia).
  assert (Henc : forall bts,
    DateTime_Encode bts (VTime (mkTime sec (1000 * micro)))
    = Ok (bts ++ be_bytes 4 8 ++ be_bytes 8 (to_uint64 x))).
  { intros bts. unfold DateTime_Encode, Time_Unix. cbn [unixSec].
    rewrite time_Unix_normal by lia.
    unfold Time_Sub. cbn [unixSec nsec].
    replace ((sec - sec) * 1000000000 + (1000 * micro - 0))
      with (1000 * micro) by ring.
    destruct (Z.ltb_spec (1000 * micro) min_int64);
      [unfold min_int64 in *; lia|].
    destruct (Z.ltb_spec max_int64 (1000 * micro));
      [unfold max_int64 in *; lia|].
    rewrite (Z.mul_comm 1000 micro), Z.quot_mul by lia.
    rewrite (to_int64_small (sec - 946684800)) by (unfold in_signed; lia).
    rewrite to_int64_add_l. fold x. rewrite (to_int64_small x) by assumption.
    push_assoc. reflexivity. }
  exists (be_bytes 4 8 ++ be_bytes 8 (to_uint64 x)). split; [exact Henc|].
  intros rest. rewrite <- app_assoc.
  cbn [Decode DateTime]; unfold DateTime_Decode.
  rewrite PopUint32_const by lia. bind_ok.
  rewrite PopUint64_Push by (apply wrap_unsigned_range; lia). bind_ok.
  rewrite signed_unsigned_64 by assumption. unfold Time_UTC.
  pose proof (Z.quot_rem' x 1000000) as Hqr.
  pose proof (Z.rem_bound_abs x 1000000 ltac:(lia)) as Habs.
  destruct (Z.neg_nonneg_cases x) as [Hneg|Hpos].
  - pose proof (Z.rem_nonpos x 1000000 ltac:(lia) ltac:(lia)) as Hsign.
    destruct (Z.eq_dec micro 0) as [->|Hnz].
    + assert (Hq : x ÷ 1000000 = sec - 946684800) by (unfold x in *; lia).
      assert (Hr : Z.rem x 1000000 = 0) by (unfold x in *; lia).
      rewrite Hq, Hr.
      rewrite !to_int64_small by (unfold in_signed; lia).
      rewrite time_Unix_normal by lia.
      repeat f_equal; lia.
    + assert (Hq : x ÷ 1000000 = sec - 946684800 + 1) by (unfold x in *; lia).
      assert (Hr : Z.rem x 1000000 = micro - 1000000) by (unfold x in *; lia).
      rewrite Hq, Hr.
      rewrite !to_int64_small by (unfold in_signed; lia).
      rewrite time_Unix_borrow by (unfold in_signed; lia).
      repeat f_equal; lia.
  - pose proof (Z.rem_nonneg x 1000000 ltac:(lia) Hpos) as Hsign.
    assert (Hq : x ÷ 1000000 = sec - 946684800) by (unfold x in *; lia).
    assert (Hr : Z.rem x 1000000 = micro) by (unfold x in *; lia).
    rewrite Hq, Hr.
    rewrite !to_int64_small by (unfold in_signed; lia).
    rewrite time_Unix_normal by lia.
    repeat f_equal; lia.
Qed.

Lemma JSON_roundtrip `{JSONLib} (v : value) (text : list byte) :
  json_Marshal v = Ok text ->
  json_Unmarshal text = Ok v ->
  1 + Z.of_nat (length text) < 2 ^ 32 ->
  roundtrips JSON v.
Proof.
  intros Hm Hu Hlen.
  exists (be_bytes 4 (1 + Z.of_nat (length text)) ++ be_bytes 1 1 ++ text). split.
  - intros bts. cbn [Encode JSON]. unfold JSON_Encode. rewrite Hm. bind_ok.
    unfold to_uint32, wrap_unsigned. rewrite Z.mod_small by lia.
    push_assoc. reflexivity.
  - intros rest. rewrite <- !app_assoc.
    cbn [Decode JSON]; unfold JSON_Decode.
    rewrite PopUint32_const by lia. bind_ok.
    change (be_bytes 1 1 ++ text ++ rest) with (x01 :: text ++ rest).
    cbn [PopUint8]. bind_ok.
    replace (1 + Z.of_nat (length text) - 1) with (Z.of_nat (length text)) by ring.
    unfold to_uint32, wrap_unsigned. rewrite Z.mod_small by lia.
    rewrite Nat2Z.id, popN_app. bind_ok. rewrite Hu. reflexivity.
Qed.

(** C1, as amended.  For each of the twelve scalar kinds UUID, String,
    Bytes, Int16, Int32, Int64, Float32, Float64, Bool, DateTime, Duration
    and JSON, decoding the bytes that encoding a value produced gives the
    value back, for every value that the wire format represents exactly:
    zero, negative and extreme integers and bit patterns, ids, strings and
    byte strings that fit the length prefix, instants and durations of
    whole microseconds within 64 bits of microseconds, and JSON values that
    encoding/json reads back. *)
Theorem scalar_roundtrip `{JSONLib} (c : DecodeEncoder) (v : value) :
  wire_exact c v -> roundtrips c v.
Proof.
  intros Hv. destruct Hv.
  - now apply UUID_roundtrip.
  - now apply String_roundtrip.
  - now apply Bytes_roundtrip.
  - now apply Int16_roundtrip.
  - now apply Int32_roundtrip.
  - now apply Int64_roundtrip.
  - now apply Float32_roundtrip.
  - now apply Float64_roundtrip.
  - apply Bool_roundtrip.
  - now apply DateTime_roundtrip.
  - now apply Duration_roundtrip.
  - now apply JSON_roundtrip with text.
Qed.

Lemma scalar_roundtrip_witness :
  (wire_exact Int64 (VInt64 min_int64) /\ roundtrips Int64 (VInt64 min_int64))
  /\ (wire_exact Duration (VDuration (1000 * -7))
      /\ roundtrips Duration (VDuration (1000 * -7)))
  /\ (wire_exact DateTime (VTime (mkTime 946684799 (1000 * 999999)))
      /\ roundtrips DateTime (VTime (mkTime 946684799 (1000 * 999999)))).
Proof.
  assert (H1 : wire_exact Int64 (VInt64 min_int64)).
  { constructor. unfold in_signed, min_int64. lia. }
  assert (H2 : wire_exact Duration (VDuration (1000 * -7))).
  { constructor. unfold in_signed. lia. }
  assert (H3 : wire_exact DateTime (VTime (mkTime 946684799 (1000 * 999999)))).
  { constructor; unfold in_signed; lia. }
  split; [|split].
  - split; [exact H1 | exact (scalar_roundtrip Int64 _ H1)].
  - split; [exact H2 | exact (scalar_roundtrip Duration _ H2)].
  - split; [exact H3 | exact (scalar_roundtrip DateTime _ H3)].
Defined.

(** C1, as stated, fails for Duration at the largest magnitude: the wire
    carries whole microseconds, so the largest duration, 2^63-1 nanoseconds,
    comes back as 9223372036854775000 nanoseconds. *)
Lemma Duration_roundtrip_fails_at_max :
  exists out : list byte,
    Encode Duration [] (VDuration max_int64) = Ok out /\
    Decode Duration out = Ok (VDuration 9223372036854775000, []) /\
    VDuration 9223372036854775000 <> VDuration max_int64.
Proof.
  eexists. split; [vm_compute; reflexivity|]. split.
  - vm_compute. reflexivity.
  - unfold max_int64. intros E. inversion E.
Qed.

Example Int64_Encode_minus_one :
  Int64_Encode [] (VInt64 (-1))
  = Ok [x00; x00; x00; x08; xff; xff; xff; xff; xff; xff; xff; xff].
Proof. reflexivity. Qed.

(** The zero of the wire is 2000-01-01T00:00:00Z; one microsecond before
    it lies in the second before. *)
Example DateTime_Decode_epoch :
  DateTime_Decode (be_bytes 4 8 ++ be_bytes 8 0)
  = Ok (VTime (mkTime 946684800 0), []).
Proof. reflexivity. Qed.

Example DateTime_Decode_before_epoch :
  DateTime_Decode (be_bytes 4 8 ++ be_bytes 8 (to_uint64 (-1)))
  = Ok (VTime (mkTime 946684799 999999000), []).
Proof. reflexivity. Qed.

(** An instant with a part below the microsecond loses it. *)
Example DateTime_roundtrip_nanosecond :
  exists out : list byte,
    Encode DateTime [] (VTime (mkTime 946684800 1)) = Ok out /\
    Decode DateTime out = Ok (VTime (mkTime 946684800 0), []).
Proof. eexists. split; reflexivity. Qed.

(** ** Bool decode *)

(** C4.  After the four bytes of the length prefix, Bool decode reads one
    payload byte: 0 decodes to false, 1 decodes to true, and every other
    byte (2, for one) stops the decoder with the invalid-bool panic that
    carries the byte; no such byte is turned into true. *)
Theorem Bool_Decode_byte (l0 l1 l2 l3 val : byte) (rest : list byte) :
  Bool_Decode (l0 :: l1 :: l2 :: l3 :: val :: rest)
  = if decide (val = x00) then Ok (VBool false, rest)
    else if decide (val = x01) then Ok (VBool true, rest)
    else Panic (InvalidBoolByte val).
Proof.
  unfold Bool_Decode.
  change (l0 :: l1 :: l2 :: l3 :: val :: rest)
    with ([l0; l1; l2; l3] ++ val :: rest).
  rewrite PopUint32_app by reflexivity. bind_ok. cbn [PopUint8]. bind_ok.
  destruct val; reflexivity.
Qed.

Example Bool_Decode_two :
  Bool_Decode [x00; x00; x00; x01; x02; xff] = Panic (InvalidBoolByte x02).
Proof. reflexivity. Qed.

Example Bool_Decode_one :
  Bool_Decode [x00; x00; x00; x01; x01; xff] = Ok (VBool true, [xff]).
Proof. reflexivity. Qed.

(** ** Tuple encode *)

(** C5.  Encoding with a Tuple codec that declares no field appends exactly
    eight bytes, whatever the argument: the 32-bit length 4 and the 32-bit
    element count 0, with no reserved word and no element after them. *)
Theorem Tuple_Encode_empty (bts : list byte) (val : value) :
  Tuple_Encode [] bts val
  = Ok (bts ++ [x00; x00; x00; x04; x00; x00; x00; x00]).
Proof.
  unfold Tuple_Encode. cbn [length]. destruct (decide (0%nat = 0%nat)) as [_|Hne].
  - unfold PushUint32. rewrite <- app_assoc. reflexivity.
  - now contradiction Hne.
Qed.

(** With a declared field the reserved word and the element follow the
    count. *)
Example Tuple_Encode_one :
  Tuple_Encode [Bool] [] (VSlice [VBool true])
  = Ok [x00; x00; x00; x0d;
        x00; x00; x00; x01;
        x00; x00; x00; x00;
        x00; x00; x00; x01; x01].
Proof. reflexivity. Qed.

(** ** Set and Array decode *)

(** The element loop of Set and Array decode fills the slots of the slice
    made for the result from left to right. *)
Lemma decode_elems_loop (child : DecodeEncoder) (elems tail : list byte)
    (xs : list value) :
  decodes_seq child elems xs tail ->
  forall filled : list value,
    for_range (length filled) (length xs)
      (fun i '(out, buf) =>
         '(x, buf) ← Decode child buf; Ok (<[i := x]> out, buf))
      (filled ++ replicate (length xs) VNil, elems)
    = Ok (filled ++ xs, tail).
Proof.
  induction 1 as [buf | buf buf1 buf2 x xs Hx Hxs IH]; intros filled.
  - cbn. reflexivity.
  - cbn [length for_range replicate]. bind_ok. rewrite Hx. bind_ok.
    replace (<[length filled := x]> (filled ++ VNil :: replicate (length xs) VNil))
      with ((filled ++ [x]) ++ replicate (length xs) VNil).
    + specialize (IH (filled ++ [x])).
      rewrite length_app, Nat.add_1_r in IH. rewrite IH.
      now rewrite <- app_assoc.
    + rewrite <- (Nat.add_0_r (length filled)) at 1.
      rewrite insert_app_r, <- app_assoc. reflexivity.
Qed.

Lemma go_make_length (xs : list value) :
  go_make (Z.of_nat (length xs)) = Ok (replicate (length xs) VNil).
Proof.
  unfold go_make. destruct (Z.ltb_spec (Z.of_nat (length xs)) 0); [lia|].
  now rewrite Nat2Z.id.
Qed.

(** C2.  A Set or Array value is decoded from its envelope according to
    the layout [collection_wire]: decode reads the 32-bit dimension count;
    when it is zero the result is the empty collection and nothing more of
    the payload is read; when it is not, decode skips two reserved words,
    reads the signed upper and lower bounds and decodes exactly
    upper - lower + 1 elements in order, each by the child codec from where
    the one before stopped.  What follows the envelope is left in place. *)
Theorem collection_Decode_layout (child : DecodeEncoder)
    (wlen payload rest : list byte) (xs : list value) :
  length wlen = 4%nat ->
  be_value wlen = Z.of_nat (length payload) ->
  collection_wire child payload xs ->
  Set_Decode child (wlen ++ payload ++ rest) = Ok (VSet xs, rest) /\
  Array_Decode child (wlen ++ payload ++ rest) = Ok (VArray xs, rest).
Proof.
  intros Hw Hlen Hwire. unfold Set_Decode, Array_Decode.
  rewrite PopBytes_app by assumption. bind_ok.
  destruct Hwire as [wdim tail Hd Hz
                    | wdim r1 r2 wupper wlower elems tail xs
                        Hd Hnz Hr1 Hr2 Hu Hl Hcount Hseq].
  - rewrite PopUint32_app by assumption. bind_ok.
    rewrite Hz. cbn [Z.eqb]. split; reflexivity.
  - rewrite PopUint32_app by assumption. bind_ok.
    destruct (Z.eqb_spec (be_value wdim) 0) as [E|_]; [contradiction|].
    repeat (rewrite !PopUint32_app by assumption; bind_ok).
    rewrite <- Hcount, go_make_length. bind_ok. rewrite Nat2Z.id.
    pose proof (decode_elems_loop child elems tail xs Hseq []) as Hloop.
    cbn [length app] in Hloop. rewrite Hloop. bind_ok. split; reflexivity.
Qed.

Lemma collection_Decode_layout_witness :
  (Set_Decode Int64
     (be_bytes 4 44
      ++ (be_bytes 4 1 ++ be_bytes 4 0 ++ be_bytes 4 0
          ++ be_bytes 4 2 ++ be_bytes 4 1
          ++ (be_bytes 4 8 ++ be_bytes 8 7)
          ++ (be_bytes 4 8 ++ be_bytes 8 (to_uint64 (-1))))
      ++ [x2a])
   = Ok (VSet [VInt64 7; VInt64 (-1)], [x2a])
   /\
   Array_Decode Int64
     (be_bytes 4 44
      ++ (be_bytes 4 1 ++ be_bytes 4 0 ++ be_bytes 4 0
          ++ be_bytes 4 2 ++ be_bytes 4 1
          ++ (be_bytes 4 8 ++ be_bytes 8 7)
          ++ (be_bytes 4 8 ++ be_bytes 8 (to_uint64 (-1))))
      ++ [x2a])
   = Ok (VArray [VInt64 7; VInt64 (-1)], [x2a]))
  /\
  (Set_Decode UUID (be_bytes 4 6 ++ (be_bytes 4 0 ++ [xff; xff]) ++ [x2a])
   = Ok (VSet [], [x2a])
   /\
   Array_Decode UUID (be_bytes 4 6 ++ (be_bytes 4 0 ++ [xff; xff]) ++ [x2a])
   = Ok (VArray [], [x2a])).
Proof.
  split.
  - apply collection_Decode_layout; [reflexivity | reflexivity |].
    apply wire_one_dimension with (tail := []);
      try reflexivity; [vm_compute; discriminate |].
    apply decodes_cons
      with (buf1 := be_bytes 4 8 ++ be_bytes 8 (to_uint64 (-1)));
      [vm_compute; reflexivity |].
    apply decodes_cons with (buf1 := []); [vm_compute; reflexivity |].
    apply decodes_nil.
  - apply collection_Decode_layout; [reflexivity | reflexivity |].
    apply wire_no_dimension; reflexivity.
Defined.

(** A negative element count stops the decoder where the result slice
    would be made. *)
Lemma collection_Decode_negative_count (child : DecodeEncoder)
    (wlen payload rest wdim r1 r2 wupper wlower elems : list byte) :
  length wlen = 4%nat ->
  be_value wlen = Z.of_nat (length payload) ->
  payload = wdim ++ r1 ++ r2 ++ wupper ++ wlower ++ elems ->
  length wdim = 4%nat -> be_value wdim <> 0 ->
  length r1 = 4%nat -> length r2 = 4%nat ->
  length wupper = 4%nat -> length wlower = 4%nat ->
  to_int32 (to_int32 (be_value wupper) - to_int32 (be_value wlower) + 1) < 0 ->
  Set_Decode child (wlen ++ payload ++ rest) = Panic MakeSliceLenOutOfRange /\
  Array_Decode child (wlen ++ payload ++ rest) = Panic MakeSliceLenOutOfRange.
Proof.
  intros Hw Hlen -> Hd Hnz Hr1 Hr2 Hu Hl Hneg. unfold Set_Decode, Array_Decode.
  rewrite PopBytes_app by assumption. bind_ok.
  rewrite PopUint32_app by assumption. bind_ok.
  destruct (Z.eqb_spec (be_value wdim) 0) as [E|_]; [contradiction|].
  repeat (rewrite !PopUint32_app by assumption; bind_ok).
  unfold go_make.
  destruct (Z.ltb_spec
    (to_int32 (to_int32 (be_value wupper) - to_int32 (be_value wlower) + 1)) 0)
    as [_|Hge]; [|lia].
  split; reflexivity.
Qed.

(** ** Set decode and Array decode agree *)

(** C10.  On every buffer and with every child codec, Array decode is Set
    decode up to the collection type of the result: both stop with the
    same panic, or both return the same elements in the same order and
    leave the same remaining buffer (no element when the dimension count
    is zero). *)
Theorem Set_Array_Decode_agree (child : DecodeEncoder) (bts : list byte) :
  Array_Decode child bts = as_Array (Set_Decode child bts) /\
  Set_Decode child bts = as_Set (Array_Decode child bts).
Proof.
  unfold Set_Decode, Array_Decode.
  destruct (PopBytes bts) as [[buf rest]|p]; bind_ok; [|split; reflexivity].
  destruct (PopUint32 buf) as [[dimCount buf0]|p]; bind_ok;
    [|split; reflexivity].
  destruct (dimCount =? 0); [split; reflexivity|].
  destruct (PopUint32 buf0) as [[? buf1]|p]; bind_ok; [|split; reflexivity].
  destruct (PopUint32 buf1) as [[? buf2]|p]; bind_ok; [|split; reflexivity].
  destruct (PopUint32 buf2) as [[u buf3]|p]; bind_ok; [|split; reflexivity].
  destruct (PopUint32 buf3) as [[l buf4]|p]; bind_ok; [|split; reflexivity].
  destruct (go_make _) as [out|p]; bind_ok; [|split; reflexivity].
  destruct (for_range _ _ _ _) as [[out' buf5]|p]; bind_ok; split; reflexivity.
Qed.

(** ** Object decode *)

Lemma object_wire_names (fields : list objectField) (buf buf' : list byte)
    (kvs : list (string * value)) :
  object_wire fields buf kvs buf' -> kvs.*1 = name <$> fields.
Proof.
  induction 1; cbn; congruence.
Qed.

(** The field loop of Object decode, started at any declared field. *)
Lemma Object_Decode_loop (all : list objectField) (fields : list objectField)
    (buf buf' : list byte) (kvs : list (string * value)) :
  object_wire fields buf kvs buf' ->
  forall (pre post : list objectField) (out : gmap string value),
    all = pre ++ fields ++ post ->
    for_range (length pre) (length fields)
      (fun i '(out, buf) =>
         '(_, buf) ← PopUint32 buf;
         field ← go_index all (Z.of_nat i);
         peek ← PeekUint32 buf;
         if to_int32 peek =? -1 then
           '(_, buf) ← PopUint32 buf;
           Ok (<[name field := VSet []]> out, buf)
         else
           '(x, buf) ← Decode (codec field) buf;
           Ok (<[name field := x]> out, buf))
      (out, buf)
    = Ok (assign_all kvs out, buf').
Proof.
  induction 1 as [buf
                 | field fields reserved wlen buf buf' kvs Hr Hw Hm Hrest IH
                 | field fields reserved wlen body buf1 buf' x kvs
                     Hr Hw Hm Hx Hrest IH];
    intros pre post out Hall.
  - reflexivity.
  - cbn [length for_range]. bind_ok.
    rewrite PopUint32_app by assumption. bind_ok.
    rewrite Hall at 1. cbn [app]. rewrite go_index_middle. bind_ok.
    rewrite PeekUint32_app by assumption. bind_ok.
    rewrite Hm. cbn [Z.eqb Pos.eqb].
    rewrite PopUint32_app by assumption. bind_ok.
    specialize (IH (pre ++ [field]) post (<[name field := VSet []]> out)).
    rewrite length_app, Nat.add_1_r in IH. rewrite IH.
    + reflexivity.
    + rewrite Hall, <- app_assoc. reflexivity.
  - cbn [length for_range]. bind_ok.
    rewrite PopUint32_app by assumption. bind_ok.
    rewrite Hall at 1. cbn [app]. rewrite go_index_middle. bind_ok.
    rewrite PeekUint32_app by assumption. bind_ok.
    destruct (Z.eqb_spec (to_int32 (be_value wlen)) (-1)) as [E|_];
      [contradiction|].
    rewrite Hx. bind_ok.
    specialize (IH (pre ++ [field]) post (<[name field := x]> out)).
    rewrite length_app, Nat.add_1_r in IH. rewrite IH.
    + reflexivity.
    + rewrite Hall, <- app_assoc. reflexivity.
Qed.

(** The last assignment to a key is the one that is read. *)
Lemma assign_all_lookup (l1 l2 : list (string * value)) (k : string) (v : value)
    (m : gmap string value) :
  k ∉ l2.*1 -> assign_all (l1 ++ (k, v) :: l2) m !! k = Some v.
Proof.
  intros Hk. unfold assign_all. rewrite foldl_app. cbn [foldl fst snd].
  generalize (foldl (fun m kv => <[kv.1 := kv.2]> m) m l1) as m1. intros m1.
  assert (Hgen : forall m' : gmap string value, m' !! k = Some v ->
            foldl (fun m kv => <[kv.1 := kv.2]> m) m' l2 !! k = Some v).
  { induction l2 as [|[k' v'] l2 IH]; intros m' Hm'; [exact Hm'|].
    cbn [foldl fst snd]. apply IH.
    - intros Hin. apply Hk. cbn. now right.
    - rewrite lookup_insert_ne; [exact Hm'|].
      intros ->. apply Hk. cbn. now left. }
  apply Hgen. apply lookup_insert_eq.
Qed.

(** C3.  Object decode handles the fields in declared order: for each one
    it skips a 32-bit reserved word; when the signed 32-bit length that
    follows is -1 it takes exactly those four bytes and records the empty
    set for the field, and the next field starts right after them;
    otherwise the field codec decodes the field.  The result assigns to
    the name of each field the value recorded for it; with the field count
    of the declaration on the wire these are all declared fields. *)
Theorem Object_Decode_layout (fields : list objectField) (n : nat)
    (wlen payload rest wcount body tail : list byte)
    (kvs : list (string * value)) :
  length wlen = 4%nat ->
  be_value wlen = Z.of_nat (length payload) ->
  payload = wcount ++ body ->
  length wcount = 4%nat ->
  to_int32 (be_value wcount) = Z.of_nat n ->
  (n <= length fields)%nat ->
  object_wire (take n fields) body kvs tail ->
  Object_Decode fields (wlen ++ payload ++ rest)
    = Ok (VObject (assign_all kvs ∅), rest)
  /\ kvs.*1 = name <$> take n fields
  /\ (forall l1 k v l2,
        kvs = l1 ++ (k, v) :: l2 -> k ∉ l2.*1 ->
        assign_all kvs ∅ !! k = Some v).
Proof.
  intros Hw Hlen -> Hc Hn Hle Hwire. split; [|split].
  - unfold Object_Decode.
    rewrite PopBytes_app by assumption. bind_ok.
    rewrite PopUint32_app by assumption. bind_ok.
    rewrite Hn, Nat2Z.id.
    pose proof (Object_Decode_loop fields (take n fields) body tail kvs Hwire
                  [] (drop n fields) ∅) as Hloop.
    rewrite length_take_le in Hloop by assumption.
    cbn [length app] in Hloop. rewrite Hloop by now rewrite take_drop.
    reflexivity.
  - eapply object_wire_names, Hwire.
  - intros l1 k v l2 -> Hk. now apply assign_all_lookup.
Qed.

Lemma Object_Decode_layout_witness :
  Object_Decode
    [mkObjectField false false false "id" Int64;
     mkObjectField false false true "tags" (SetCodec String)]
    (be_bytes 4 28
     ++ (be_bytes 4 2
         ++ be_bytes 4 0 ++ be_bytes 4 8 ++ be_bytes 8 5
         ++ be_bytes 4 0 ++ be_bytes 4 (to_uint32 (-1)) ++ [])
     ++ [x2a])
  = Ok (VObject (assign_all [("id"%string, VInt64 5); ("tags"%string, VSet [])] ∅),
        [x2a]).
Proof.
  eapply proj1.
  apply (Object_Decode_layout _ 2 (be_bytes 4 28)
           (be_bytes 4 2
            ++ be_bytes 4 0 ++ be_bytes 4 8 ++ be_bytes 8 5
            ++ be_bytes 4 0 ++ be_bytes 4 (to_uint32 (-1)) ++ [])
           [x2a] (be_bytes 4 2)
           (be_bytes 4 0 ++ be_bytes 4 8 ++ be_bytes 8 5
            ++ be_bytes 4 0 ++ be_bytes 4 (to_uint32 (-1)) ++ [])
           []);
    [reflexivity | reflexivity | reflexivity | reflexivity | reflexivity
    | cbn; lia |].
  cbn [take].
  apply (object_wire_present
           (mkObjectField false false false "id" Int64) _
           (be_bytes 4 0) (be_bytes 4 8)
           (be_bytes 8 5 ++ be_bytes 4 0 ++ be_bytes 4 (to_uint32 (-1)) ++ [])
           (be_bytes 4 0 ++ be_bytes 4 (to_uint32 (-1)) ++ []) [] (VInt64 5));
    [reflexivity | reflexivity | vm_compute; discriminate
    | vm_compute; reflexivity |].
  apply (object_wire_missing
           (mkObjectField false false true "tags" (SetCodec String)) []
           (be_bytes 4 0) (be_bytes 4 (to_uint32 (-1))) [] []);
    [reflexivity | reflexivity | vm_compute; reflexivity |].
  apply object_wire_nil.
Defined.

(** ** Array encode *)

Lemma Array_Encode_loop (child : DecodeEncoder) (xs : list value)
    (encs : list (list byte)) :
  Forall2 (appends child) xs encs ->
  forall (pre : list value) (tmp : list byte),
    for_range (length pre) (length xs)
      (fun i tmp => x ← go_index (pre ++ xs) (Z.of_nat i); Encode child tmp x)
      tmp
    = Ok (tmp ++ concat encs).
Proof.
  induction 1 as [|x e xs encs Hx Hxs IH]; intros pre tmp.
  - cbn. now rewrite app_nil_r.
  - cbn [length for_range concat]. bind_ok.
    rewrite go_index_middle. bind_ok. rewrite (Hx tmp). bind_ok.
    specialize (IH (pre ++ [x]) (tmp ++ e)).
    rewrite length_app, Nat.add_1_r, <- app_assoc in IH. cbn [app] in IH.
    rewrite IH, <- app_assoc. reflexivity.
Qed.

(** C6.  Whatever the sequence to encode, Array encode writes, after the
    length of the envelope, the dimension count 1, two reserved words 0,
    the upper bound 3 and the lower bound 1; after these bounds come the
    encodings of the elements of the sequence, one for each element and in
    order, so that as many elements are encoded as the sequence has. *)
Theorem Array_Encode_layout (child : DecodeEncoder) (in_ : list value)
    (encs : list (list byte)) (bts : list byte) :
  Forall2 (appends child) in_ encs ->
  Array_Encode child bts (VSlice in_)
  = Ok (bts
        ++ be_bytes 4 (to_uint32 (Z.of_nat (20 + length (concat encs))))
        ++ [x00; x00; x00; x01]
        ++ [x00; x00; x00; x00]
        ++ [x00; x00; x00; x00]
        ++ [x00; x00; x00; x03]
        ++ [x00; x00; x00; x01]
        ++ concat encs)
  /\ length encs = length in_.
Proof.
  intros Henc. split.
  - unfold Array_Encode.
    pose proof (Array_Encode_loop child in_ encs Henc []) as Hloop.
    cbn [length app] in Hloop. rewrite Hloop. bind_ok.
    unfold PushUint32. rewrite <- !app_assoc. cbn [app].
    rewrite !length_app. reflexivity.
  - symmetry. eapply Forall2_length, Henc.
Qed.

Lemma Int64_appends (n : Z) :
  appends Int64 (VInt64 n) (be_bytes 4 8 ++ be_bytes 8 (to_uint64 n)).
Proof.
  intros tmp. cbn [Encode Int64]. unfold Int64_Encode. push_assoc. reflexivity.
Qed.

Lemma Array_Encode_layout_witness :
  Array_Encode Int64 [xaa] (VSlice [VInt64 1; VInt64 2; VInt64 3; VInt64 4; VInt64 5])
  = Ok ([xaa]
        ++ be_bytes 4 80
        ++ [x00; x00; x00; x01]
        ++ [x00; x00; x00; x00]
        ++ [x00; x00; x00; x00]
        ++ [x00; x00; x00; x03]
        ++ [x00; x00; x00; x01]
        ++ concat [be_bytes 4 8 ++ be_bytes 8 1; be_bytes 4 8 ++ be_bytes 8 2;
                   be_bytes 4 8 ++ be_bytes 8 3; be_bytes 4 8 ++ be_bytes 8 4;
                   be_bytes 4 8 ++ be_bytes 8 5]).
Proof.
  refine (proj1 (Array_Encode_layout Int64 _
    [be_bytes 4 8 ++ be_bytes 8 1; be_bytes 4 8 ++ be_bytes 8 2;
     be_bytes 4 8 ++ be_bytes 8 3; be_bytes 4 8 ++ be_bytes 8 4;
     be_bytes 4 8 ++ be_bytes 8 5] [xaa] _)).
  constructor; [exact (Int64_appends 1)|].
  constructor; [exact (Int64_appends 2)|].
  constructor; [exact (Int64_appends 3)|].
  constructor; [exact (Int64_appends 4)|].
  constructor; [exact (Int64_appends 5)|].
  constructor.
Defined.

(** One element, and still the bounds 3 and 1. *)
Example Array_Encode_one :
  Array_Encode Bool [] (VSlice [VBool false])
  = Ok [x00; x00; x00; x19;
        x00; x00; x00; x01;
        x00; x00; x00; x00;
        x00; x00; x00; x00;
        x00; x00; x00; x03;
        x00; x00; x00; x01;
        x00; x00; x00; x01; x00].
Proof. reflexivity. Qed.

(** ** NamedTuple encode *)

(** The codecs whose encoder asserts the type of its argument reject nil;
    so do the Set and Object codecs, which encode nothing at all. *)
Lemma rejects_nil_codecs :
  rejects_nil UUID /\ rejects_nil String /\ rejects_nil Bytes /\
  rejects_nil Int16 /\ rejects_nil Int32 /\ rejects_nil Int64 /\
  rejects_nil Float32 /\ rejects_nil Float64 /\ rejects_nil Bool /\
  rejects_nil DateTime /\ rejects_nil Duration /\
  (forall child, rejects_nil (ArrayCodec child)) /\
  (forall fields, rejects_nil (NamedTupleCodec fields)) /\
  (forall fields, fields <> [] -> rejects_nil (TupleCodec fields)) /\
  (forall child, rejects_nil (SetCodec child)) /\
  (forall fields, rejects_nil (ObjectCodec fields)).
Proof.
  repeat split; try (intros tmp; eexists; reflexivity);
    try (intros child tmp; eexists; reflexivity).
  intros fields Hne tmp. cbn [Encode TupleCodec]. unfold Tuple_Encode.
  destruct (decide (length fields = 0%nat)) as [E|_].
  - destruct fields; [contradiction | discriminate].
  - eexists; reflexivity.
Qed.

Lemma NamedTuple_Encode_loop (in_ : gmap string value)
    (field : namedTupleField) (fields : list namedTupleField) :
  field ∈ fields ->
  in_ !! nt_name field = None ->
  rejects_nil (nt_codec field) ->
  forall (pre : list namedTupleField) (tmp : list byte),
    is_Panic
      (for_range (length pre) (length fields)
         (fun i tmp =>
            let tmp := PushUint32 tmp 0 in
            field ← go_index (pre ++ fields) (Z.of_nat i);
            Encode (nt_codec field) tmp (go_map_index in_ (nt_name field)))
         tmp).
Proof.
  intros Hin Hmiss Hrej.
  induction fields as [|f fields IH]; intros pre tmp.
  - now apply not_elem_of_nil in Hin.
  - cbn [length for_range]. bind_ok.
    rewrite go_index_middle. bind_ok.
    destruct (Encode (nt_codec f) (PushUint32 tmp 0)
                (go_map_index in_ (nt_name f))) as [tmp'|p] eqn:Henc; bind_ok.
    + apply elem_of_cons in Hin as [->|Hin].
      * unfold go_map_index in Henc. rewrite Hmiss in Henc. cbn in Henc.
        destruct (Hrej (PushUint32 tmp 0)) as [p Hp]. congruence.
      * specialize (IH Hin (pre ++ [f]) tmp').
        rewrite length_app, Nat.add_1_r, <- app_assoc in IH. exact IH.
    + now exists p.
Qed.

(** C9, as amended.  NamedTuple encode looks up the value of each declared
    field by its name in the input mapping and hands it to the codec of
    the field; a key that is missing reads as nil.  Encoding therefore
    fails as soon as the mapping lacks the key of some declared field
    whose codec rejects nil. *)
Theorem NamedTuple_Encode_missing_key (fields : list namedTupleField)
    (in_ : gmap string value) (bts : list byte) (field : namedTupleField) :
  field ∈ fields ->
  in_ !! nt_name field = None ->
  rejects_nil (nt_codec field) ->
  is_Panic (NamedTuple_Encode fields bts (VMap in_)).
Proof.
  intros Hin Hmiss Hrej. unfold NamedTuple_Encode.
  destruct (NamedTuple_Encode_loop in_ field fields Hin Hmiss Hrej []
              (PushUint32 [] (to_uint32 (Z.of_nat (length fields)))))
    as [p Hp].
  cbn [length app] in Hp. rewrite Hp. now exists p.
Qed.

Lemma NamedTuple_Encode_missing_key_witness :
  is_Panic
    (NamedTuple_Encode
       [mkNamedTupleField "a" String; mkNamedTupleField "b" Int64] [x2a]
       (VMap {["a"%string := VString "x"]})).
Proof.
  apply (NamedTuple_Encode_missing_key _ _ _ (mkNamedTupleField "b" Int64)).
  - apply elem_of_cons. right. apply elem_of_cons. now left.
  - reflexivity.
  - intros tmp. eexists. reflexivity.
Defined.

(** C9, as stated, fails: a field whose codec does not look at its
    argument, here the Tuple codec without fields, is encoded although the
    mapping has no key for it. *)
Lemma NamedTuple_Encode_missing_key_accepted :
  (∅ : gmap string value) !! "a"%string = None /\
  NamedTuple_Encode [mkNamedTupleField "a" (TupleCodec [])] [] (VMap ∅)
  = Ok [x00; x00; x00; x10;
        x00; x00; x00; x01;
        x00; x00; x00; x00;
        x00; x00; x00; x04; x00; x00; x00; x00].
Proof.
  split; reflexivity.
Qed.

(** A missing Int64 field stops the encoder at the type assertion. *)
Example NamedTuple_Encode_missing_Int64 :
  NamedTuple_Encode [mkNamedTupleField "n" Int64] [] (VMap ∅)
  = Panic InterfaceConversion.
Proof. reflexivity. Qed.

(** ** The descriptor stream parser *)

(** No primitive gives back a longer buffer than it was given. *)
Lemma popN_shrinks (n : nat) (bts : list byte) x bts' :
  popN n bts = Ok (x, bts') -> (length bts' <= length bts)%nat.
Proof.
  unfold popN. destruct (decide _); [|discriminate].
  intros E; inversion E; subst. rewrite length_drop. lia.
Qed.

Lemma popUint_shrinks (n : nat) (bts : list byte) x bts' :
  popUint n bts = Ok (x, bts') -> (length bts' <= length bts)%nat.
Proof.
  unfold popUint. destruct (popN n bts) as [[raw b]|p] eqn:E; cbn;
    [|discriminate].
  intros E'; inversion E'; subst. eapply popN_shrinks, E.
Qed.

Lemma PopUint8_shrinks (bts : list byte) x bts' :
  PopUint8 bts = Ok (x, bts') -> length bts = S (length bts').
Proof.
  destruct bts; cbn; [discriminate|]. intros E; now inversion E; subst.
Qed.

Lemma PopString_shrinks (bts : list byte) x bts' :
  PopString bts = Ok (x, bts') -> (length bts' <= length bts)%nat.
Proof.
  unfold PopString, PopBytes, PopUint32.
  destruct (popUint 4 bts) as [[n b1]|p] eqn:E1; cbn; [|discriminate].
  destruct (popN (Z.to_nat n) b1) as [[raw b2]|p] eqn:E2; cbn; [|discriminate].
  intros E; inversion E; subst.
  apply popUint_shrinks in E1. apply popN_shrinks in E2. lia.
Qed.



Lemma popSetCodec_shrinks bts id codecs c bts' :
  popSetCodec bts id codecs = Ok (c, bts') -> (length bts' <= length bts)%nat.
Proof.
  unfold popSetCodec. intros H. inv_bind H. inv_bind H.
  inversion H; subst. eapply popUint_shrinks, E.
Qed.

Lemma popObjectCodec_shrinks bts id codecs c bts' :
  popObjectCodec bts id codecs = Ok (c, bts') -> (length bts' <= length bts)%nat.
Proof.
  unfold popObjectCodec. intros H. inv_bind H. inv_bind H.
  inversion H; subst. apply popUint_shrinks in E.
  eapply (for_range_invariant
            (fun s : list objectField * list byte =>
               (length s.2 <= length bts)%nat)) in E0; [exact E0 | | cbn; lia].
  intros i [fs b] [fs' b'] Hb Hstep. cbn in Hb |- *.
  inv_bind Hstep. inv_bind Hstep. inv_bind Hstep. inv_bind Hstep.
  inversion Hstep; subst.
  apply PopUint8_shrinks in E1. apply PopString_shrinks in E2.
  apply popUint_shrinks in E3. lia.
Qed.

Lemma popTupleCodec_shrinks bts id codecs c bts' :
  popTupleCodec bts id codecs = Ok (c, bts') -> (length bts' <= length bts)%nat.
Proof.
  unfold popTupleCodec. intros H. inv_bind H. inv_bind H.
  inversion H; subst. apply popUint_shrinks in E.
  eapply (for_range_invariant
            (fun s : list DecodeEncoder * list byte =>
               (length s.2 <= length bts)%nat)) in E0; [exact E0 | | cbn; lia].
  intros i [fs b] [fs' b'] Hb Hstep. cbn in Hb |- *.
  inv_bind Hstep. inv_bind Hstep.
  inversion Hstep; subst.
  apply popUint_shrinks in E1. lia.
Qed.

Lemma popNamedTupleCodec_shrinks bts id codecs c bts' :
  popNamedTupleCodec bts id codecs = Ok (c, bts') ->
  (length bts' <= length bts)%nat.
Proof.
  unfold popNamedTupleCodec. intros H. inv_bind H. inv_bind H.
  inversion H; subst. apply popUint_shrinks in E.
  eapply (for_range_invariant
            (fun s : list namedTupleField * list byte =>
               (length s.2 <= length bts)%nat)) in E0; [exact E0 | | cbn; lia].
  intros i [fs b] [fs' b'] Hb Hstep. cbn in Hb |- *.
  inv_bind Hstep. inv_bind Hstep. inv_bind Hstep.
  inversion Hstep; subst.
  apply PopString_shrinks in E1. apply popUint_shrinks in E2. lia.
Qed.

Lemma popArrayCodec_shrinks bts id codecs c bts' :
  popArrayCodec bts id codecs = Ok (c, bts') -> (length bts' <= length bts)%nat.
Proof.
  unfold popArrayCodec. intros H. inv_bind H. inv_bind H. inv_bind H.
  inv_bind H. inversion H; subst.
  apply popUint_shrinks in E. apply popUint_shrinks in E0.
  eapply (for_range_invariant
            (fun b : list byte => (length b <= length bts)%nat)) in E1;
    [exact E1 | | lia].
  intros i b b' Hb Hstep. inv_bind Hstep. inversion Hstep; subst.
  apply popUint_shrinks in E3. lia.
Qed.

Section ParserProperties.
Context `{JSONLib}.

(** A turn of the loop that ends normally has consumed at least the tag
    byte and has appended one codec to the list. *)
Lemma Pop_step_Ok (lookup : CodecLookup) (codecs : list DecodeEncoder)
    (bts : list byte) st' bts' :
  Pop_step (lookup, codecs) bts = Ok (st', bts') ->
  (length bts' < length bts)%nat /\
  exists id c, st' = (<[id := c]> lookup, codecs ++ [c]).
Proof.
  unfold Pop_step. intros Hstep.
  inv_bind Hstep. inv_bind Hstep. inv_bind Hstep.
  inversion Hstep; subst. clear Hstep.
  apply PopUint8_shrinks in E. apply popN_shrinks in E0.
  split; [|eauto].
  repeat match type of E1 with
         | (if ?b then _ else _) = _ => destruct b
         end.
  - apply popSetCodec_shrinks in E1. lia.
  - apply popObjectCodec_shrinks in E1. lia.
  - inv_bind E1. inversion E1; subst. lia.
  - apply popTupleCodec_shrinks in E1. lia.
  - apply popNamedTupleCodec_shrinks in E1. lia.
  - apply popArrayCodec_shrinks in E1. lia.
  - discriminate.
Qed.

(** The fuel given to the loop by [Pop] is enough: as long as the fuel is
    at least the length of the buffer, the loop takes a turn whenever the
    buffer is not empty. *)
Lemma Pop_loop_turn (fuel : nat) st (bts : list byte) :
  bts <> [] -> (length bts <= fuel)%nat ->
  exists fuel',
    fuel = S fuel' /\
    Pop_loop fuel st bts
    = '(st, bts) ← Pop_step st bts; Pop_loop fuel' st bts.
Proof.
  intros Hne Hfuel. destruct bts as [|b bts]; [contradiction|].
  destruct fuel as [|fuel']; [cbn in Hfuel; lia|].
  exists fuel'. split; reflexivity.
Qed.

Lemma Pop_loop_parsed (n : nat) st bts st' bts' :
  parsed n st bts st' bts' ->
  forall fuel, (length bts <= fuel)%nat ->
    exists fuel', (length bts' <= fuel')%nat /\
                  Pop_loop fuel st bts = Pop_loop fuel' st' bts'.
Proof.
  induction 1 as [st bts | n st bts st1 bts1 st2 bts2 Hstep Hrest IH];
    intros fuel Hfuel.
  - exists fuel. split; [assumption | reflexivity].
  - destruct st as [lookup codecs].
    destruct (Pop_step_Ok _ _ _ _ _ Hstep) as [Hlt _].
    assert (Hne : bts <> []) by (intros ->; cbn in Hlt; lia).
    destruct (Pop_loop_turn fuel (lookup, codecs) bts Hne Hfuel)
      as (fuel1 & -> & Hturn).
    rewrite Hturn, Hstep. bind_ok. apply IH. lia.
Qed.

Lemma parsed_position (n : nat) st bts st' bts' :
  parsed n st bts st' bts' -> length st'.2 = (length st.2 + n)%nat.
Proof.
  induction 1 as [st bts | n st bts st1 bts1 st2 bts2 Hstep Hrest IH].
  - lia.
  - destruct st as [lookup codecs].
    destruct (Pop_step_Ok _ _ _ _ _ Hstep) as [_ (id & c & ->)].
    rewrite IH. cbn [snd]. rewrite length_app. cbn. lia.
Qed.

(** The loop equation of [Pop]: the empty stream gives the lookup built so
    far, and a stream that parses for some turns goes on from there. *)
Lemma Pop_parsed (n : nat) (stream : list byte) st bts :
  parsed n (∅, []) stream st bts ->
  exists fuel, (length bts <= fuel)%nat /\ Pop stream = Pop_loop fuel st bts.
Proof.
  intros Hp. unfold Pop. eapply Pop_loop_parsed; [exact Hp | lia].
Qed.

End ParserProperties.

Section ParserClaims.
Context `{JSONLib}.

(** C7.  When the descriptors before it have been parsed and the next
    descriptor has a tag outside the recognized set (0x7F, for one), [Pop]
    stops with the unknown-descriptor panic, which carries that tag and the
    bytes that remain after the tag and the type id.  [Pop] returns no
    lookup then: nothing of what was built reaches the caller. *)
Theorem Pop_unknown_tag (n : nat) (stream : list byte)
    (st : CodecLookup * list DecodeEncoder) (tag : byte)
    (id rest : list byte) :
  parsed n (∅, []) stream st (tag :: id ++ rest) ->
  length id = 16%nat ->
  byte_to_Z tag ∉ recognized_tags ->
  Pop stream = Panic (UnknownDescriptorType tag rest) /\
  (forall lookup, Pop stream <> Ok lookup).
Proof.
  intros Hparsed Hid Htag.
  assert (Hpop : Pop stream = Panic (UnknownDescriptorType tag rest)).
  { destruct (Pop_parsed _ _ _ _ Hparsed) as (fuel & Hfuel & ->).
    destruct (Pop_loop_turn fuel st (tag :: id ++ rest)) as (fuel' & -> & ->);
      [discriminate | exact Hfuel |].
    destruct st as [lookup codecs]. unfold Pop_step.
    cbn [PopUint8]. bind_ok.
    unfold PopUUID. rewrite <- Hid, popN_app. bind_ok.
    unfold recognized_tags in Htag.
    repeat match goal with
           | |- context [?a =? ?b] =>
               destruct (Z.eqb_spec a b) as [E|_];
               [exfalso; apply Htag; rewrite E; set_solver|]
           end.
    reflexivity. }
  split; [exact Hpop|]. intros lookup. rewrite Hpop. discriminate.
Qed.

(** When the stream ends before the type id is complete, [Pop] stops while
    reading the id, whatever the tag. *)
Lemma Pop_short_id (n : nat) (stream : list byte)
    (st : CodecLookup * list DecodeEncoder) (tag : byte) (short : list byte) :
  parsed n (∅, []) stream st (tag :: short) ->
  (length short < 16)%nat ->
  Pop stream = Panic SliceBoundsOutOfRange.
Proof.
  intros Hparsed Hshort.
  destruct (Pop_parsed _ _ _ _ Hparsed) as (fuel & Hfuel & ->).
  destruct (Pop_loop_turn fuel st (tag :: short)) as (fuel' & -> & ->);
    [discriminate | exact Hfuel |].
  destruct st as [lookup codecs]. unfold Pop_step.
  cbn [PopUint8]. bind_ok. unfold PopUUID, popN.
  destruct (decide (16 <= length short)%nat); [lia | reflexivity].
Qed.

End ParserClaims.

Lemma Pop_unknown_tag_witness :
  Pop (x02 :: base_scalar_id x05
       ++ x7f :: base_scalar_id xff ++ [x00; x01])
  = Panic (UnknownDescriptorType x7f [x00; x01])
  /\ (forall lookup,
        Pop (x02 :: base_scalar_id x05
             ++ x7f :: base_scalar_id xff ++ [x00; x01])
        <> Ok lookup).
Proof.
  apply (Pop_unknown_tag 1 _ (<[base_scalar_id x05 := Int64]> ∅, [Int64])
           x7f (base_scalar_id xff) [x00; x01]).
  - eapply parsed_S; [reflexivity | apply parsed_O].
  - reflexivity.
  - intros Hin.
    repeat (apply elem_of_cons in Hin; destruct Hin as [Hin|Hin];
            [discriminate Hin|]).
    inversion Hin.
Defined.

Example Pop_scalars :
  exists lookup : CodecLookup,
    Pop (x02 :: base_scalar_id x05 ++ x02 :: base_scalar_id x09) = Ok lookup /\
    Decode <$> lookup !! base_scalar_id x05 = Some Int64_Decode /\
    Decode <$> lookup !! base_scalar_id x09 = Some Bool_Decode.
Proof. eexists. split; [reflexivity|]. split; reflexivity. Qed.

Example Pop_empty : Pop [] = Ok ∅.
Proof. reflexivity. Qed.

(** ** Forward references *)

(** The entries that refer backward are read by the field loop of the
    Tuple descriptor. *)
Lemma popTupleCodec_entries (codecs : list DecodeEncoder) (k : nat)
    (earlier : list byte) :
  backward_entries tupleType (length codecs) k earlier ->
  forall start fields tail,
    exists fields',
      for_range start k
        (fun i '(fields, bts) =>
           '(index, bts) ← PopUint16 bts;
           c ← go_index codecs index;
           Ok (fields ++ [c], bts))
        (fields, earlier ++ tail)
      = Ok (fields', tail).
Proof.
  induction 1 as [|k head widx more Hhead Hw Hlt Hmore IH];
    intros start fields tail.
  - exists fields. reflexivity.
  - inversion Hhead; subst. cbn [app for_range]. bind_ok.
    rewrite <- app_assoc, PopUint16_app by assumption. bind_ok.
    destruct (go_index_below codecs (be_value widx)) as [c Hc];
      [pose proof (be_value_nonneg widx); lia|].
    rewrite Hc. bind_ok. apply IH.
Qed.

Lemma popNamedTupleCodec_entries (codecs : list DecodeEncoder) (k : nat)
    (earlier : list byte) :
  backward_entries namedTupleType (length codecs) k earlier ->
  forall start fields tail,
    exists fields',
      for_range start k
        (fun i '(fields, bts) =>
           '(name, bts) ← PopString bts;
           '(index, bts) ← PopUint16 bts;
           c ← go_index codecs index;
           Ok (fields ++ [{| nt_name := name; nt_codec := c |}], bts))
        (fields, earlier ++ tail)
      = Ok (fields', tail).
Proof.
  induction 1 as [|k head widx more Hhead Hw Hlt Hmore IH];
    intros start fields tail.
  - exists fields. reflexivity.
  - inversion Hhead; subst. cbn [for_range]. bind_ok.
    rewrite <- !app_assoc, PopString_app by assumption. bind_ok.
    rewrite PopUint16_app by assumption. bind_ok.
    destruct (go_index_below codecs (be_value widx)) as [c Hc];
      [pose proof (be_value_nonneg widx); lia|].
    rewrite Hc. bind_ok. apply IH.
Qed.

Lemma popObjectCodec_entries (codecs : list DecodeEncoder) (k : nat)
    (earlier : list byte) :
  backward_entries objectType (length codecs) k earlier ->
  forall start fields tail,
    exists fields',
      for_range start k
        (fun i '(fields, bts) =>
           '(flags, bts) ← PopUint8 bts;
           '(name, bts) ← PopString bts;
           '(index, bts) ← PopUint16 bts;
           c ← go_index codecs index;
           Ok (fields ++ [{|
             isImplicit := negb (Z.land (byte_to_Z flags) 1 =? 0);
             isLinkProperty := negb (Z.land (byte_to_Z flags) 2 =? 0);
             isLink := negb (Z.land (byte_to_Z flags) 4 =? 0);
             name := name;
             codec := c
           |}], bts))
        (fields, earlier ++ tail)
      = Ok (fields', tail).
Proof.
  induction 1 as [|k head widx more Hhead Hw Hlt Hmore IH];
    intros start fields tail.
  - exists fields. reflexivity.
  - inversion Hhead; subst. cbn [for_range]. bind_ok.
    rewrite <- !app_comm_cons. cbn [PopUint8]. bind_ok.
    rewrite <- !app_assoc, PopString_app by assumption. bind_ok.
    rewrite PopUint16_app by assumption. bind_ok.
    destruct (go_index_below codecs (be_value widx)) as [c Hc];
      [pose proof (be_value_nonneg widx); lia|].
    rewrite Hc. bind_ok. apply IH.
Qed.

(** The dimension placeholders of an Array descriptor are skipped. *)
Lemma popArrayCodec_dims (k : nat) :
  forall (start : nat) (dims rest : list byte),
    length dims = (4 * k)%nat ->
    for_range start k
      (fun i bts => '(_, bts) ← PopUint32 bts; Ok bts) (dims ++ rest)
    = Ok rest.
Proof.
  induction k as [|k IH]; intros start dims rest Hlen.
  - destruct dims; [reflexivity | discriminate].
  - cbn [for_range]. bind_ok.
    rewrite <- (take_drop 4 dims), <- app_assoc.
    rewrite PopUint32_app by (rewrite length_take; lia). bind_ok.
    apply IH. rewrite length_drop. lia.
Qed.


Lemma popSetCodec_forward (codecs : list DecodeEncoder) (id : list byte)
    (widx rest : list byte) :
  length widx = 2%nat ->
  Z.of_nat (length codecs) <= be_value widx ->
  popSetCodec (widx ++ rest) id codecs
  = Panic (IndexOutOfRange (be_value widx) (length codecs)).
Proof.
  intros Hw Hge. unfold popSetCodec.
  rewrite PopUint16_app by assumption. bind_ok.
  now rewrite go_index_beyond.
Qed.

Lemma popArrayCodec_forward (codecs : list DecodeEncoder) (id : list byte)
    (widx wdims dims rest : list byte) :
  length widx = 2%nat ->
  length wdims = 2%nat ->
  Z.of_nat (length dims) = 4 * be_value wdims ->
  Z.of_nat (length codecs) <= be_value widx ->
  popArrayCodec (widx ++ wdims ++ dims ++ rest) id codecs
  = Panic (IndexOutOfRange (be_value widx) (length codecs)).
Proof.
  intros Hw Hd Hdims Hge. unfold popArrayCodec.
  rewrite PopUint16_app by assumption. bind_ok.
  rewrite PopUint16_app by assumption. bind_ok.
  rewrite popArrayCodec_dims by lia. bind_ok.
  now rewrite go_index_beyond.
Qed.

Lemma popTupleCodec_forward (codecs : list DecodeEncoder) (id : list byte)
    (k : nat) (wcount earlier head widx rest : list byte) :
  length wcount = 2%nat ->
  backward_entries tupleType (length codecs) k earlier ->
  Z.of_nat k < be_value wcount ->
  entry_head tupleType head ->
  length widx = 2%nat ->
  Z.of_nat (length codecs) <= be_value widx ->
  popTupleCodec (wcount ++ earlier ++ head ++ widx ++ rest) id codecs
  = Panic (IndexOutOfRange (be_value widx) (length codecs)).
Proof.
  intros Hc Hearlier Hk Hhead Hw Hge. unfold popTupleCodec.
  rewrite PopUint16_app by assumption. bind_ok.
  split_count wcount k.
  destruct (popTupleCodec_entries codecs k earlier Hearlier 0%nat []
              (head ++ widx ++ rest)) as [fields' ->]. bind_ok.
  cbn [for_range]. bind_ok. inversion Hhead; subst. cbn [app].
  rewrite PopUint16_app by assumption. bind_ok.
  now rewrite go_index_beyond.
Qed.

Lemma popNamedTupleCodec_forward (codecs : list DecodeEncoder)
    (id : list byte) (k : nat) (wcount earlier head widx rest : list byte) :
  length wcount = 2%nat ->
  backward_entries namedTupleType (length codecs) k earlier ->
  Z.of_nat k < be_value wcount ->
  entry_head namedTupleType head ->
  length widx = 2%nat ->
  Z.of_nat (length codecs) <= be_value widx ->
  popNamedTupleCodec (wcount ++ earlier ++ head ++ widx ++ rest) id codecs
  = Panic (IndexOutOfRange (be_value widx) (length codecs)).
Proof.
  intros Hc Hearlier Hk Hhead Hw Hge. unfold popNamedTupleCodec.
  rewrite PopUint16_app by assumption. bind_ok.
  split_count wcount k.
  destruct (popNamedTupleCodec_entries codecs k earlier Hearlier 0%nat []
              (head ++ widx ++ rest)) as [fields' ->]. bind_ok.
  cbn [for_range]. bind_ok. inversion Hhead; subst.
  rewrite <- !app_assoc, PopString_app by assumption. bind_ok.
  rewrite PopUint16_app by assumption. bind_ok.
  now rewrite go_index_beyond.
Qed.

Lemma popObjectCodec_forward (codecs : list DecodeEncoder) (id : list byte)
    (k : nat) (wcount earlier head widx rest : list byte) :
  length wcount = 2%nat ->
  backward_entries objectType (length codecs) k earlier ->
  Z.of_nat k < be_value wcount ->
  entry_head objectType head ->
  length widx = 2%nat ->
  Z.of_nat (length codecs) <= be_value widx ->
  popObjectCodec (wcount ++ earlier ++ head ++ widx ++ rest) id codecs
  = Panic (IndexOutOfRange (be_value widx) (length codecs)).
Proof.
  intros Hc Hearlier Hk Hhead Hw Hge. unfold popObjectCodec.
  rewrite PopUint16_app by assumption. bind_ok.
  split_count wcount k.
  destruct (popObjectCodec_entries codecs k earlier Hearlier 0%nat []
              (head ++ widx ++ rest)) as [fields' ->]. bind_ok.
  cbn [for_range]. bind_ok. inversion Hhead; subst.
  rewrite <- !app_comm_cons. cbn [PopUint8]. bind_ok.
  rewrite <- !app_assoc, PopString_app by assumption. bind_ok.
  rewrite PopUint16_app by assumption. bind_ok.
  now rewrite go_index_beyond.
Qed.

Section ForwardReference.
Context `{JSONLib}.

(** C8.  When the descriptors before it have been parsed, a composite
    descriptor (Set, Object, Tuple, NamedTuple or Array) that refers to a
    codec index not below its own position in the stream stops [Pop] with
    the index-out-of-range panic for that index and the length of the codec
    list built so far: the stream is rejected and no codec is read from
    beyond the list. *)
Theorem Pop_forward_reference (n : nat) (stream : list byte)
    (lookup : CodecLookup) (codecs : list DecodeEncoder) (tag : byte)
    (id payload : list byte) (index : Z) :
  parsed n (∅, []) stream (lookup, codecs) (tag :: id ++ payload) ->
  length id = 16%nat ->
  forward_reference n (byte_to_Z tag) payload index ->
  Pop stream = Panic (IndexOutOfRange index n) /\
  (forall lookup', Pop stream <> Ok lookup').
Proof.
  intros Hparsed Hid Hfwd.
  assert (Hpop : Pop stream = Panic (IndexOutOfRange index n)).
  { pose proof (parsed_position _ _ _ _ _ Hparsed) as Hpos.
    cbn [snd length Nat.add] in Hpos. subst n.
    destruct (Pop_parsed _ _ _ _ Hparsed) as (fuel & Hfuel & ->).
    destruct (Pop_loop_turn fuel (lookup, codecs) (tag :: id ++ payload))
      as (fuel' & -> & ->); [discriminate | exact Hfuel |].
    unfold Pop_step. cbn [PopUint8]. bind_ok.
    unfold PopUUID. rewrite <- Hid, popN_app. bind_ok.
    inversion Hfwd as [widx rest Hw Hge Htag
                      | widx wdims dims rest Hw Hd Hdims Hge Htag
                      | tag' k wcount earlier head widx rest
                          Hc Hearlier Hk Hhead Hw Hge Htag]; subst.
    - tag_tests.
      rewrite popSetCodec_forward by assumption. reflexivity.
    - tag_tests.
      rewrite popArrayCodec_forward by assumption. reflexivity.
    - destruct Hhead as [ | wlen name Hwl Hnl | flags wlen name Hwl Hnl].
      + tag_tests.
        rewrite popTupleCodec_forward with (k := k);
          [reflexivity | assumption.. | constructor | assumption | assumption].
      + tag_tests.
        rewrite popNamedTupleCodec_forward with (k := k);
          [reflexivity | assumption.. | now constructor
          | assumption | assumption].
      + tag_tests.
        rewrite popObjectCodec_forward with (k := k);
          [reflexivity | assumption.. | now constructor
          | assumption | assumption]. }
  split; [exact Hpop|]. intros lookup'. rewrite Hpop. discriminate.
Qed.

End ForwardReference.

Lemma Pop_forward_reference_witness :
  Pop (x02 :: base_scalar_id x05
       ++ x02 :: base_scalar_id x01
       ++ x04 :: base_scalar_id xff ++ ([x00; x01] ++ [] ++ [] ++ [x00; x02] ++ []))
  = Panic (IndexOutOfRange 2 2)
  /\ (forall lookup',
        Pop (x02 :: base_scalar_id x05
             ++ x02 :: base_scalar_id x01
             ++ x04 :: base_scalar_id xff
                ++ ([x00; x01] ++ [] ++ [] ++ [x00; x02] ++ []))
        <> Ok lookup').
Proof.
  apply (Pop_forward_reference 2 _
           (<[base_scalar_id x01 := String]>
              (<[base_scalar_id x05 := Int64]> ∅))
           [Int64; String] x04 (base_scalar_id xff)
           ([x00; x01] ++ [] ++ [] ++ [x00; x02] ++ []) 2).
  - eapply parsed_S; [reflexivity|].
    eapply parsed_S; [reflexivity|]. apply parsed_O.
  - reflexivity.
  - apply (forward_entry 2 tupleType 0 [x00; x01] [] [] [x00; x02] []).
    + reflexivity.
    + constructor.
    + reflexivity.
    + constructor.
    + reflexivity.
    + vm_compute. discriminate.
Defined.

(** * Further properties *)

(** ** Optional values *)

(** X1.  Whatever calls of Set and Unset an OptionalBool has seen, from its
    zero value on, Get reports what the last call left: the value of the
    last Set together with true, or false together with false after an
    Unset or when nothing was called.  A value that is not present is
    always reported as false. *)
Theorem OptionalBool_Get_after_calls (calls : list OptionalBool.call) :
  OptionalBool.Get (foldl OptionalBool.apply OptionalBool.zero calls)
  = match last calls with
    | Some (OptionalBool.CallSet v) => (v, true)
    | Some OptionalBool.CallUnset => (false, false)
    | None => (false, false)
    end.
Proof.
  induction calls as [|c calls _] using rev_ind; [reflexivity|].
  rewrite foldl_app, last_snoc. cbn [foldl].
  destruct c; reflexivity.
Qed.

(** X2.  Whatever calls of Set and Unset an OptionalBytes has seen, from
    its zero value on, Get reports a slice as set exactly when that slice is
    not nil: Set with a nil slice acts as Unset, Set with any other slice,
    the empty one too, stores it as set. *)
Theorem OptionalBytes_Get_after_calls (calls : list OptionalBytes.call) :
  OptionalBytes.Get (foldl OptionalBytes.apply OptionalBytes.zero calls)
  = match last calls with
    | Some (OptionalBytes.CallSet (Some b)) => (Some b, true)
    | Some (OptionalBytes.CallSet None) => (None, false)
    | Some OptionalBytes.CallUnset => (None, false)
    | None => (None, false)
    end
  /\ ((OptionalBytes.Get
         (foldl OptionalBytes.apply OptionalBytes.zero calls)).2 = true
      <-> (OptionalBytes.Get
             (foldl OptionalBytes.apply OptionalBytes.zero calls)).1 <> None).
Proof.
  assert (Hget :
    OptionalBytes.Get (foldl OptionalBytes.apply OptionalBytes.zero calls)
    = match last calls with
      | Some (OptionalBytes.CallSet (Some b)) => (Some b, true)
      | Some (OptionalBytes.CallSet None) => (None, false)
      | Some OptionalBytes.CallUnset => (None, false)
      | None => (None, false)
      end).
  { induction calls as [|c calls _] using rev_ind; [reflexivity|].
    rewrite foldl_app, last_snoc. cbn [foldl].
    destruct c as [[b|]|]; reflexivity. }
  split; [exact Hget|]. rewrite Hget.
  destruct (last calls) as [[[b|]|]|]; cbn; split; congruence.
Qed.

(** ** Scalars on the wire *)

Lemma byte_of_Z_add (z k : Z) : byte_of_Z (z + k * 256) = byte_of_Z z.
Proof. unfold byte_of_Z. now rewrite Z.mod_add by lia. Qed.

(** Bytes above the [n] lowest do not enter the representation. *)
Lemma be_bytes_high (n : nat) :
  forall a v, be_bytes n (a * 256 ^ Z.of_nat n + v) = be_bytes n v.
Proof.
  induction n as [|n IH]; intros a v; [reflexivity|].
  cbn [be_bytes]. rewrite Nat2Z.inj_succ, Z.pow_succ_r by lia. f_equal.
  - replace (a * (256 * 256 ^ Z.of_nat n) + v)
      with (v + (a * 256) * 256 ^ Z.of_nat n) by ring.
    rewrite Z.div_add by (apply Z.pow_nonzero; lia).
    apply byte_of_Z_add.
  - replace (a * (256 * 256 ^ Z.of_nat n)) with ((a * 256) * 256 ^ Z.of_nat n)
      by ring.
    apply IH.
Qed.

(** Writing the integer that a byte sequence stands for gives the sequence
    back. *)
Lemma be_bytes_value (l : list byte) : be_bytes (length l) (be_value l) = l.
Proof.
  induction l as [|b l IH]; [reflexivity|].
  cbn [length be_bytes]. rewrite be_value_cons. f_equal.
  - pose proof (be_value_range l) as Hr.
    rewrite Z.div_add_l by lia. rewrite Z.div_small by lia.
    rewrite Z.add_0_r. apply byte_of_to_Z.
  - rewrite be_bytes_high. exact IH.
Qed.

Lemma wrap_unsigned_signed (bits z : Z) :
  0 < bits -> wrap_unsigned bits (wrap_signed bits z) = wrap_unsigned bits z.
Proof.
  intros Hb. unfold wrap_unsigned, wrap_signed.
  destruct (z mod 2 ^ bits <? 2 ^ (bits - 1)).
  - apply Z.mod_mod. apply Z.pow_nonzero; lia.
  - replace (z mod 2 ^ bits - 2 ^ bits)
      with (z mod 2 ^ bits + (-1) * 2 ^ bits) by ring.
    rewrite Z.mod_add by (apply Z.pow_nonzero; lia).
    apply Z.mod_mod. apply Z.pow_nonzero; lia.
Qed.

(** The integer of [n] bytes, taken as signed and then as unsigned again,
    writes as the same bytes. *)
Lemma be_bytes_signed (bits : Z) (n : nat) (w : list byte) :
  length w = n -> bits = 8 * Z.of_nat n -> 0 < bits ->
  be_bytes n (wrap_unsigned bits (wrap_signed bits (be_value w))) = w.
Proof.
  intros <- Hbits Hpos. rewrite wrap_unsigned_signed by assumption.
  unfold wrap_unsigned. rewrite Z.mod_small; [apply be_bytes_value|].
  pose proof (be_value_range w) as Hr.
  replace (2 ^ bits) with (256 ^ Z.of_nat (length w)); [exact Hr|].
  rewrite Hbits. change 256 with (2 ^ 8). rewrite <- Z.pow_mul_r by lia.
  reflexivity.
Qed.

Lemma popUint_app (n : nat) (w rest : list byte) :
  length w = n -> popUint n (w ++ rest) = Ok (be_value w, rest).
Proof.
  intros Hw. unfold popUint. rewrite <- Hw, popN_app. reflexivity.
Qed.

(** X3.  The scalar decoders of fixed width (UUID, Int16, Int32, Int64,
    Float32, Float64) do not look at the length prefix: whatever its four
    bytes say, they read the payload of their width right after it and
    leave the rest; they never fail on a buffer that long.  Encoding the
    decoded value writes the same payload bytes again, after the length
    prefix of the kind. *)
Theorem fixed_width_Decode_Encode (c : DecodeEncoder) (width : nat)
    (wlen payload rest : list byte) :
  (c, width) ∈ fixed_width_codecs ->
  length wlen = 4%nat ->
  length payload = width ->
  exists v : value,
    Decode c (wlen ++ payload ++ rest) = Ok (v, rest) /\
    forall bts,
      Encode c bts v = Ok (bts ++ be_bytes 4 (Z.of_nat width) ++ payload).
Proof.
  intros Hc. unfold fixed_width_codecs in Hc.
  repeat (apply elem_of_cons in Hc; destruct Hc as [Hc|Hc];
          [inversion Hc; subst c width; clear Hc; intros Hw Hp|]);
    [..|now apply elem_of_nil in Hc].
  - exists (VUUID payload). split.
    + cbn [Decode UUID]. unfold UUID_Decode.
      rewrite PopUint32_app by assumption. bind_ok.
      unfold PopUUID. rewrite <- Hp, popN_app. reflexivity.
    + intros bts. cbn [Encode UUID]. unfold UUID_Encode. push_assoc.
      reflexivity.
  - exists (VInt16 (to_int16 (be_value payload))). split.
    + cbn [Decode Int16]. unfold Int16_Decode.
      rewrite PopUint32_app by assumption. bind_ok.
      unfold PopUint16. rewrite popUint_app by assumption. reflexivity.
    + intros bts. cbn [Encode Int16]. unfold Int16_Encode. push_assoc.
      unfold to_uint16, to_int16.
      rewrite (be_bytes_signed 16 2 payload) by (assumption || lia).
      reflexivity.
  - exists (VInt32 (to_int32 (be_value payload))). split.
    + cbn [Decode Int32]. unfold Int32_Decode.
      rewrite PopUint32_app by assumption. bind_ok.
      rewrite PopUint32_app by assumption. reflexivity.
    + intros bts. cbn [Encode Int32]. unfold Int32_Encode. push_assoc.
      unfold to_uint32, to_int32.
      rewrite (be_bytes_signed 32 4 payload) by (assumption || lia).
      reflexivity.
  - exists (VInt64 (to_int64 (be_value payload))). split.
    + cbn [Decode Int64]. unfold Int64_Decode.
      rewrite PopUint32_app by assumption. bind_ok.
      unfold PopUint64. rewrite popUint_app by assumption. reflexivity.
    + intros bts. cbn [Encode Int64]. unfold Int64_Encode. push_assoc.
      unfold to_uint64, to_int64.
      rewrite (be_bytes_signed 64 8 payload) by (assumption || lia).
      reflexivity.
  - exists (VFloat32 (Float32frombits (be_value payload))). split.
    + cbn [Decode Float32]. unfold Float32_Decode.
      rewrite PopUint32_app by assumption. bind_ok.
      rewrite PopUint32_app by assumption. reflexivity.
    + intros bts. cbn [Encode Float32]. unfold Float32_Encode. push_assoc.
      cbn [Float32bits]. rewrite <- (be_bytes_value payload) at 2.
      rewrite Hp. reflexivity.
  - exists (VFloat64 (Float64frombits (be_value payload))). split.
    + cbn [Decode Float64]. unfold Float64_Decode.
      rewrite PopUint32_app by assumption. bind_ok.
      unfold PopUint64. rewrite popUint_app by assumption. reflexivity.
    + intros bts. cbn [Encode Float64]. unfold Float64_Encode. push_assoc.
      cbn [Float64bits]. rewrite <- (be_bytes_value payload) at 2.
      rewrite Hp. reflexivity.
Qed.

Lemma fixed_width_Decode_Encode_witness :
  exists v : value,
    Decode Int32 ([xde; xad; xbe; xef] ++ [xff; xff; xff; xfe] ++ [x2a])
    = Ok (v, [x2a]) /\
    forall bts,
      Encode Int32 bts v
      = Ok (bts ++ be_bytes 4 (Z.of_nat 4) ++ [xff; xff; xff; xfe]).
Proof.
  apply (fixed_width_Decode_Encode Int32 4 [xde; xad; xbe; xef]
           [xff; xff; xff; xfe] [x2a]).
  - unfold fixed_width_codecs.
    apply elem_of_cons. right. apply elem_of_cons. right.
    apply elem_of_cons. now left.
  - reflexivity.
  - reflexivity.
Defined.

(** ** Instants and durations on the wire *)

Lemma wrap_signed_range (bits z : Z) :
  0 < bits -> in_signed bits (wrap_signed bits z).
Proof.
  intros Hb. unfold in_signed, wrap_signed.
  assert (E : 2 ^ bits = 2 * 2 ^ (bits - 1)).
  { rewrite <- Z.pow_succ_r by lia. f_equal. lia. }
  pose proof (Z.mod_pos_bound z (2 ^ bits) ltac:(apply Z.pow_pos_nonneg; lia)).
  destruct (Z.ltb_spec (z mod 2 ^ bits) (2 ^ (bits - 1))); lia.
Qed.

Lemma DateTime_Encode_micro (bts : list byte) (sec ns : Z) :
  0 <= ns < 1000000000 ->
  DateTime_Encode bts (VTime (mkTime sec ns))
  = Ok (PushUint64 (PushUint32 bts 8)
          (to_uint64
             (to_int64 (to_int64 (to_int64 (sec - 946684800) * 1000000)
                        + ns / 1000)))).
Proof.
  intros Hns. unfold DateTime_Encode, Time_Unix. cbn [unixSec].
  rewrite time_Unix_normal by lia.
  unfold Time_Sub. cbn [unixSec nsec].
  replace ((sec - sec) * 1000000000 + (ns - 0)) with ns by ring.
  destruct (Z.ltb_spec ns min_int64); [unfold min_int64 in *; lia|].
  destruct (Z.ltb_spec max_int64 ns); [unfold max_int64 in *; lia|].
  rewrite Z.quot_div_nonneg by lia. reflexivity.
Qed.

(** X4.  DateTime decode reads the eight payload bytes as a signed count
    of microseconds since 2000-01-01T00:00:00Z and gives, for every such
    count, negative ones too, the instant that lies that many microseconds
    from that date: the seconds are rounded down and the nanoseconds lie
    between 0 and 999999000.  The length prefix is not looked at. *)
Theorem DateTime_Decode_wire (wlen w rest : list byte) :
  length wlen = 4%nat ->
  length w = 8%nat ->
  DateTime_Decode (wlen ++ w ++ rest)
  = Ok (VTime (mkTime (946684800 + to_int64 (be_value w) / 1000000)
                      (1000 * (to_int64 (be_value w) mod 1000000))),
        rest).
Proof.
  intros Hwlen Hw. unfold DateTime_Decode.
  rewrite PopUint32_app by assumption. bind_ok.
  unfold PopUint64. rewrite popUint_app by assumption. bind_ok.
  unfold Time_UTC.
  pose proof (wrap_signed_range 64 (be_value w) ltac:(lia)) as Hx.
  fold to_int64 in Hx. set (x := to_int64 (be_value w)) in *.
  unfold in_signed in Hx.
  pose proof (Z.quot_rem' x 1000000) as Hqr.
  pose proof (Z.rem_bound_abs x 1000000 ltac:(lia)) as Habs.
  pose proof (Z.div_mod x 1000000 ltac:(lia)) as Hdm.
  pose proof (Z.mod_pos_bound x 1000000 ltac:(lia)) as Hmod.
  destruct (Z.neg_nonneg_cases x) as [Hneg|Hpos].
  - pose proof (Z.rem_nonpos x 1000000 ltac:(lia) ltac:(lia)) as Hsign.
    destruct (Z.eq_dec (x mod 1000000) 0) as [Hz|Hnz].
    + assert (Hq : x ÷ 1000000 = x / 1000000) by lia.
      assert (Hr : Z.rem x 1000000 = 0) by lia.
      rewrite Hq, Hr, Hz.
      rewrite !to_int64_small by (unfold in_signed; lia).
      rewrite time_Unix_normal by lia. reflexivity.
    + assert (Hq : x ÷ 1000000 = x / 1000000 + 1) by lia.
      assert (Hr : Z.rem x 1000000 = x mod 1000000 - 1000000) by lia.
      rewrite Hq, Hr.
      rewrite !to_int64_small by (unfold in_signed; lia).
      rewrite time_Unix_borrow by (unfold in_signed; lia).
      repeat f_equal; lia.
  - pose proof (Z.rem_nonneg x 1000000 ltac:(lia) Hpos) as Hsign.
    assert (Hq : x ÷ 1000000 = x / 1000000) by lia.
    assert (Hr : Z.rem x 1000000 = x mod 1000000) by lia.
    rewrite Hq, Hr.
    rewrite !to_int64_small by (unfold in_signed; lia).
    rewrite time_Unix_normal by lia. reflexivity.
Qed.

Lemma DateTime_Decode_wire_witness :
  DateTime_Decode ([x00; x00; x00; x08]
                   ++ [xff; xff; xff; xff; xff; xff; xff; xfd] ++ [x2a])
  = Ok (VTime (mkTime
                 (946684800
                  + to_int64 (be_value [xff; xff; xff; xff; xff; xff; xff; xfd])
                    / 1000000)
                 (1000
                  * (to_int64 (be_value [xff; xff; xff; xff; xff; xff; xff; xfd])
                     mod 1000000))),
        [x2a]).
Proof.
  apply DateTime_Decode_wire; reflexivity.
Defined.

(** X5.  Encoding an instant and decoding the result gives the instant cut
    down to whole microseconds: the same second, and the nanoseconds rounded
    down to a multiple of 1000, before 2000-01-01 as well as after.  This
    holds for every instant whose microsecond offset from 2000-01-01 fits a
    signed 64-bit integer. *)
Theorem DateTime_Encode_Decode (sec ns : Z) :
  0 <= ns < 1000000000 ->
  in_signed 64 ((sec - 946684800) * 1000000 + ns / 1000) ->
  exists out : list byte,
    (forall bts, Encode DateTime bts (VTime (mkTime sec ns)) = Ok (bts ++ out))
    /\ (forall rest,
          Decode DateTime (out ++ rest)
          = Ok (VTime (mkTime sec (1000 * (ns / 1000))), rest)).
Proof.
  intros Hns Hx.
  assert (Hmicro : 0 <= ns / 1000 < 1000000).
  { split; [apply Z.div_pos; lia | apply Z.div_lt_upper_bound; lia]. }
  destruct (DateTime_roundtrip sec (ns / 1000) Hmicro Hx) as (out & He & Hd).
  exists out. split; [|exact Hd].
  intros bts. rewrite <- (He bts). cbn [Encode DateTime].
  rewrite !DateTime_Encode_micro by lia.
  rewrite (Z.mul_comm 1000 (ns / 1000)), Z.div_mul by lia. reflexivity.
Qed.

Lemma DateTime_Encode_Decode_witness :
  exists out : list byte,
    (forall bts,
       Encode DateTime bts (VTime (mkTime 946684799 999999999))
       = Ok (bts ++ out))
    /\ (forall rest,
          Decode DateTime (out ++ rest)
          = Ok (VTime (mkTime 946684799 (1000 * (999999999 / 1000))), rest)).
Proof.
  apply (DateTime_Encode_Decode 946684799 999999999).
  - lia.
  - unfold in_signed. vm_compute. split; [discriminate | reflexivity].
Defined.

(** X6.  Encoding a duration and decoding the result gives the duration
    cut down to whole microseconds toward zero: the remainder of the
    division by 1000 nanoseconds is dropped, so a negative duration moves
    up and a positive one down. *)
Theorem Duration_Encode_Decode (duration : Z) :
  in_signed 64 duration ->
  exists out : list byte,
    (forall bts, Encode Duration bts (VDuration duration) = Ok (bts ++ out))
    /\ (forall rest,
          Decode Duration (out ++ rest)
          = Ok (VDuration (duration - Z.rem duration 1000), rest)).
Proof.
  intros Hd. destruct (Duration_truncates duration Hd) as (out & He & Hdec).
  exists out. split; [exact He|]. intros rest. rewrite Hdec.
  pose proof (Z.quot_rem' duration 1000).
  repeat f_equal. lia.
Qed.

Lemma Duration_Encode_Decode_witness :
  exists out : list byte,
    (forall bts, Encode Duration bts (VDuration (-1999)) = Ok (bts ++ out))
    /\ (forall rest,
          Decode Duration (out ++ rest)
          = Ok (VDuration (-1999 - Z.rem (-1999) 1000), rest)).
Proof.
  apply (Duration_Encode_Decode (-1999)). unfold in_signed. lia.
Defined.

(** X7.  Duration decode reads a signed count of microseconds, skips the
    two reserved words whatever they hold, and does not look at the length
    prefix.  When the count times 1000 fits a signed 64-bit integer the
    result is exactly that many nanoseconds, and encoding it writes the
    same count again, with the length 16 and both reserved words zero. *)
Theorem Duration_Decode_Encode (wlen w r1 r2 rest : list byte) :
  length wlen = 4%nat ->
  length w = 8%nat ->
  length r1 = 4%nat ->
  length r2 = 4%nat ->
  in_signed 64 (1000 * to_int64 (be_value w)) ->
  Duration_Decode (wlen ++ w ++ r1 ++ r2 ++ rest)
  = Ok (VDuration (1000 * to_int64 (be_value w)), rest)
  /\ (forall bts,
        Duration_Encode bts (VDuration (1000 * to_int64 (be_value w)))
        = Ok (bts ++ be_bytes 4 16 ++ w ++ be_bytes 4 0 ++ be_bytes 4 0)).
Proof.
  intros Hwlen Hw Hr1 Hr2 Hfit. split.
  - unfold Duration_Decode.
    rewrite PopUint32_app by assumption. bind_ok.
    unfold PopUint64. rewrite popUint_app by assumption. bind_ok.
    rewrite PopUint32_app by assumption. bind_ok.
    rewrite PopUint32_app by assumption. bind_ok.
    rewrite (Z.mul_comm _ 1000), to_int64_small by assumption. reflexivity.
  - intros bts. unfold Duration_Encode.
    rewrite (Z.mul_comm 1000), Z.quot_mul by lia.
    unfold to_uint64, to_int64.
    push_assoc.
    rewrite (be_bytes_signed 64 8 w) by (assumption || lia). reflexivity.
Qed.

Lemma Duration_Decode_Encode_witness :
  Duration_Decode ([x00; x00; x00; x10]
                   ++ [xff; xff; xff; xff; xff; xff; xff; xfe]
                   ++ [xaa; xaa; xaa; xaa] ++ [xbb; xbb; xbb; xbb] ++ [x2a])
  = Ok (VDuration
          (1000 * to_int64 (be_value [xff; xff; xff; xff; xff; xff; xff; xfe])),
        [x2a])
  /\ (forall bts,
        Duration_Encode bts
          (VDuration
             (1000 * to_int64 (be_value [xff; xff; xff; xff; xff; xff; xff; xfe])))
        = Ok (bts ++ be_bytes 4 16
              ++ [xff; xff; xff; xff; xff; xff; xff; xfe]
              ++ be_bytes 4 0 ++ be_bytes 4 0)).
Proof.
  apply Duration_Decode_Encode; try reflexivity.
  unfold in_signed. vm_compute. split; [discriminate | reflexivity].
Defined.

(** A count of microseconds too large for 64 bits of nanoseconds wraps
    around: 2^60 microseconds decode as the smallest duration. *)
Example Duration_Decode_overflow :
  Duration_Decode (be_bytes 4 16 ++ be_bytes 8 (2 ^ 60)
                   ++ be_bytes 4 0 ++ be_bytes 4 0)
  = Ok (VDuration min_int64, []).
Proof. reflexivity. Qed.

(** ** JSON decode *)

Section JSONProperties.
Context `{JSONLib}.

(** X8.  JSON decode takes the byte after the length prefix as the format
    without looking at it, hands exactly the next length-1 bytes to the
    JSON parser and leaves the rest: a value that the parser gives is the
    result, and a failure of the parser is the failure of the decoder. *)
Theorem JSON_Decode_frame (format : byte) (text rest : list byte) :
  1 + Z.of_nat (length text) < 2 ^ 32 ->
  JSON_Decode (be_bytes 4 (1 + Z.of_nat (length text))
               ++ format :: text ++ rest)
  = match json_Unmarshal text with
    | Ok val => Ok (val, rest)
    | Panic p => Panic p
    end.
Proof.
  intros Hlen. unfold JSON_Decode.
  rewrite PopUint32_const by lia. bind_ok. cbn [PopUint8]. bind_ok.
  replace (1 + Z.of_nat (length text) - 1) with (Z.of_nat (length text)) by ring.
  unfold to_uint32, wrap_unsigned. rewrite Z.mod_small by lia.
  rewrite Nat2Z.id, popN_app. bind_ok.
  destruct (json_Unmarshal text); reflexivity.
Qed.

(** X9.  A JSON value whose length prefix is zero stops the decoder: the
    length of the text, one less than the prefix, wraps around to 2^32-1,
    more than any buffer shorter than that holds. *)
Theorem JSON_Decode_zero_length (wlen : list byte) (format : byte)
    (rest : list byte) :
  length wlen = 4%nat ->
  be_value wlen = 0 ->
  Z.of_nat (length rest) < 2 ^ 32 - 1 ->
  JSON_Decode (wlen ++ format :: rest) = Panic SliceBoundsOutOfRange.
Proof.
  intros Hw Hz Hrest. unfold JSON_Decode.
  rewrite PopUint32_app by assumption. bind_ok. cbn [PopUint8]. bind_ok.
  rewrite Hz. unfold popN.
  destruct (decide (Z.to_nat (to_uint32 (0 - 1)) <= length rest)%nat)
    as [Hle|_]; [|reflexivity].
  exfalso. change (to_uint32 (0 - 1)) with (2 ^ 32 - 1) in Hle. lia.
Qed.

End JSONProperties.

Lemma JSON_Decode_frame_witness :
  JSON_Decode (be_bytes 4 (1 + Z.of_nat (length null_text))
               ++ x07 :: null_text ++ [x2a])
  = match json_Unmarshal null_text with
    | Ok val => Ok (val, [x2a])
    | Panic p => Panic p
    end.
Proof.
  apply (JSON_Decode_frame x07 null_text [x2a]).
  vm_compute. reflexivity.
Defined.

Lemma JSON_Decode_zero_length_witness :
  JSON_Decode ([x00; x00; x00; x00] ++ x01 :: null_text)
  = Panic SliceBoundsOutOfRange.
Proof.
  apply (JSON_Decode_zero_length [x00; x00; x00; x00] x01 null_text).
  - reflexivity.
  - reflexivity.
  - vm_compute. reflexivity.
Defined.

(** ** Tuples over the wire *)

Lemma for_range_ext {S : Type} (b1 b2 : nat -> S -> result S) (n : nat) :
  forall start s,
    (forall i s, (start <= i < start + n)%nat -> b1 i s = b2 i s) ->
    for_range start n b1 s = for_range start n b2 s.
Proof.
  induction n as [|n IH]; intros start s Hext; [reflexivity|].
  cbn [for_range]. rewrite Hext by lia.
  destruct (b2 start s) as [s1|p]; bind_ok; [|reflexivity].
  apply IH. intros i s' Hi. apply Hext. lia.
Qed.

Lemma PopBytes_envelope (p rest : list byte) :
  Z.of_nat (length p) < 2 ^ 32 ->
  PopBytes (envelope p ++ rest) = Ok (p, rest).
Proof.
  intros Hlen. unfold envelope. rewrite <- app_assoc.
  apply PopBytes_app; [apply length_be_bytes|].
  rewrite be_value_bytes. apply Z.mod_small. change (256 ^ Z.of_nat 4) with (2 ^ 32).
  lia.
Qed.

Lemma to_uint32_small (z : Z) : 0 <= z < 2 ^ 32 -> to_uint32 z = z.
Proof. intros Hz. apply Z.mod_small. exact Hz. Qed.

Lemma to_int32_small (z : Z) : - 2 ^ 31 <= z < 2 ^ 31 -> to_int32 z = z.
Proof. intros Hz. apply wrap_signed_small; [lia | exact Hz]. Qed.

Lemma length_tuple_payload (encs : list (list byte)) :
  (4 + 4 * length encs <= length (tuple_payload encs))%nat.
Proof.
  unfold tuple_payload. rewrite length_app, length_be_bytes.
  induction encs as [|e encs IH]; cbn [fmap list_fmap concat length]; [lia|].
  rewrite !length_app, length_be_bytes. cbn [fmap] in IH. lia.
Qed.

(** The element loop of Tuple encode over the declared fields. *)
Lemma Tuple_Encode_loop (fields : list DecodeEncoder) (xs : list value)
    (encs : list (list byte)) :
  Forall3 wire_of fields xs encs ->
  forall (preF : list DecodeEncoder) (preX : list value) (tmp : list byte),
    length preF = length preX ->
    for_range (length preF) (length fields)
      (fun i tmp =>
         field ← go_index (preF ++ fields) (Z.of_nat i);
         x ← go_index (preX ++ xs) (Z.of_nat i);
         Encode field (PushUint32 tmp 0) x)
      tmp
    = Ok (tmp ++ concat ((fun e => be_bytes 4 0 ++ e) <$> encs)).
Proof.
  induction 1 as [|c x e fields xs encs [Happ _] _ IH]; intros preF preX tmp Hlen.
  - cbn. now rewrite app_nil_r.
  - cbn [length for_range fmap list_fmap concat]. bind_ok.
    rewrite go_index_middle. bind_ok.
    rewrite Hlen, go_index_middle. bind_ok.
    rewrite (Happ (PushUint32 tmp 0)). bind_ok.
    specialize (IH (preF ++ [c]) (preX ++ [x]) ((PushUint32 tmp 0) ++ e)).
    rewrite length_app, Nat.add_1_r, <- !app_assoc in IH. cbn [app] in IH.
    rewrite <- Hlen, IH by (rewrite !length_app; cbn; lia).
    unfold PushUint32. rewrite <- !app_assoc. reflexivity.
Qed.

(** The element loop of Tuple decode over the declared fields. *)
Lemma Tuple_Decode_loop (fields : list DecodeEncoder) (xs : list value)
    (encs : list (list byte)) :
  Forall3 wire_of fields xs encs ->
  forall (preF : list DecodeEncoder) (filled : list value) (tail : list byte),
    length preF = length filled ->
    for_range (length preF) (length fields)
      (fun i '(out, buf) =>
         '(_, buf) ← PopUint32 buf;
         field ← go_index (preF ++ fields) (Z.of_nat i);
         '(x, buf) ← Decode field buf;
         Ok (<[i := x]> out, buf))
      (filled ++ replicate (length fields) VNil,
       concat ((fun e => be_bytes 4 0 ++ e) <$> encs) ++ tail)
    = Ok (filled ++ xs, tail).
Proof.
  induction 1 as [|c x e fields xs encs [_ Hdec] _ IH];
    intros preF filled tail Hlen.
  - cbn. now rewrite !app_nil_r.
  - cbn [length for_range fmap list_fmap concat replicate]. bind_ok.
    rewrite <- !app_assoc. rewrite PopUint32_const by lia. bind_ok.
    rewrite go_index_middle. bind_ok. rewrite Hdec. bind_ok.
    replace (<[length preF := x]> (filled ++ VNil :: replicate (length fields) VNil))
      with (filled ++ x :: replicate (length fields) VNil).
    + specialize (IH (preF ++ [c]) (filled ++ [x]) tail).
      rewrite length_app, Nat.add_1_r, <- !app_assoc in IH. cbn [app] in IH.
      rewrite IH by (rewrite length_app; cbn; lia). reflexivity.
    + rewrite Hlen. rewrite <- (Nat.add_0_r (length filled)) at 1.
      rewrite insert_app_r. reflexivity.
Qed.

(** X10.  A tuple makes the trip over the wire: when each element is a
    value that its field codec encodes and decodes back, and the payload
    fits the 32-bit length of the envelope, Tuple encode writes the
    envelope of the element count and, per element, a reserved word and the
    element, and Tuple decode reads the elements back in order and leaves
    what follows the envelope.  The tuple without fields is included. *)
Theorem Tuple_roundtrip (fields : list DecodeEncoder) (xs : list value)
    (encs : list (list byte)) :
  Forall3 wire_of fields xs encs ->
  Z.of_nat (length (tuple_payload encs)) < 2 ^ 32 ->
  (forall bts,
     Tuple_Encode fields bts (VSlice xs)
     = Ok (bts ++ envelope (tuple_payload encs)))
  /\ (forall rest,
        Tuple_Decode fields (envelope (tuple_payload encs) ++ rest)
        = Ok (VTuple xs, rest)).
Proof.
  intros Hall Hsize.
  pose proof (length_tuple_payload encs) as Hmin.
  pose proof (Forall3_length_lm _ _ _ _ Hall) as HlenX.
  pose proof (Forall3_length_lr _ _ _ _ Hall) as HlenE.
  assert (Hn : Z.of_nat (length fields) < 2 ^ 30) by (rewrite HlenE; lia).
  split.
  - intros bts. unfold Tuple_Encode. cbv zeta.
    destruct (decide (length fields = 0%nat)) as [Hz|Hnz].
    + destruct fields; [|discriminate]. inversion Hall; subst.
      unfold PushUint32. rewrite <- app_assoc. reflexivity.
    + pose proof (Tuple_Encode_loop fields xs encs Hall [] []
                    (PushUint32 [] (to_uint32 (Z.of_nat (length fields))))
                    eq_refl) as Hloop.
      cbn [length app] in Hloop. rewrite Hloop. bind_ok.
      rewrite (to_uint32_small (Z.of_nat (length fields))) by lia.
      unfold PushUint32. cbn [app].
      fold (tuple_payload encs) in *.
      replace (be_bytes 4 (Z.of_nat (length fields))
               ++ concat ((fun e => be_bytes 4 0 ++ e) <$> encs))
        with (tuple_payload encs)
        by (unfold tuple_payload; now rewrite HlenE).
      rewrite to_uint32_small by lia.
      unfold envelope. rewrite <- app_assoc. reflexivity.
  - intros rest. unfold Tuple_Decode.
    rewrite PopBytes_envelope by assumption. bind_ok.
    unfold tuple_payload. rewrite PopUint32_const by lia. bind_ok.
    rewrite to_int32_small by lia.
    rewrite <- HlenE.
    unfold go_make.
    destruct (Z.ltb_spec (Z.of_nat (length fields)) 0); [lia|]. bind_ok.
    rewrite Nat2Z.id.
    pose proof (Tuple_Decode_loop fields xs encs Hall [] [] [] eq_refl) as Hloop.
    cbn [length app] in Hloop. rewrite app_nil_r in Hloop.
    rewrite Hloop. reflexivity.
Qed.

Lemma roundtrips_wire_of (c : DecodeEncoder) (x : value) (e : list byte) :
  roundtrips c x -> Encode c [] x = Ok e -> wire_of c x e.
Proof.
  intros (out & He & Hd) Henc. rewrite (He []) in Henc. cbn [app] in Henc.
  inversion Henc; subst e. split; assumption.
Qed.

Lemma Tuple_roundtrip_witness :
  (forall bts,
     Tuple_Encode [Int64; Bool] bts (VSlice [VInt64 (-2); VBool true])
     = Ok (bts ++ envelope (tuple_payload
                              [be_bytes 4 8 ++ be_bytes 8 (to_uint64 (-2));
                               be_bytes 4 1 ++ be_bytes 1 1])))
  /\ (forall rest,
        Tuple_Decode [Int64; Bool]
          (envelope (tuple_payload
                       [be_bytes 4 8 ++ be_bytes 8 (to_uint64 (-2));
                        be_bytes 4 1 ++ be_bytes 1 1]) ++ rest)
        = Ok (VTuple [VInt64 (-2); VBool true], rest)).
Proof.
  apply Tuple_roundtrip.
  - constructor.
    + apply roundtrips_wire_of; [|reflexivity].
      apply Int64_roundtrip. unfold in_signed. lia.
    + constructor; [|constructor].
      apply roundtrips_wire_of; [|reflexivity]. apply Bool_roundtrip.
  - vm_compute. reflexivity.
Defined.

(** The element loop of NamedTuple encode, with every declared name in the
    input mapping. *)
Lemma NamedTuple_Encode_loop_ok (in_ : gmap string value)
    (fields : list namedTupleField) (encs : list (list byte)) :
  Forall2 (fun f e => exists x, in_ !! nt_name f = Some x
                                /\ wire_of (nt_codec f) x e) fields encs ->
  forall (pre : list namedTupleField) (tmp : list byte),
    for_range (length pre) (length fields)
      (fun i tmp =>
         field ← go_index (pre ++ fields) (Z.of_nat i);
         Encode (nt_codec field) (PushUint32 tmp 0)
           (go_map_index in_ (nt_name field)))
      tmp
    = Ok (tmp ++ concat ((fun e => be_bytes 4 0 ++ e) <$> encs)).
Proof.
  induction 1 as [|f e fields encs (x & Hx & Happ & _) _ IH]; intros pre tmp.
  - cbn. now rewrite app_nil_r.
  - cbn [length for_range fmap list_fmap concat]. bind_ok.
    rewrite go_index_middle. bind_ok.
    replace (go_map_index in_ (nt_name f)) with x
      by (unfold go_map_index; now rewrite Hx).
    rewrite (Happ (PushUint32 tmp 0)). bind_ok.
    specialize (IH (pre ++ [f]) ((PushUint32 tmp 0) ++ e)).
    rewrite length_app, Nat.add_1_r, <- !app_assoc in IH. cbn [app] in IH.
    rewrite IH. unfold PushUint32. rewrite <- !app_assoc. reflexivity.
Qed.

(** The element loop of NamedTuple decode: the names met so far carry the
    values of the input mapping. *)
Lemma NamedTuple_Decode_loop_ok (in_ : gmap string value)
    (fields : list namedTupleField) (encs : list (list byte)) :
  Forall2 (fun f e => exists x, in_ !! nt_name f = Some x
                                /\ wire_of (nt_codec f) x e) fields encs ->
  forall (pre : list namedTupleField) (out : gmap string value)
         (tail : list byte),
    (forall k, out !! k
               = if decide (k ∈ nt_name <$> pre) then in_ !! k else None) ->
    exists out' : gmap string value,
      for_range (length pre) (length fields)
        (fun i '(out, buf) =>
           '(_, buf) ← PopUint32 buf;
           field ← go_index (pre ++ fields) (Z.of_nat i);
           '(x, buf) ← Decode (nt_codec field) buf;
           Ok (<[nt_name field := x]> out, buf))
        (out, concat ((fun e => be_bytes 4 0 ++ e) <$> encs) ++ tail)
      = Ok (out', tail)
      /\ (forall k, out' !! k
                    = if decide (k ∈ nt_name <$> (pre ++ fields))
                      then in_ !! k else None).
Proof.
  induction 1 as [|f e fields encs (x & Hx & _ & Hdec) _ IH];
    intros pre out tail Hout.
  - exists out. split; [reflexivity|]. now rewrite app_nil_r.
  - cbn [length for_range fmap list_fmap concat]. bind_ok.
    rewrite <- !app_assoc. rewrite PopUint32_const by lia. bind_ok.
    rewrite go_index_middle. bind_ok. rewrite Hdec. bind_ok.
    specialize (IH (pre ++ [f]) (<[nt_name f := x]> out) tail).
    rewrite length_app, Nat.add_1_r, <- !app_assoc in IH. cbn [app] in IH.
    apply IH. intros k. rewrite fmap_app. cbn [fmap list_fmap].
    destruct (decide (k = nt_name f)) as [->|Hne].
    + rewrite lookup_insert_eq, Hx.
      destruct (decide _) as [_|Hn]; [reflexivity|].
      exfalso. apply Hn. apply elem_of_app. right. apply list_elem_of_singleton.
      reflexivity.
    + rewrite lookup_insert_ne by congruence. rewrite Hout.
      destruct (decide (k ∈ nt_name <$> pre)) as [Hin|Hnin];
        destruct (decide (k ∈ (nt_name <$> pre) ++ [nt_name f])) as [Hin'|Hnin'];
        try reflexivity.
      * exfalso. apply Hnin'. apply elem_of_app. now left.
      * exfalso. apply elem_of_app in Hin' as [Hin'|Hin']; [contradiction|].
        apply list_elem_of_singleton in Hin'. contradiction.
Qed.

(** X11.  A named tuple makes the trip over the wire: when the input
    mapping has, under the name of every declared field, a value that the
    codec of the field encodes and decodes back, and the payload fits the
    32-bit length of the envelope, NamedTuple encode writes the fields in
    declared order and NamedTuple decode reads back a mapping that has
    exactly the declared names, each with its value of the input mapping.
    Keys of the input mapping that are not declared are not written. *)
Theorem NamedTuple_roundtrip (fields : list namedTupleField)
    (in_ : gmap string value) (encs : list (list byte)) :
  Forall2 (fun f e => exists x, in_ !! nt_name f = Some x
                                /\ wire_of (nt_codec f) x e) fields encs ->
  Z.of_nat (length (tuple_payload encs)) < 2 ^ 32 ->
  (forall bts,
     NamedTuple_Encode fields bts (VMap in_)
     = Ok (bts ++ envelope (tuple_payload encs)))
  /\ (forall rest,
        exists out : gmap string value,
          NamedTuple_Decode fields (envelope (tuple_payload encs) ++ rest)
          = Ok (VNamedTuple out, rest)
          /\ (forall k, out !! k
                        = if decide (k ∈ nt_name <$> fields)
                          then in_ !! k else None)).
Proof.
  intros Hall Hsize.
  pose proof (length_tuple_payload encs) as Hmin.
  pose proof (Forall2_length _ _ _ Hall) as HlenE.
  assert (Hn : Z.of_nat (length fields) < 2 ^ 30) by (rewrite HlenE; lia).
  split.
  - intros bts. unfold NamedTuple_Encode. cbv zeta.
    pose proof (NamedTuple_Encode_loop_ok in_ fields encs Hall []
                  (PushUint32 [] (to_uint32 (Z.of_nat (length fields)))))
      as Hloop.
    cbn [length app] in Hloop. rewrite Hloop. bind_ok.
    rewrite (to_uint32_small (Z.of_nat (length fields))) by lia.
    unfold PushUint32. cbn [app].
    replace (be_bytes 4 (Z.of_nat (length fields))
             ++ concat ((fun e => be_bytes 4 0 ++ e) <$> encs))
      with (tuple_payload encs)
      by (unfold tuple_payload; now rewrite HlenE).
    rewrite to_uint32_small by lia.
    unfold envelope. rewrite <- app_assoc. reflexivity.
  - intros rest. unfold NamedTuple_Decode.
    rewrite PopBytes_envelope by assumption. bind_ok.
    unfold tuple_payload. rewrite PopUint32_const by lia. bind_ok.
    rewrite to_int32_small by lia.
    rewrite <- HlenE, Nat2Z.id.
    destruct (NamedTuple_Decode_loop_ok in_ fields encs Hall [] ∅ [])
      as (out & Hloop & Hout).
    { intros k. rewrite lookup_empty. cbn [fmap list_fmap].
      destruct (decide (k ∈ [])) as [Hin|_]; [|reflexivity].
      now apply elem_of_nil in Hin. }
    cbn [length app] in Hloop. rewrite app_nil_r in Hloop.
    exists out. rewrite Hloop. split; [reflexivity | exact Hout].
Qed.

Lemma NamedTuple_roundtrip_witness :
  (forall bts,
     NamedTuple_Encode
       [mkNamedTupleField "n" Int64; mkNamedTupleField "ok" Bool] bts
       (VMap (<["n"%string := VInt64 7]>
                (<["ok"%string := VBool false]>
                   (<["other"%string := VNil]> (∅ : gmap string value)))))
     = Ok (bts ++ envelope (tuple_payload
                              [be_bytes 4 8 ++ be_bytes 8 7;
                               be_bytes 4 1 ++ be_bytes 1 0])))
  /\ (forall rest,
        exists out : gmap string value,
          NamedTuple_Decode
            [mkNamedTupleField "n" Int64; mkNamedTupleField "ok" Bool]
            (envelope (tuple_payload
                         [be_bytes 4 8 ++ be_bytes 8 7;
                          be_bytes 4 1 ++ be_bytes 1 0]) ++ rest)
          = Ok (VNamedTuple out, rest)
          /\ (forall k,
                out !! k
                = if decide (k ∈ nt_name <$>
                               [mkNamedTupleField "n" Int64;
                                mkNamedTupleField "ok" Bool])
                  then (<["n"%string := VInt64 7]>
                          (<["ok"%string := VBool false]>
                             (<["other"%string := VNil]> (∅ : gmap string value)))) !! k
                  else None)).
Proof.
  apply NamedTuple_roundtrip.
  - constructor.
    + exists (VInt64 7). split; [reflexivity|].
      apply roundtrips_wire_of; [|reflexivity].
      apply Int64_roundtrip. unfold in_signed. lia.
    + constructor; [|constructor].
      exists (VBool false). split; [reflexivity|].
      apply roundtrips_wire_of; [|reflexivity]. apply Bool_roundtrip.
  - vm_compute. reflexivity.
Defined.

(** ** Arrays over the wire *)

Lemma wire_of_decodes_seq (child : DecodeEncoder) (xs : list value)
    (encs : list (list byte)) :
  Forall2 (wire_of child) xs encs ->
  forall tail, decodes_seq child (concat encs ++ tail) xs tail.
Proof.
  induction 1 as [|x e xs encs [_ Hdec] _ IH]; intros tail.
  - apply decodes_nil.
  - cbn [concat]. rewrite <- app_assoc.
    eapply decodes_cons; [apply Hdec | apply IH].
Qed.

Lemma wire_of_appends (child : DecodeEncoder) (xs : list value)
    (encs : list (list byte)) :
  Forall2 (wire_of child) xs encs -> Forall2 (appends child) xs encs.
Proof.
  intros Hall. eapply Forall2_impl; [exact Hall|]. now intros x e [Ha _].
Qed.

(** The element loop of Set and Array decode when the slice made for the
    result is longer than the elements at hand. *)
Lemma decode_elems_loop_pad (child : DecodeEncoder) (elems tail : list byte)
    (xs : list value) :
  decodes_seq child elems xs tail ->
  forall filled pad : list value,
    for_range (length filled) (length xs)
      (fun i '(out, buf) =>
         '(x, buf) ← Decode child buf; Ok (<[i := x]> out, buf))
      (filled ++ replicate (length xs) VNil ++ pad, elems)
    = Ok (filled ++ xs ++ pad, tail).
Proof.
  induction 1 as [buf | buf buf1 buf2 x xs Hx Hxs IH]; intros filled pad.
  - reflexivity.
  - cbn [length for_range replicate app]. bind_ok. rewrite Hx. bind_ok.
    replace (<[length filled := x]>
               (filled ++ VNil :: replicate (length xs) VNil ++ pad))
      with (filled ++ x :: replicate (length xs) VNil ++ pad).
    + specialize (IH (filled ++ [x]) pad).
      rewrite length_app, Nat.add_1_r, <- !app_assoc in IH. exact IH.
    + rewrite <- (Nat.add_0_r (length filled)) at 1.
      rewrite insert_app_r. reflexivity.
Qed.

(** What Array encode writes for the elements [encs]. *)
Lemma Array_Encode_bytes (child : DecodeEncoder) (xs : list value)
    (encs : list (list byte)) (bts : list byte) :
  Forall2 (wire_of child) xs encs ->
  Array_Encode child bts (VSlice xs)
  = Ok (bts ++ be_bytes 4 (to_uint32 (Z.of_nat (20 + length (concat encs))))
        ++ (be_bytes 4 1 ++ be_bytes 4 0 ++ be_bytes 4 0
            ++ be_bytes 4 3 ++ be_bytes 4 1 ++ concat encs)).
Proof.
  intros Hall. unfold Array_Encode.
  pose proof (Array_Encode_loop child xs encs (wire_of_appends _ _ _ Hall) [])
    as Hloop.
  cbn [length app] in Hloop. rewrite Hloop. bind_ok.
  unfold PushUint32. rewrite <- !app_assoc. cbn [app].
  rewrite !length_app. reflexivity.
Qed.

Lemma Array_Decode_header (child : DecodeEncoder) (elems rest : list byte) :
  Z.of_nat (20 + length elems) < 2 ^ 32 ->
  Array_Decode child
    ((be_bytes 4 (to_uint32 (Z.of_nat (20 + length elems)))
      ++ (be_bytes 4 1 ++ be_bytes 4 0 ++ be_bytes 4 0
          ++ be_bytes 4 3 ++ be_bytes 4 1 ++ elems)) ++ rest)
  = '(out, buf) ← for_range 0 3
      (fun i '(out, buf) =>
         '(x, buf) ← Decode child buf; Ok (<[i := x]> out, buf))
      ([VNil; VNil; VNil], elems);
    Ok (VArray out, rest).
Proof.
  intros Hsize. unfold Array_Decode.
  rewrite to_uint32_small by lia.
  change (be_bytes 4 (Z.of_nat (20 + length elems))
          ++ be_bytes 4 1 ++ be_bytes 4 0 ++ be_bytes 4 0
             ++ be_bytes 4 3 ++ be_bytes 4 1 ++ elems)
    with (be_bytes 4 (Z.of_nat (length
            (be_bytes 4 1 ++ be_bytes 4 0 ++ be_bytes 4 0
             ++ be_bytes 4 3 ++ be_bytes 4 1 ++ elems)))
          ++ be_bytes 4 1 ++ be_bytes 4 0 ++ be_bytes 4 0
             ++ be_bytes 4 3 ++ be_bytes 4 1 ++ elems).
  fold (envelope (be_bytes 4 1 ++ be_bytes 4 0 ++ be_bytes 4 0
                  ++ be_bytes 4 3 ++ be_bytes 4 1 ++ elems)).
  rewrite PopBytes_envelope by (cbn [length app be_bytes]; lia). bind_ok.
  rewrite PopUint32_const by lia. bind_ok. cbn [Z.eqb].
  rewrite PopUint32_const by lia. bind_ok.
  rewrite PopUint32_const by lia. bind_ok.
  rewrite PopUint32_const by lia. bind_ok.
  rewrite PopUint32_const by lia. bind_ok.
  reflexivity.
Qed.

(** X12.  What Array encode writes for a sequence of three or more
    elements, Array decode reads back as the first three elements only:
    the bounds 3 and 1 on the wire make the decoder stop after three, and
    the encodings of the other elements stay unread inside the envelope.
    A sequence of exactly three elements makes the trip unchanged. *)
Theorem Array_Encode_Decode (child : DecodeEncoder) (xs : list value)
    (encs : list (list byte)) :
  Forall2 (wire_of child) xs encs ->
  (3 <= length xs)%nat ->
  Z.of_nat (20 + length (concat encs)) < 2 ^ 32 ->
  exists out : list byte,
    (forall bts, Array_Encode child bts (VSlice xs) = Ok (bts ++ out))
    /\ (forall rest,
          Array_Decode child (out ++ rest) = Ok (VArray (take 3 xs), rest)).
Proof.
  intros Hall Hlen Hsize.
  eexists. split.
  - intros bts. apply Array_Encode_bytes. exact Hall.
  - intros rest. rewrite Array_Decode_header by assumption.
    pose proof (Forall2_length _ _ _ Hall) as HlenE.
    pose proof (Forall2_take _ _ _ 3 Hall) as Hall3.
    pose proof (wire_of_decodes_seq child _ _ Hall3 (concat (drop 3 encs)))
      as Hseq.
    rewrite <- concat_app, take_drop in Hseq.
    pose proof (decode_elems_loop_pad child _ _ _ Hseq [] []) as Hloop.
    rewrite length_take_le in Hloop by lia.
    cbn [length app replicate] in Hloop. rewrite app_nil_r in Hloop.
    rewrite Hloop. reflexivity.
Qed.

Lemma Array_Encode_Decode_witness :
  exists out : list byte,
    (forall bts,
       Array_Encode Bool bts
         (VSlice [VBool true; VBool false; VBool true; VBool true])
       = Ok (bts ++ out))
    /\ (forall rest,
          Array_Decode Bool (out ++ rest)
          = Ok (VArray (take 3 [VBool true; VBool false; VBool true; VBool true]),
                rest)).
Proof.
  apply (Array_Encode_Decode Bool _
           [be_bytes 4 1 ++ be_bytes 1 1; be_bytes 4 1 ++ be_bytes 1 0;
            be_bytes 4 1 ++ be_bytes 1 1; be_bytes 4 1 ++ be_bytes 1 1]).
  - repeat (constructor;
            [apply roundtrips_wire_of; [apply Bool_roundtrip | reflexivity]|]).
    constructor.
  - cbn. lia.
  - vm_compute. reflexivity.
Defined.

(** X13.  What Array encode writes for a sequence of fewer than three
    elements, Array decode cannot read: after the elements that are there
    the decoder asks the child codec for another one, on an empty buffer.
    With a child codec that stops on the empty buffer, as every scalar
    codec does, decoding fails. *)
Theorem Array_Encode_Decode_short (child : DecodeEncoder) (xs : list value)
    (encs : list (list byte)) :
  Forall2 (wire_of child) xs encs ->
  (length xs < 3)%nat ->
  Z.of_nat (20 + length (concat encs)) < 2 ^ 32 ->
  is_Panic (Decode child []) ->
  exists out : list byte,
    (forall bts, Array_Encode child bts (VSlice xs) = Ok (bts ++ out))
    /\ (forall rest, is_Panic (Array_Decode child (out ++ rest))).
Proof.
  intros Hall Hlen Hsize [p Hp].
  eexists. split.
  - intros bts. apply Array_Encode_bytes. exact Hall.
  - intros rest. rewrite Array_Decode_header by assumption.
    pose proof (wire_of_decodes_seq child _ _ Hall []) as Hseq.
    rewrite app_nil_r in Hseq.
    replace 3%nat with (length xs + S (2 - length xs))%nat by lia.
    rewrite for_range_app.
    pose proof (decode_elems_loop_pad child _ _ _ Hseq []
                  (replicate (3 - length xs) VNil)) as Hloop.
    cbn [length app] in Hloop.
    rewrite <- replicate_add in Hloop.
    replace (length xs + (3 - length xs))%nat with 3%nat in Hloop by lia.
    change (replicate 3 VNil) with [VNil; VNil; VNil] in Hloop.
    rewrite Hloop. bind_ok. cbn [for_range]. bind_ok. rewrite Hp.
    exists p. reflexivity.
Qed.

Lemma Array_Encode_Decode_short_witness :
  exists out : list byte,
    (forall bts,
       Array_Encode Int64 bts (VSlice [VInt64 1; VInt64 2]) = Ok (bts ++ out))
    /\ (forall rest, is_Panic (Array_Decode Int64 (out ++ rest))).
Proof.
  apply (Array_Encode_Decode_short Int64 _
           [be_bytes 4 8 ++ be_bytes 8 1; be_bytes 4 8 ++ be_bytes 8 2]).
  - repeat (constructor;
            [apply roundtrips_wire_of;
             [apply Int64_roundtrip; unfold in_signed; lia | reflexivity]|]).
    constructor.
  - cbn. lia.
  - vm_compute. reflexivity.
  - eexists. reflexivity.
Defined.

(** ** What a composite decoder takes and gives *)

Lemma popN_inv (n : nat) (bts a b : list byte) :
  popN n bts = Ok (a, b) -> bts = a ++ b /\ length a = n.
Proof.
  unfold popN. destruct (decide (n <= length bts)%nat) as [Hle|]; [|discriminate].
  intros E; inversion E; subst. split.
  - now rewrite take_drop.
  - now apply length_take_le.
Qed.

Lemma PopBytes_inv (bts buf rest : list byte) :
  PopBytes bts = Ok (buf, rest) ->
  exists wlen : list byte,
    bts = wlen ++ buf ++ rest /\
    length wlen = 4%nat /\
    be_value wlen = Z.of_nat (length buf).
Proof.
  unfold PopBytes. intros H. inv_bind H.
  unfold PopUint32, popUint in E. inv_bind E. inversion E; subst; clear E.
  apply popN_inv in E0 as [-> Hw]. apply popN_inv in H as [-> Hb].
  exists l0. split; [reflexivity|]. split; [assumption|].
  pose proof (be_value_nonneg l0). lia.
Qed.

Lemma composite_Decode_PopBytes
    (dec : list byte -> result (value * list byte))
    (bts rest : list byte) (v : value) :
  composite_decoder dec ->
  dec bts = Ok (v, rest) ->
  exists buf, PopBytes bts = Ok (buf, rest).
Proof.
  intros Hdec Hrun. destruct Hdec.
  - unfold Set_Decode in Hrun. inv_bind Hrun. inv_bind Hrun.
    destruct (z =? 0).
    + inversion Hrun; subst. eauto.
    + do 6 inv_bind Hrun. inversion Hrun; subst. eauto.
  - unfold Object_Decode in Hrun. do 3 inv_bind Hrun.
    inversion Hrun; subst. eauto.
  - unfold Tuple_Decode in Hrun. do 4 inv_bind Hrun.
    inversion Hrun; subst. eauto.
  - unfold NamedTuple_Decode in Hrun. do 3 inv_bind Hrun.
    inversion Hrun; subst. eauto.
  - unfold Array_Decode in Hrun. inv_bind Hrun. inv_bind Hrun.
    destruct (z =? 0).
    + inversion Hrun; subst. eauto.
    + do 6 inv_bind Hrun. inversion Hrun; subst. eauto.
Qed.

(** X14.  A composite decoder (Set, Object, Tuple, NamedTuple, Array) that
    returns has taken exactly one envelope from the buffer: the four bytes
    of the length and as many payload bytes as the length says, however
    many of them the elements inside needed.  Bytes of the payload that no
    element reads are dropped without complaint. *)
Theorem composite_Decode_frame
    (dec : list byte -> result (value * list byte))
    (bts rest : list byte) (v : value) :
  composite_decoder dec ->
  dec bts = Ok (v, rest) ->
  exists wlen payload : list byte,
    bts = wlen ++ payload ++ rest /\
    length wlen = 4%nat /\
    be_value wlen = Z.of_nat (length payload).
Proof.
  intros Hdec Hrun.
  destruct (composite_Decode_PopBytes dec bts rest v Hdec Hrun) as [buf Hpop].
  apply PopBytes_inv in Hpop as (wlen & ? & ? & ?). eauto.
Qed.

Lemma composite_Decode_frame_witness :
  exists wlen payload : list byte,
    be_bytes 4 6 ++ (be_bytes 4 0 ++ [xff; xff]) ++ [x2a]
    = wlen ++ payload ++ [x2a] /\
    length wlen = 4%nat /\
    be_value wlen = Z.of_nat (length payload).
Proof.
  apply (composite_Decode_frame (Set_Decode UUID) _ [x2a] (VSet [])).
  - constructor.
  - reflexivity.
Defined.


Lemma go_index_Ok {A} (l : list A) (i : nat) (x : A) :
  go_index l (Z.of_nat i) = Ok x -> l !! i = Some x.
Proof.
  unfold go_index. rewrite Nat2Z.id.
  destruct (l !! i); [|discriminate]. now intros E; inversion E.
Qed.



(** An element count above the number of declared fields. *)
Example Tuple_Decode_too_many :
  Tuple_Decode [Bool]
    (be_bytes 4 17 ++ be_bytes 4 2 ++ be_bytes 4 0 ++ be_bytes 4 1 ++ [x01]
     ++ be_bytes 4 0)
  = Panic (IndexOutOfRange 1 1).
Proof. reflexivity. Qed.

(** A negative element count stops Tuple decode where the slice is made,
    while Object decode returns the empty object for it. *)
Example Tuple_Decode_negative_count :
  Tuple_Decode [Bool] (be_bytes 4 4 ++ be_bytes 4 (to_uint32 (-1)))
  = Panic MakeSliceLenOutOfRange.
Proof. reflexivity. Qed.

Example Object_Decode_negative_count :
  Object_Decode [] (be_bytes 4 4 ++ be_bytes 4 (to_uint32 (-1)))
  = Ok (VObject ∅, []).
Proof. reflexivity. Qed.

(** X16.  An object that Object decode returns has no key other than the
    names of the declared fields. *)
Theorem Object_Decode_keys (fields : list objectField)
    (bts rest : list byte) (v : value) :
  Object_Decode fields bts = Ok (v, rest) ->
  exists out : gmap string value,
    v = VObject out /\
    forall k, is_Some (out !! k) -> k ∈ name <$> fields.
Proof.
  unfold Object_Decode. intros H.
  inv_bind H. inv_bind H. inv_bind H.
  inversion H; subst; clear H. eexists. split; [reflexivity|].
  set (P := fun s : gmap string value * list byte =>
              forall k, is_Some (s.1 !! k) -> k ∈ name <$> fields).
  match goal with
  | Hloop : for_range _ _ ?body ?s0 = Ok _ |- _ =>
      assert (Hb : forall i s s', P s -> body i s = Ok s' -> P s');
      [ | assert (Hinit : P s0);
          [ | exact (for_range_invariant P body Hb _ _ _ _ Hinit Hloop) ] ]
  end.
  - intros i [o b] [o' b'] Ho Hstep. unfold P in Ho |- *. cbn [fst] in Ho |- *.
    inv_bind Hstep. inv_bind Hstep. inv_bind Hstep.
    match goal with
    | Hg : go_index fields _ = Ok ?f |- _ =>
        set (fld := f) in *; rename Hg into Hfld
    end.
    apply go_index_Ok in Hfld.
    assert (Hname : name fld ∈ name <$> fields).
    { apply list_elem_of_fmap. exists fld. split; [reflexivity|].
      eapply list_elem_of_lookup_2, Hfld. }
    match type of Hstep with
    | (if ?c then _ else _) = _ => destruct c
    end.
    + inv_bind Hstep. inversion Hstep; subst. intros k Hk.
      destruct (decide (k = name fld)) as [->|Hne]; [exact Hname|].
      rewrite lookup_insert_ne in Hk
        by (intros Heq; apply Hne; symmetry; exact Heq).
      now apply Ho.
    + inv_bind Hstep. inversion Hstep; subst. intros k Hk.
      destruct (decide (k = name fld)) as [->|Hne]; [exact Hname|].
      rewrite lookup_insert_ne in Hk
        by (intros Heq; apply Hne; symmetry; exact Heq).
      now apply Ho.
  - unfold P. cbn [fst]. intros k Hk. rewrite lookup_empty in Hk.
    now destruct Hk.
Qed.

Lemma Object_Decode_keys_witness :
  exists out : gmap string value,
    VObject (<["id"%string := VSet []]> ∅) = VObject out /\
    forall k, is_Some (out !! k) ->
              k ∈ name <$> [mkObjectField false false false "id" Int64].
Proof.
  apply (Object_Decode_keys [mkObjectField false false false "id" Int64]
           (be_bytes 4 12 ++ be_bytes 4 1 ++ be_bytes 4 0
            ++ be_bytes 4 (to_uint32 (-1))) []).
  reflexivity.
Defined.

(** X17.  A named tuple that NamedTuple decode returns has no key other
    than the names of the declared fields. *)
Theorem NamedTuple_Decode_keys (fields : list namedTupleField)
    (bts rest : list byte) (v : value) :
  NamedTuple_Decode fields bts = Ok (v, rest) ->
  exists out : gmap string value,
    v = VNamedTuple out /\
    forall k, is_Some (out !! k) -> k ∈ nt_name <$> fields.
Proof.
  unfold NamedTuple_Decode. intros H.
  inv_bind H. inv_bind H. inv_bind H.
  inversion H; subst; clear H. eexists. split; [reflexivity|].
  set (P := fun s : gmap string value * list byte =>
              forall k, is_Some (s.1 !! k) -> k ∈ nt_name <$> fields).
  match goal with
  | Hloop : for_range _ _ ?body ?s0 = Ok _ |- _ =>
      assert (Hb : forall i s s', P s -> body i s = Ok s' -> P s');
      [ | assert (Hinit : P s0);
          [ | exact (for_range_invariant P body Hb _ _ _ _ Hinit Hloop) ] ]
  end.
  - intros i [o b] [o' b'] Ho Hstep. unfold P in Ho |- *. cbn [fst] in Ho |- *.
    inv_bind Hstep. inv_bind Hstep. inv_bind Hstep.
    match goal with
    | Hg : go_index fields _ = Ok ?f |- _ =>
        set (fld := f) in *; rename Hg into Hfld
    end.
    apply go_index_Ok in Hfld.
    assert (Hname : nt_name fld ∈ nt_name <$> fields).
    { apply list_elem_of_fmap. exists fld. split; [reflexivity|].
      eapply list_elem_of_lookup_2, Hfld. }
    inversion Hstep; subst. intros k Hk.
    destruct (decide (k = nt_name fld)) as [->|Hne]; [exact Hname|].
    rewrite lookup_insert_ne in Hk
      by (intros Heq; apply Hne; symmetry; exact Heq).
    now apply Ho.
  - unfold P. cbn [fst]. intros k Hk. rewrite lookup_empty in Hk.
    now destruct Hk.
Qed.

Lemma NamedTuple_Decode_keys_witness :
  exists out : gmap string value,
    VNamedTuple (<["ok"%string := VBool true]> ∅) = VNamedTuple out /\
    forall k, is_Some (out !! k) ->
              k ∈ nt_name <$> [mkNamedTupleField "ok" Bool].
Proof.
  apply (NamedTuple_Decode_keys [mkNamedTupleField "ok" Bool]
           (be_bytes 4 13 ++ be_bytes 4 1 ++ be_bytes 4 0
            ++ be_bytes 4 1 ++ [x01]) []).
  reflexivity.
Defined.

(** ** What the encoders read of their argument *)

Lemma go_index_app_l {A} (l extra : list A) (i : nat) :
  (i < length l)%nat ->
  go_index (l ++ extra) (Z.of_nat i) = go_index l (Z.of_nat i).
Proof.
  intros Hi. unfold go_index. rewrite Nat2Z.id.
  rewrite lookup_app_l by assumption.
  destruct (l !! i) eqn:E; [reflexivity|].
  apply lookup_ge_None in E. lia.
Qed.

Lemma for_range_split {S : Type} (body : nat -> S -> result S) (a n : nat)
    (start : nat) (s : S) :
  (a <= n)%nat ->
  for_range start n body s
  = s' ← for_range start a body s; for_range (start + a) (n - a) body s'.
Proof.
  intros Ha. rewrite <- for_range_app. f_equal. lia.
Qed.

(** X18.  Tuple encode reads as many elements of its argument as the
    codec has declared fields; elements after these are not encoded and
    not reported. *)
Theorem Tuple_Encode_surplus (fields : list DecodeEncoder)
    (xs extra : list value) (bts : list byte) :
  length xs = length fields ->
  Tuple_Encode fields bts (VSlice (xs ++ extra))
  = Tuple_Encode fields bts (VSlice xs).
Proof.
  intros Hlen. unfold Tuple_Encode.
  destruct (decide (length fields = 0%nat)); [reflexivity|].
  rewrite (for_range_ext
             (fun i tmp =>
                let tmp := PushUint32 tmp 0 in
                field ← go_index fields (Z.of_nat i);
                x ← go_index (xs ++ extra) (Z.of_nat i);
                Encode field tmp x)
             (fun i tmp =>
                let tmp := PushUint32 tmp 0 in
                field ← go_index fields (Z.of_nat i);
                x ← go_index xs (Z.of_nat i);
                Encode field tmp x)); [reflexivity|].
  intros i s Hi. cbv zeta. now rewrite go_index_app_l by lia.
Qed.

Lemma Tuple_Encode_surplus_witness :
  Tuple_Encode [Bool] [] (VSlice ([VBool true] ++ [VInt64 5; VNil]))
  = Tuple_Encode [Bool] [] (VSlice [VBool true]).
Proof.
  apply Tuple_Encode_surplus. reflexivity.
Defined.

(** X19.  Tuple encode of an argument with fewer elements than the codec
    has declared fields encodes the elements that are there and then stops
    with the index-out-of-range panic for the first missing element. *)
Theorem Tuple_Encode_short (fields : list DecodeEncoder) (xs : list value)
    (encs : list (list byte)) (bts : list byte) :
  Forall3 wire_of (take (length xs) fields) xs encs ->
  (length xs < length fields)%nat ->
  Tuple_Encode fields bts (VSlice xs)
  = Panic (IndexOutOfRange (Z.of_nat (length xs)) (length xs)).
Proof.
  intros Hall Hlen. unfold Tuple_Encode. cbv zeta.
  destruct (decide (length fields = 0%nat)); [lia|].
  rewrite (for_range_split _ (length xs)) by lia.
  pose proof (Tuple_Encode_loop _ xs encs Hall [] []
                (PushUint32 [] (to_uint32 (Z.of_nat (length fields)))) eq_refl)
    as Hloop.
  rewrite length_take_le in Hloop by lia. cbn [length app] in Hloop.
  rewrite (for_range_ext _
             (fun i tmp =>
                field ← go_index (take (length xs) fields) (Z.of_nat i);
                x ← go_index xs (Z.of_nat i);
                Encode field (PushUint32 tmp 0) x)).
  - rewrite Hloop. bind_ok.
    replace (length fields - length xs)%nat
      with (S (length fields - length xs - 1)) by lia.
    cbn [for_range Nat.add]. bind_ok.
    destruct (go_index_below fields (Z.of_nat (length xs))) as [c Hc]; [lia|].
    rewrite Hc. bind_ok. rewrite go_index_beyond by lia. reflexivity.
  - intros i s Hi. rewrite <- (take_drop (length xs) fields) at 1.
    now rewrite go_index_app_l by (rewrite length_take_le; lia).
Qed.

Lemma Tuple_Encode_short_witness :
  Tuple_Encode [Bool; Int64] [] (VSlice [VBool true])
  = Panic (IndexOutOfRange (Z.of_nat (length [VBool true]))
             (length [VBool true])).
Proof.
  apply (Tuple_Encode_short [Bool; Int64] [VBool true]
           [be_bytes 4 1 ++ be_bytes 1 1]).
  - constructor; [|constructor].
    apply roundtrips_wire_of; [apply Bool_roundtrip | reflexivity].
  - cbn. lia.
Defined.

(** X20.  NamedTuple encode reads from the input mapping the declared
    names only: two mappings that agree on the names of the declared
    fields are encoded alike, whatever other keys they hold. *)
Theorem NamedTuple_Encode_declared_names (fields : list namedTupleField)
    (in1 in2 : gmap string value) (bts : list byte) :
  (forall f, f ∈ fields -> in1 !! nt_name f = in2 !! nt_name f) ->
  NamedTuple_Encode fields bts (VMap in1)
  = NamedTuple_Encode fields bts (VMap in2).
Proof.
  intros Hagree. unfold NamedTuple_Encode.
  rewrite (for_range_ext
             (fun i tmp =>
                let tmp := PushUint32 tmp 0 in
                field ← go_index fields (Z.of_nat i);
                Encode (nt_codec field) tmp (go_map_index in1 (nt_name field)))
             (fun i tmp =>
                let tmp := PushUint32 tmp 0 in
                field ← go_index fields (Z.of_nat i);
                Encode (nt_codec field) tmp (go_map_index in2 (nt_name field))));
    [reflexivity|].
  intros i s Hi. cbv zeta.
  destruct (go_index fields (Z.of_nat i)) as [f|p] eqn:Hf; bind_ok;
    [|reflexivity].
  apply go_index_Ok in Hf. apply list_elem_of_lookup_2 in Hf.
  unfold go_map_index. now rewrite (Hagree f Hf).
Qed.

Lemma NamedTuple_Encode_declared_names_witness :
  NamedTuple_Encode [mkNamedTupleField "ok" Bool] []
    (VMap (<["ok"%string := VBool true]> (∅ : gmap string value)))
  = NamedTuple_Encode [mkNamedTupleField "ok" Bool] []
      (VMap (<["ok"%string := VBool true]>
               (<["other"%string := VInt64 5]> (∅ : gmap string value)))).
Proof.
  apply NamedTuple_Encode_declared_names.
  intros f Hf. apply list_elem_of_singleton in Hf. subst f. reflexivity.
Defined.

(** ** The registry that the parser builds *)

Section RegistryProperties.
Context `{JSONLib}.

Lemma getBaseScalarCodec_built (id : list byte) (c : DecodeEncoder) :
  getBaseScalarCodec id = Ok c -> built_codec c.
Proof.
  unfold getBaseScalarCodec.
  repeat match goal with
         | |- (if ?d then _ else _) = _ -> _ => destruct d
         end;
    intros E; inversion E; subst; constructor.
Qed.

(** A turn of the loop that ends normally has read a tag and a type id of
    16 bytes, at least 17 bytes in all, has entered under that id a codec
    made by one of the constructors and has appended it to the list. *)
Lemma Pop_step_inv (lookup : CodecLookup) (codecs : list DecodeEncoder)
    (bts : list byte) st' bts' :
  Pop_step (lookup, codecs) bts = Ok (st', bts') ->
  exists id c,
    length id = 16%nat /\
    st' = (<[id := c]> lookup, codecs ++ [c]) /\
    built_codec c /\
    (length bts' + 17 <= length bts)%nat.
Proof.
  unfold Pop_step. intros Hstep.
  destruct (PopUint8 bts) as [[tag b1]|?] eqn:Ht;
    cbn [mbind result_bind] in Hstep; [|discriminate].
  destruct (PopUUID b1) as [[id b2]|?] eqn:Hu;
    cbn [mbind result_bind] in Hstep; [|discriminate].
  match type of Hstep with
  | mbind _ ?r = _ => destruct r as [[c b3]|?] eqn:Hcodec
  end; cbn [mbind result_bind] in Hstep; [|discriminate].
  inversion Hstep; subst; clear Hstep.
  apply PopUint8_shrinks in Ht.
  unfold PopUUID in Hu. apply popN_inv in Hu as [Hsplit Hid].
  assert (Hb2 : (length b2 + 17 <= length bts)%nat).
  { rewrite Ht, Hsplit, length_app, Hid. lia. }
  cbv zeta in Hcodec.
  exists id, c.
  split; [assumption|]. split; [reflexivity|].
  repeat match type of Hcodec with
         | (if ?b then _ else _) = _ => destruct b
         end.
  - split; [unfold popSetCodec in Hcodec; do 2 inv_bind Hcodec;
            inversion Hcodec; constructor|].
    apply popSetCodec_shrinks in Hcodec. lia.
  - split; [unfold popObjectCodec in Hcodec; do 2 inv_bind Hcodec;
            inversion Hcodec; constructor|].
    apply popObjectCodec_shrinks in Hcodec. lia.
  - inv_bind Hcodec. inversion Hcodec; subst. split; [|lia].
    eapply getBaseScalarCodec_built; eassumption.
  - split; [unfold popTupleCodec in Hcodec; do 2 inv_bind Hcodec;
            inversion Hcodec; constructor|].
    apply popTupleCodec_shrinks in Hcodec. lia.
  - split; [unfold popNamedTupleCodec in Hcodec; do 2 inv_bind Hcodec;
            inversion Hcodec; constructor|].
    apply popNamedTupleCodec_shrinks in Hcodec. lia.
  - split; [unfold popArrayCodec in Hcodec; do 4 inv_bind Hcodec;
            inversion Hcodec; constructor|].
    apply popArrayCodec_shrinks in Hcodec. lia.
  - discriminate.
Qed.

Lemma Pop_loop_sound (fuel : nat) :
  forall st bts lookup,
    (length bts <= fuel)%nat ->
    Pop_loop fuel st bts = Ok lookup ->
    exists n st', parsed n st bts st' [] /\ st'.1 = lookup.
Proof.
  induction fuel as [|fuel IH]; intros st bts lookup Hfuel Hrun.
  - destruct bts; [|cbn in Hfuel; lia]. cbn in Hrun. inversion Hrun.
    exists 0%nat, st. split; [constructor | reflexivity].
  - destruct bts as [|b bts].
    + cbn in Hrun. inversion Hrun.
      exists 0%nat, st. split; [constructor | reflexivity].
    + cbn [Pop_loop] in Hrun.
      destruct (Pop_step st (b :: bts)) as [[st1 bts1]|p] eqn:Hstep;
        cbn in Hrun; [|discriminate].
      destruct st as [lk cs].
      destruct (Pop_step_Ok _ _ _ _ _ Hstep) as [Hlt _].
      destruct (IH st1 bts1 lookup ltac:(lia) Hrun) as (n & st' & Hp & Hl).
      exists (S n), st'. split; [|exact Hl].
      eapply parsed_S; eassumption.
Qed.

Lemma Pop_Ok_parsed (stream : list byte) (lookup : CodecLookup) :
  Pop stream = Ok lookup ->
  exists n codecs, parsed n (∅, []) stream (lookup, codecs) [].
Proof.
  intros Hpop. unfold Pop in Hpop.
  destruct (Pop_loop_sound _ _ _ _ (Nat.le_refl _) Hpop)
    as (n & [lk cs] & Hp & Hl).
  cbn in Hl. subst lk. eauto.
Qed.

(** X21.  [Pop] returns a lookup exactly when the whole stream divides
    into descriptors that each parse, and the lookup is the one that stands
    after the last of them; the empty stream gives the empty lookup. *)
Theorem Pop_returns_iff_parsed (stream : list byte) (lookup : CodecLookup) :
  Pop stream = Ok lookup <->
  exists n codecs, parsed n (∅, []) stream (lookup, codecs) [].
Proof.
  split.
  - apply Pop_Ok_parsed.
  - intros (n & codecs & Hp).
    destruct (Pop_parsed _ _ _ _ Hp) as (fuel & _ & ->).
    destruct fuel; reflexivity.
Qed.

Lemma parsed_registry (n : nat) st bts st' bts' :
  parsed n st bts st' bts' ->
  (forall id c, st.1 !! id = Some c ->
                length id = 16%nat /\ built_codec c /\ c ∈ st.2) ->
  (forall id c, st'.1 !! id = Some c ->
                length id = 16%nat /\ built_codec c /\ c ∈ st'.2)
  /\ (size st'.1 <= size st.1 + n)%nat
  /\ (length bts' + 17 * n <= length bts)%nat
  /\ exists new, st'.2 = st.2 ++ new /\ length new = n.
Proof.
  induction 1 as [st bts | n st bts st1 bts1 st2 bts2 Hstep Hrest IH];
    intros Hinv.
  - split; [exact Hinv|]. split; [lia|]. split; [lia|].
    exists []. now rewrite app_nil_r.
  - destruct st as [lookup codecs].
    destruct (Pop_step_inv _ _ _ _ _ Hstep) as (id & c & Hid & -> & Hb & Hlen).
    cbn [fst snd] in *.
    destruct IH as (Hinv' & Hsize & Hbytes & new & Hnew & Hnewlen).
    { intros id' c' Hl. destruct (decide (id' = id)) as [->|Hne].
      - rewrite lookup_insert_eq in Hl. inversion Hl; subst c'.
        split; [assumption|]. split; [assumption|].
        apply elem_of_app. right. apply list_elem_of_singleton. reflexivity.
      - rewrite lookup_insert_ne in Hl by congruence.
        destruct (Hinv id' c' Hl) as (? & ? & ?).
        split; [assumption|]. split; [assumption|].
        apply elem_of_app. now left. }
    split; [exact Hinv'|].
    split.
    { destruct (lookup !! id) as [c0|] eqn:Hold.
      - rewrite map_size_insert_Some in Hsize by (rewrite Hold; eauto). lia.
      - rewrite map_size_insert_None in Hsize by exact Hold. lia. }
    split; [lia|].
    exists (c :: new). split.
    + rewrite Hnew, <- app_assoc. reflexivity.
    + cbn. lia.
Qed.

Lemma Pop_Ok_registry (stream : list byte) (lookup : CodecLookup) :
  Pop stream = Ok lookup ->
  (forall id c, lookup !! id = Some c -> length id = 16%nat /\ built_codec c)
  /\ (17 * size lookup <= length stream)%nat.
Proof.
  intros Hpop. apply Pop_Ok_parsed in Hpop as (n & codecs & Hp).
  destruct (parsed_registry _ _ _ _ _ Hp) as (Hinv & Hsize & Hbytes & _).
  { cbn. intros id c Hl. rewrite lookup_empty in Hl. discriminate. }
  cbn [fst snd] in *. rewrite map_size_empty in Hsize. split.
  - intros id c Hl. destruct (Hinv id c Hl) as (? & ? & _). now split.
  - cbn in Hbytes. lia.
Qed.

(** X22.  In a lookup that [Pop] returns every key is a type id of 16
    bytes and every codec is one made by the constructors of the parser;
    the lookup has at most one entry for each 17 bytes of the stream. *)
Theorem Pop_registry (stream : list byte) (lookup : CodecLookup) :
  Pop stream = Ok lookup ->
  (forall id c, lookup !! id = Some c -> length id = 16%nat /\ built_codec c)
  /\ (17 * size lookup <= length stream)%nat.
Proof.
  apply Pop_Ok_registry.
Qed.

(** X23.  The parser only appends to the codec list: after any number of
    descriptors the list is the one before followed by one new codec per
    descriptor, so that an index keeps the codec it referred to, also when
    a later descriptor carries a type id that was used before and takes its
    place in the lookup. *)
Theorem parsed_codecs_append (n : nat) (lookup lookup' : CodecLookup)
    (codecs codecs' : list DecodeEncoder) (bts bts' : list byte) :
  parsed n (lookup, codecs) bts (lookup', codecs') bts' ->
  length codecs' = (length codecs + n)%nat /\
  forall i c, codecs !! i = Some c -> codecs' !! i = Some c.
Proof.
  intros Hp.
  assert (Hnew : exists new, codecs' = codecs ++ new /\ length new = n).
  { clear - Hp. remember (lookup, codecs) as st eqn:Hst.
    remember (lookup', codecs') as st' eqn:Hst'.
    revert lookup codecs Hst.
    induction Hp as [st bts | n st bts st1 bts1 st2 bts2 Hstep Hrest IH];
      intros lookup codecs Hst; subst.
    - inversion Hst; subst. exists []. now rewrite app_nil_r.
    - destruct (Pop_step_inv _ _ _ _ _ Hstep) as (id & c & _ & -> & _ & _).
      destruct (IH eq_refl _ _ eq_refl) as (new & -> & Hlen).
      exists (c :: new). rewrite <- app_assoc. split; [reflexivity|].
      cbn. lia. }
  destruct Hnew as (new & -> & Hlen). split.
  - rewrite length_app. lia.
  - intros i c Hi. now apply lookup_app_l_Some.
Qed.

End RegistryProperties.

Lemma Pop_returns_iff_parsed_witness :
  Pop (x02 :: base_scalar_id x05) = Ok (<[base_scalar_id x05 := Int64]> ∅)
  <-> exists n codecs,
        parsed n (∅, []) (x02 :: base_scalar_id x05)
          (<[base_scalar_id x05 := Int64]> ∅, codecs) [].
Proof.
  apply Pop_returns_iff_parsed.
Defined.

Lemma Pop_registry_witness :
  (forall id c,
     (<[base_scalar_id x05 := Int64]> (∅ : CodecLookup)) !! id = Some c ->
     length id = 16%nat /\ built_codec c)
  /\ (17 * size (<[base_scalar_id x05 := Int64]> (∅ : CodecLookup))
      <= length (x02 :: base_scalar_id x05))%nat.
Proof.
  apply (Pop_registry (x02 :: base_scalar_id x05)). reflexivity.
Defined.

Lemma parsed_codecs_append_witness :
  length [Int64; SetCodec Int64] = (length [Int64] + 1)%nat /\
  forall i c, [Int64] !! i = Some c -> [Int64; SetCodec Int64] !! i = Some c.
Proof.
  apply (parsed_codecs_append 1
           (<[base_scalar_id x05 := Int64]> ∅)
           (<[base_scalar_id x05 := SetCodec Int64]>
              (<[base_scalar_id x05 := Int64]> ∅))
           [Int64] [Int64; SetCodec Int64]
           (x00 :: base_scalar_id x05 ++ [x00; x00]) []).
  eapply parsed_S; [reflexivity | apply parsed_O].
Defined.

(** ** The descriptor constructors *)

Lemma PopUint16_const (v : Z) (rest : list byte) :
  0 <= v < 2 ^ 16 -> PopUint16 (be_bytes 2 v ++ rest) = Ok (v, rest).
Proof. intros Hv. now apply PopUint16_Push. Qed.

Lemma go_index_refers (codecs : list DecodeEncoder) (i : Z)
    (c : DecodeEncoder) :
  refers codecs i c -> go_index codecs i = Ok c.
Proof. intros [_ Hc]. unfold go_index. now rewrite Hc. Qed.

Lemma PopString_const (s : string) (rest : list byte) :
  Z.of_nat (length (list_byte_of_string s)) < 2 ^ 32 ->
  PopString (be_bytes 4 (Z.of_nat (length (list_byte_of_string s)))
             ++ list_byte_of_string s ++ rest)
  = Ok (s, rest).
Proof.
  intros Hlen. rewrite PopString_app.
  - now rewrite string_of_list_byte_of_string.
  - apply length_be_bytes.
  - rewrite be_value_bytes. apply Z.mod_small.
    change (256 ^ Z.of_nat 4) with (2 ^ 32). lia.
Qed.

Lemma flag_bits (flags : byte) :
  negb (Z.land (byte_to_Z flags) 1 =? 0) = Z.testbit (byte_to_Z flags) 0 /\
  negb (Z.land (byte_to_Z flags) 2 =? 0) = Z.testbit (byte_to_Z flags) 1 /\
  negb (Z.land (byte_to_Z flags) 4 =? 0) = Z.testbit (byte_to_Z flags) 2.
Proof. destruct flags; repeat split; reflexivity. Qed.

Lemma popTupleCodec_loop (codecs : list DecodeEncoder) (idxs : list Z)
    (cs : list DecodeEncoder) :
  Forall2 (refers codecs) idxs cs ->
  forall start acc rest,
    for_range start (length idxs)
      (fun i '(fields, bts) =>
         '(index, bts) ← PopUint16 bts;
         c ← go_index codecs index;
         Ok (fields ++ [c], bts))
      (acc, concat (be_bytes 2 <$> idxs) ++ rest)
    = Ok (acc ++ cs, rest).
Proof.
  induction 1 as [|i c idxs cs Hi _ IH]; intros start acc rest.
  - cbn. now rewrite app_nil_r.
  - cbn [length for_range fmap list_fmap concat]. bind_ok.
    rewrite <- app_assoc, PopUint16_const by apply Hi. bind_ok.
    rewrite (go_index_refers _ _ _ Hi). bind_ok.
    rewrite IH, <- app_assoc. reflexivity.
Qed.

(** X24.  The constructor of the Tuple codec reads exactly the payload of
    its descriptor, the field count and one index per field, and leaves what
    follows; the codec it makes has, in the order of the descriptor, the
    codecs that the indices refer to in the list built so far. *)
Theorem popTupleCodec_exact (codecs : list DecodeEncoder) (id : list byte)
    (idxs : list Z) (cs : list DecodeEncoder) (rest : list byte) :
  Forall2 (refers codecs) idxs cs ->
  Z.of_nat (length idxs) < 2 ^ 16 ->
  popTupleCodec (tuple_descriptor idxs ++ rest) id codecs
  = Ok (TupleCodec cs, rest).
Proof.
  intros Hall Hn. unfold popTupleCodec, tuple_descriptor.
  rewrite <- app_assoc, PopUint16_const by lia. bind_ok.
  rewrite Nat2Z.id, (popTupleCodec_loop codecs idxs cs Hall). reflexivity.
Qed.

Lemma popTupleCodec_exact_witness :
  popTupleCodec (tuple_descriptor [1; 0; 1] ++ [x2a]) (base_scalar_id xff)
    [Int64; Bool]
  = Ok (TupleCodec [Bool; Int64; Bool], [x2a]).
Proof.
  apply popTupleCodec_exact.
  - repeat (constructor; [split; [lia | reflexivity]|]). constructor.
  - cbn. lia.
Defined.

Lemma popNamedTupleCodec_loop (codecs : list DecodeEncoder)
    (entries : list (string * Z)) (fields : list namedTupleField) :
  Forall2 (fun e f =>
             nt_name f = e.1 /\ refers codecs e.2 (nt_codec f) /\
             Z.of_nat (length (list_byte_of_string e.1)) < 2 ^ 32)
    entries fields ->
  forall start acc rest,
    for_range start (length entries)
      (fun i '(fields, bts) =>
         '(name, bts) ← PopString bts;
         '(index, bts) ← PopUint16 bts;
         c ← go_index codecs index;
         Ok (fields ++ [{| nt_name := name; nt_codec := c |}], bts))
      (acc, concat (named_entry <$> entries) ++ rest)
    = Ok (acc ++ fields, rest).
Proof.
  induction 1 as [|[name idx] [fname fcodec] entries fields
                    (Hname & Hidx & Hlen) _ IH];
    intros start acc rest.
  - cbn. now rewrite app_nil_r.
  - cbn [fst snd nt_name nt_codec] in *. subst fname.
    cbn [length for_range fmap list_fmap concat]. bind_ok.
    unfold named_entry at 1. cbn [fst snd].
    rewrite <- !app_assoc, PopString_const by assumption. bind_ok.
    rewrite PopUint16_const by apply Hidx. bind_ok.
    rewrite (go_index_refers _ _ _ Hidx). bind_ok.
    rewrite IH, <- app_assoc. reflexivity.
Qed.

(** X25.  The constructor of the NamedTuple codec reads exactly the
    payload of its descriptor, the field count and per field the
    length-prefixed name and the index, and leaves what follows; the codec
    it makes has a field for each entry, in order, with the name of the
    entry and the codec that its index refers to. *)
Theorem popNamedTupleCodec_exact (codecs : list DecodeEncoder)
    (id : list byte) (entries : list (string * Z))
    (fields : list namedTupleField) (rest : list byte) :
  Forall2 (fun e f =>
             nt_name f = e.1 /\ refers codecs e.2 (nt_codec f) /\
             Z.of_nat (length (list_byte_of_string e.1)) < 2 ^ 32)
    entries fields ->
  Z.of_nat (length entries) < 2 ^ 16 ->
  popNamedTupleCodec (namedTuple_descriptor entries ++ rest) id codecs
  = Ok (NamedTupleCodec fields, rest).
Proof.
  intros Hall Hn. unfold popNamedTupleCodec, namedTuple_descriptor.
  rewrite <- app_assoc, PopUint16_const by lia. bind_ok.
  rewrite Nat2Z.id, (popNamedTupleCodec_loop codecs entries fields Hall).
  reflexivity.
Qed.

Lemma popNamedTupleCodec_exact_witness :
  popNamedTupleCodec
    (namedTuple_descriptor [("a"%string, 1); ("b"%string, 0)] ++ [x2a])
    (base_scalar_id xff) [Int64; Bool]
  = Ok (NamedTupleCodec
          [mkNamedTupleField "a" Bool; mkNamedTupleField "b" Int64], [x2a]).
Proof.
  apply popNamedTupleCodec_exact.
  - constructor.
    + split; [reflexivity|]. split; [split; [cbn; lia | reflexivity]|].
      vm_compute. reflexivity.
    + constructor; [|constructor].
      split; [reflexivity|]. split; [split; [cbn; lia | reflexivity]|].
      vm_compute. reflexivity.
  - vm_compute. reflexivity.
Defined.

Lemma popObjectCodec_loop (codecs : list DecodeEncoder)
    (entries : list (byte * string * Z)) (fields : list objectField) :
  Forall2 (fun e f =>
             isImplicit f = Z.testbit (byte_to_Z e.1.1) 0 /\
             isLinkProperty f = Z.testbit (byte_to_Z e.1.1) 1 /\
             isLink f = Z.testbit (byte_to_Z e.1.1) 2 /\
             name f = e.1.2 /\ refers codecs e.2 (codec f) /\
             Z.of_nat (length (list_byte_of_string e.1.2)) < 2 ^ 32)
    entries fields ->
  forall start acc rest,
    for_range start (length entries)
      (fun i '(fields, bts) =>
         '(flags, bts) ← PopUint8 bts;
         '(name, bts) ← PopString bts;
         '(index, bts) ← PopUint16 bts;
         c ← go_index codecs index;
         Ok (fields ++ [{|
           isImplicit := negb (Z.land (byte_to_Z flags) 1 =? 0);
           isLinkProperty := negb (Z.land (byte_to_Z flags) 2 =? 0);
           isLink := negb (Z.land (byte_to_Z flags) 4 =? 0);
           name := name;
           codec := c
         |}], bts))
      (acc, concat (object_entry <$> entries) ++ rest)
    = Ok (acc ++ fields, rest).
Proof.
  induction 1 as [|[[flags fname] idx] [f1 f2 f3 f4 f5] entries fields
                    (H1 & H2 & H3 & Hname & Hidx & Hlen) _ IH];
    intros start acc rest.
  - cbn. now rewrite app_nil_r.
  - cbn [fst snd isImplicit isLinkProperty isLink name codec] in *. subst.
    cbn [length for_range fmap list_fmap concat]. bind_ok.
    unfold object_entry at 1. unfold named_entry. cbn [fst snd].
    rewrite <- !app_comm_cons. cbn [PopUint8]. bind_ok.
    rewrite <- !app_assoc, PopString_const by assumption. bind_ok.
    rewrite PopUint16_const by apply Hidx. bind_ok.
    rewrite (go_index_refers _ _ _ Hidx). bind_ok.
    destruct (flag_bits flags) as (-> & -> & ->).
    rewrite IH, <- app_assoc. reflexivity.
Qed.

(** X26.  The constructor of the Object codec reads exactly the payload of
    its descriptor, the field count and per field the flag byte, the
    length-prefixed name and the index, and leaves what follows; the codec
    it makes has a field for each entry, in order, with the name of the
    entry, the codec that its index refers to, and the flags implicit,
    link property and link read from bits 0, 1 and 2 of the flag byte. *)
Theorem popObjectCodec_exact (codecs : list DecodeEncoder) (id : list byte)
    (entries : list (byte * string * Z)) (fields : list objectField)
    (rest : list byte) :
  Forall2 (fun e f =>
             isImplicit f = Z.testbit (byte_to_Z e.1.1) 0 /\
             isLinkProperty f = Z.testbit (byte_to_Z e.1.1) 1 /\
             isLink f = Z.testbit (byte_to_Z e.1.1) 2 /\
             name f = e.1.2 /\ refers codecs e.2 (codec f) /\
             Z.of_nat (length (list_byte_of_string e.1.2)) < 2 ^ 32)
    entries fields ->
  Z.of_nat (length entries) < 2 ^ 16 ->
  popObjectCodec (object_descriptor entries ++ rest) id codecs
  = Ok (ObjectCodec fields, rest).
Proof.
  intros Hall Hn. unfold popObjectCodec, object_descriptor.
  rewrite <- app_assoc, PopUint16_const by lia. bind_ok.
  rewrite Nat2Z.id, (popObjectCodec_loop codecs entries fields Hall).
  reflexivity.
Qed.

Lemma popObjectCodec_exact_witness :
  popObjectCodec
    (object_descriptor [(x05, "id"%string, 0); (x02, "n"%string, 1)] ++ [x2a])
    (base_scalar_id xff) [UUID; Int64]
  = Ok (ObjectCodec
          [mkObjectField true false true "id" UUID;
           mkObjectField false true false "n" Int64], [x2a]).
Proof.
  apply popObjectCodec_exact.
  - constructor.
    + do 4 (split; [reflexivity|]). split; [split; [cbn; lia | reflexivity]|].
      vm_compute. reflexivity.
    + constructor; [|constructor].
      do 4 (split; [reflexivity|]). split; [split; [cbn; lia | reflexivity]|].
      vm_compute. reflexivity.
  - vm_compute. reflexivity.
Defined.

(** X27.  The constructors of the Set and Array codecs read exactly the
    payload of their descriptor and leave what follows: the child index
    for a Set; the child index, the dimension count and one 32-bit word per
    dimension for an Array, whatever these words hold.  The codec made has
    as child the codec that the index refers to. *)
Theorem popSetArrayCodec_exact (codecs : list DecodeEncoder) (id : list byte)
    (index ndims : Z) (dims rest : list byte) (child : DecodeEncoder) :
  refers codecs index child ->
  0 <= ndims < 2 ^ 16 ->
  Z.of_nat (length dims) = 4 * ndims ->
  popSetCodec (be_bytes 2 index ++ rest) id codecs = Ok (SetCodec child, rest)
  /\ popArrayCodec (be_bytes 2 index ++ be_bytes 2 ndims ++ dims ++ rest)
       id codecs
     = Ok (ArrayCodec child, rest).
Proof.
  intros Hidx Hn Hdims. split.
  - unfold popSetCodec. rewrite PopUint16_const by apply Hidx. bind_ok.
    rewrite (go_index_refers _ _ _ Hidx). reflexivity.
  - unfold popArrayCodec. rewrite PopUint16_const by apply Hidx. bind_ok.
    rewrite PopUint16_const by assumption. bind_ok.
    rewrite popArrayCodec_dims by lia. bind_ok.
    rewrite (go_index_refers _ _ _ Hidx). reflexivity.
Qed.

Lemma popSetArrayCodec_exact_witness :
  popSetCodec (be_bytes 2 1 ++ [x2a]) (base_scalar_id xff) [Int64; Bool]
  = Ok (SetCodec Bool, [x2a])
  /\ popArrayCodec
       (be_bytes 2 1 ++ be_bytes 2 1 ++ [xff; xff; xff; xff] ++ [x2a])
       (base_scalar_id xff) [Int64; Bool]
     = Ok (ArrayCodec Bool, [x2a]).
Proof.
  apply popSetArrayCodec_exact.
  - split; [lia | reflexivity].
  - lia.
  - reflexivity.
Defined.

(** ** Streams that the parser rejects *)

Section Rejections.
Context `{JSONLib}.

Lemma Pop_step_base_scalar (lookup : CodecLookup)
    (codecs : list DecodeEncoder) (tag : byte) (id rest : list byte) :
  byte_to_Z tag = baseScalarType ->
  length id = 16%nat ->
  Pop_step (lookup, codecs) (tag :: id ++ rest)
  = c ← getBaseScalarCodec id;
    Ok ((<[id := c]> lookup, codecs ++ [c]), rest).
Proof.
  intros Htag Hid. unfold Pop_step. cbn [PopUint8]. bind_ok.
  unfold PopUUID. rewrite <- Hid, popN_app. bind_ok. cbv zeta.
  rewrite Htag. tag_tests.
  destruct (getBaseScalarCodec id); reflexivity.
Qed.

Lemma Pop_base_scalar_panic (n : nat) (stream : list byte)
    (st : CodecLookup * list DecodeEncoder) (tag : byte)
    (id rest : list byte) (p : panic) :
  parsed n (∅, []) stream st (tag :: id ++ rest) ->
  byte_to_Z tag = baseScalarType ->
  length id = 16%nat ->
  getBaseScalarCodec id = Panic p ->
  Pop stream = Panic p.
Proof.
  intros Hparsed Htag Hid Hp.
  destruct (Pop_parsed _ _ _ _ Hparsed) as (fuel & Hfuel & ->).
  destruct (Pop_loop_turn fuel st (tag :: id ++ rest)) as (fuel' & -> & ->);
    [discriminate | exact Hfuel |].
  destruct st as [lookup codecs].
  rewrite Pop_step_base_scalar by assumption. rewrite Hp. reflexivity.
Qed.

Lemma getBaseScalarCodec_unknown (id : list byte) :
  id ∉ base_scalar_id <$> implemented_kinds ->
  id ∉ base_scalar_id <$> unimplemented_kinds ->
  getBaseScalarCodec id = Panic (UnknownBaseScalar id).
Proof.
  intros Himpl Hun. unfold getBaseScalarCodec.
  repeat match goal with
         | |- context [decide (id = base_scalar_id ?k)] =>
             destruct (decide (id = base_scalar_id k)) as [E|_];
             [exfalso; rewrite E in Himpl, Hun;
              unfold implemented_kinds, unimplemented_kinds in Himpl, Hun;
              cbn [fmap list_fmap] in Himpl, Hun;
              first [ solve [apply Himpl;
                             repeat (apply elem_of_cons;
                                     first [left; reflexivity | right])]
                    | solve [apply Hun;
                             repeat (apply elem_of_cons;
                                     first [left; reflexivity | right])] ]|]
         end.
  reflexivity.
Qed.

Lemma getBaseScalarCodec_unimplemented (id : list byte) :
  id ∈ base_scalar_id <$> unimplemented_kinds ->
  exists msg, getBaseScalarCodec id = Panic (NotImplemented msg).
Proof.
  intros Hun. unfold unimplemented_kinds in Hun. cbn [fmap list_fmap] in Hun.
  repeat (apply elem_of_cons in Hun; destruct Hun as [->|Hun];
          [eexists; reflexivity|]).
  now apply elem_of_nil in Hun.
Qed.

(** X28.  A base scalar descriptor whose type id is none of the ids that
    the parser knows stops [Pop] with the unknown-base-scalar panic, which
    carries the id; an id of one of the kinds decimal, local datetime,
    local date, local time and bigint stops it with a not-implemented
    panic.  In both cases [Pop] returns no lookup. *)
Theorem Pop_base_scalar_rejected (n : nat) (stream : list byte)
    (st : CodecLookup * list DecodeEncoder) (tag : byte)
    (id rest : list byte) :
  parsed n (∅, []) stream st (tag :: id ++ rest) ->
  byte_to_Z tag = baseScalarType ->
  length id = 16%nat ->
  id ∉ base_scalar_id <$> implemented_kinds ->
  (id ∉ base_scalar_id <$> unimplemented_kinds ->
   Pop stream = Panic (UnknownBaseScalar id))
  /\ (id ∈ base_scalar_id <$> unimplemented_kinds ->
      exists msg, Pop stream = Panic (NotImplemented msg)).
Proof.
  intros Hparsed Htag Hid Himpl. split.
  - intros Hun. eapply Pop_base_scalar_panic; try eassumption.
    now apply getBaseScalarCodec_unknown.
  - intros Hun. destruct (getBaseScalarCodec_unimplemented id Hun) as [msg Hm].
    exists msg. eapply Pop_base_scalar_panic; eassumption.
Qed.

(** X29.  A stream that ends between one and sixteen bytes after the last
    whole descriptor, inside a tag and type id, stops [Pop] where the id is
    read: [Pop] returns no lookup for it. *)
Theorem Pop_truncated (n : nat) (stream : list byte)
    (st : CodecLookup * list DecodeEncoder) (bts : list byte) :
  parsed n (∅, []) stream st bts ->
  (0 < length bts < 17)%nat ->
  Pop stream = Panic SliceBoundsOutOfRange.
Proof.
  intros Hparsed Hlen. destruct bts as [|tag short]; [cbn in Hlen; lia|].
  eapply Pop_short_id; [exact Hparsed|]. cbn in Hlen. lia.
Qed.

End Rejections.

Lemma Pop_base_scalar_rejected_witness :
  (base_scalar_id x11 ∉ base_scalar_id <$> unimplemented_kinds ->
   Pop (x02 :: base_scalar_id x05 ++ x02 :: base_scalar_id x11 ++ [])
   = Panic (UnknownBaseScalar (base_scalar_id x11)))
  /\ (base_scalar_id x11 ∈ base_scalar_id <$> unimplemented_kinds ->
      exists msg,
        Pop (x02 :: base_scalar_id x05 ++ x02 :: base_scalar_id x11 ++ [])
        = Panic (NotImplemented msg)).
Proof.
  apply (Pop_base_scalar_rejected 1 _
           (<[base_scalar_id x05 := Int64]> ∅, [Int64])
           x02 (base_scalar_id x11) []).
  - eapply parsed_S; [reflexivity | apply parsed_O].
  - reflexivity.
  - reflexivity.
  - unfold implemented_kinds. cbn [fmap list_fmap]. intros Hin.
    repeat (apply elem_of_cons in Hin; destruct Hin as [Hin|Hin];
            [discriminate Hin|]).
    now apply elem_of_nil in Hin.
Defined.

Lemma Pop_truncated_witness :
  Pop (x02 :: base_scalar_id x05 ++ [x02; x00; x00])
  = Panic SliceBoundsOutOfRange.
Proof.
  apply (Pop_truncated 1 _ (<[base_scalar_id x05 := Int64]> ∅, [Int64])
           [x02; x00; x00]).
  - eapply parsed_S; [reflexivity | apply parsed_O].
  - cbn. lia.
Defined.

(** ** The codecs of a registry as cursors *)

Lemma popN_suffix (n : nat) (bts a rest : list byte) :
  popN n bts = Ok (a, rest) -> rest `suffix_of` bts.
Proof. intros Hp. apply popN_inv in Hp as [-> _]. now exists a. Qed.

Lemma popUint_suffix (n : nat) (bts rest : list byte) (x : Z) :
  popUint n bts = Ok (x, rest) -> rest `suffix_of` bts.
Proof.
  unfold popUint. intros Hp.
  destruct (popN n bts) as [[raw b]|?] eqn:E; cbn in Hp; [|discriminate].
  inversion Hp; subst. eapply popN_suffix, E.
Qed.

Lemma PopUint8_suffix (bts rest : list byte) (x : byte) :
  PopUint8 bts = Ok (x, rest) -> rest `suffix_of` bts.
Proof.
  destruct bts as [|b bts]; cbn; [discriminate|].
  intros E; inversion E; subst. now exists [x].
Qed.

Lemma PopBytes_suffix (bts buf rest : list byte) :
  PopBytes bts = Ok (buf, rest) -> rest `suffix_of` bts.
Proof.
  intros Hp. apply PopBytes_inv in Hp as (wlen & -> & _ & _).
  exists (wlen ++ buf). now rewrite <- app_assoc.
Qed.

Lemma PopString_suffix (bts rest : list byte) (s : string) :
  PopString bts = Ok (s, rest) -> rest `suffix_of` bts.
Proof.
  unfold PopString. intros Hp.
  destruct (PopBytes bts) as [[raw b]|?] eqn:E; cbn in Hp; [|discriminate].
  inversion Hp; subst. eapply PopBytes_suffix, E.
Qed.

(** Turns the calls of the primitives that returned into statements on
    what they left of the buffer, and closes the chain. *)
Ltac suffix_chain :=
  repeat match goal with
         | Hp : PopUint8 _ = Ok _ |- _ => apply PopUint8_suffix in Hp
         | Hp : PopUint16 _ = Ok _ |- _ => apply popUint_suffix in Hp
         | Hp : PopUint32 _ = Ok _ |- _ => apply popUint_suffix in Hp
         | Hp : PopUint64 _ = Ok _ |- _ => apply popUint_suffix in Hp
         | Hp : PopUUID _ = Ok _ |- _ => apply popN_suffix in Hp
         | Hp : popN _ _ = Ok _ |- _ => apply popN_suffix in Hp
         | Hp : PopBytes _ = Ok _ |- _ => apply PopBytes_suffix in Hp
         | Hp : PopString _ = Ok _ |- _ => apply PopString_suffix in Hp
         end;
  repeat match goal with
         | Hs : ?a `suffix_of` ?b |- ?a `suffix_of` ?c =>
             first [ exact Hs
                   | transitivity b; [exact Hs | clear Hs] ]
         end.

Section Cursors.
Context `{JSONLib}.

Lemma built_codec_consumes_prefix (c : DecodeEncoder) :
  built_codec c -> consumes_prefix c.
Proof.
  intros Hc bts v rest Hrun.
  assert (Hsuf : rest `suffix_of` bts); [|destruct Hsuf as [used ->]; eauto].
  destruct Hc; cbn [Decode UUID String Bytes Int16 Int32 Int64 Float32 Float64
                      Bool DateTime Duration JSON SetCodec ObjectCodec
                      TupleCodec NamedTupleCodec ArrayCodec] in Hrun.
  - unfold UUID_Decode in Hrun. do 2 inv_bind Hrun.
    inversion Hrun; subst. suffix_chain.
  - unfold String_Decode in Hrun. inv_bind Hrun.
    inversion Hrun; subst. suffix_chain.
  - unfold Bytes_Decode in Hrun. inv_bind Hrun.
    inversion Hrun; subst. suffix_chain.
  - unfold Int16_Decode in Hrun. do 2 inv_bind Hrun.
    inversion Hrun; subst. suffix_chain.
  - unfold Int32_Decode in Hrun. do 2 inv_bind Hrun.
    inversion Hrun; subst. suffix_chain.
  - unfold Int64_Decode in Hrun. do 2 inv_bind Hrun.
    inversion Hrun; subst. suffix_chain.
  - unfold Float32_Decode in Hrun. do 2 inv_bind Hrun.
    inversion Hrun; subst. suffix_chain.
  - unfold Float64_Decode in Hrun. do 2 inv_bind Hrun.
    inversion Hrun; subst. suffix_chain.
  - unfold Bool_Decode in Hrun. do 2 inv_bind Hrun.
    match type of Hrun with
    | (if ?b then _ else _) = _ => destruct b; [discriminate|]
    end.
    inversion Hrun; subst. suffix_chain.
  - unfold DateTime_Decode in Hrun. do 2 inv_bind Hrun.
    inversion Hrun; subst. suffix_chain.
  - unfold Duration_Decode in Hrun. do 4 inv_bind Hrun.
    inversion Hrun; subst. suffix_chain.
  - unfold JSON_Decode in Hrun. do 4 inv_bind Hrun.
    inversion Hrun; subst. suffix_chain.
  - destruct (composite_Decode_PopBytes _ _ _ _ (composite_Set child) Hrun) as [buf Hp].
    suffix_chain.
  - destruct (composite_Decode_PopBytes _ _ _ _ (composite_Object fields) Hrun) as [buf Hp].
    suffix_chain.
  - destruct (composite_Decode_PopBytes _ _ _ _ (composite_Tuple fields) Hrun) as [buf Hp].
    suffix_chain.
  - destruct (composite_Decode_PopBytes _ _ _ _ (composite_NamedTuple fields) Hrun) as [buf Hp].
    suffix_chain.
  - destruct (composite_Decode_PopBytes _ _ _ _ (composite_Array child) Hrun) as [buf Hp].
    suffix_chain.
Qed.

Lemma built_codec_appends_only (c : DecodeEncoder) :
  built_codec c -> appends_only c.
Proof.
  intros Hc bts v out Hrun.
  destruct Hc; cbn [Encode UUID String Bytes Int16 Int32 Int64 Float32 Float64
                      Bool DateTime Duration JSON SetCodec ObjectCodec
                      TupleCodec NamedTupleCodec ArrayCodec] in Hrun.
  1-11: (unfold UUID_Encode, String_Encode, Bytes_Encode, Int16_Encode,
           Int32_Encode, Int64_Encode, Float32_Encode, Float64_Encode,
           Bool_Encode, DateTime_Encode, Duration_Encode in Hrun;
         destruct v; try discriminate; inversion Hrun; subst;
         push_assoc; eexists; reflexivity).
  - unfold JSON_Encode in Hrun. inv_bind Hrun. inversion Hrun; subst.
    push_assoc. eexists; reflexivity.
  - discriminate.
  - discriminate.
  - unfold Tuple_Encode in Hrun. cbv zeta in Hrun.
    destruct (decide (length fields = 0%nat)).
    + inversion Hrun; subst. push_assoc. eexists; reflexivity.
    + destruct v; try discriminate. inv_bind Hrun. inversion Hrun; subst.
      push_assoc. eexists; reflexivity.
  - unfold NamedTuple_Encode in Hrun. cbv zeta in Hrun.
    destruct v; try discriminate. inv_bind Hrun. inversion Hrun; subst.
    push_assoc. eexists; reflexivity.
  - unfold Array_Encode in Hrun. cbv zeta in Hrun.
    destruct v; try discriminate. inv_bind Hrun. inversion Hrun; subst.
    push_assoc. eexists; reflexivity.
Qed.

(** X30.  Every codec of a lookup that [Pop] returns works as a cursor: a
    decode that returns has read a front part of the buffer and gives back
    what lies behind it, and an encode that returns has left the buffer it
    was given in place and written behind it. *)
Theorem Pop_codecs_cursors (stream : list byte) (lookup : CodecLookup)
    (id : list byte) (c : DecodeEncoder) :
  Pop stream = Ok lookup ->
  lookup !! id = Some c ->
  consumes_prefix c /\ appends_only c.
Proof.
  intros Hpop Hc. destruct (Pop_Ok_registry stream lookup Hpop) as [Hreg _].
  destruct (Hreg id c Hc) as [_ Hb]. split.
  - now apply built_codec_consumes_prefix.
  - now apply built_codec_appends_only.
Qed.

End Cursors.

Lemma Pop_codecs_cursors_witness :
  consumes_prefix (ArrayCodec Int64) /\ appends_only (ArrayCodec Int64).
Proof.
  apply (Pop_codecs_cursors
           (x02 :: base_scalar_id x05
            ++ x06 :: base_scalar_id xaa ++ [x00; x00; x00; x00])
           (<[base_scalar_id xaa := ArrayCodec Int64]>
              (<[base_scalar_id x05 := Int64]> ∅))
           (base_scalar_id xaa)).
  - reflexivity.
  - reflexivity.
Defined.
